(** * A sparse Merkle tree over a key-value store (merkle-tree-level-db)

    Shallow embedding of [src/merkle_tree.ts] and [src/sha256_hasher.ts]:
    JavaScript numbers as [Z] with the 32-bit conversions of the bitwise
    operators written out, Node [Buffer]s as lists of bytes, the LevelUp
    store as an interface with an in-memory instance, and the asynchronous
    methods as a state-and-exception monad over the tree object, the store
    and a log of store accesses. *)

From Stdlib Require Import ZArith List Lia Bool.
From Stdlib Require Import Strings.String Strings.Ascii Strings.Byte.
From stdpp Require Import base option list gmap strings.

Local Open Scope Z_scope.

(* ===================================================================== *)
(** ** JavaScript numbers and the bitwise operators *)
(* ===================================================================== *)

Module JS.

(** ECMAScript [ToInt32]: the operand of [^], [&] and [>>] is reduced
    modulo 2^32 and read as a signed 32-bit integer. *)
Definition ToInt32 (x : Z) : Z := (x + 2 ^ 31) mod 2 ^ 32 - 2 ^ 31.

(** [a ^ b] *)
Definition xor (a b : Z) : Z := Z.lxor (ToInt32 a) (ToInt32 b).

(** [a & b] *)
Definition and (a b : Z) : Z := Z.land (ToInt32 a) (ToInt32 b).

(** [a >> n], the sign-propagating shift; the count is taken modulo 32. *)
Definition sar (a n : Z) : Z := Z.shiftr (ToInt32 a) (n mod 32).

(** [!x] on a number: true exactly for zero. *)
Definition not (x : Z) : bool := x =? 0.

End JS.

(* ===================================================================== *)
(** ** Bytes and Node buffers *)
(* ===================================================================== *)

Definition Buffer : Type := list byte.

Definition Z_of_byte (b : byte) : Z := Z.of_N (Byte.to_N b).

Definition byte_of_Z (z : Z) : byte :=
  match Byte.of_N (Z.to_N (Z.land z 255)) with
  | Some b => b
  | None => x00
  end.

(** How a store operation fails: the key is absent, or anything else. *)
Inductive StoreError := NotFoundError | StoreFailure.

(** Errors raised by the modelled code.  [BadDepth] and [BadLeafValue] are
    the two [Error]s thrown by [MerkleTree]; [RangeError] is Node's
    ERR_OUT_OF_RANGE of the fixed-width buffer accessors; [TypeError] is
    raised when [undefined] reaches [Buffer.concat]; [Rejected] is a
    rejected store promise that is not caught.  [OutOfFuel] is not a
    JavaScript error: it marks a loop of the model that used up its
    iteration bound (the bound each method passes is enough, see
    [emptyHash_loop_ok], [updateElement_loop_total] and
    [getHashPath_loop_spec]). *)
Inductive Error :=
| BadDepth
| BadLeafValue
| RangeError
| TypeError
| Rejected (e : StoreError)
| OutOfFuel.

Definition Result (A : Type) : Type := Error + A.

Module Buf.

(** [Buffer.alloc(n)] / [Buffer.alloc(n, 0)] *)
Definition alloc (n : nat) : Buffer := repeat x00 n.

(** The four bytes of [value], least significant first. *)
Definition le32 (value : Z) : Buffer :=
  [byte_of_Z value; byte_of_Z (value / 2 ^ 8);
   byte_of_Z (value / 2 ^ 16); byte_of_Z (value / 2 ^ 24)].

(** [buf.writeUInt32LE(value, offset)]: Node first checks the value
    against [0, 2^32 - 1], then the offset against the buffer. *)
Definition writeUInt32LE (buf : Buffer) (value offset : Z) : Result Buffer :=
  if (value <? 0) || (4294967295 <? value) then inl RangeError
  else if (offset <? 0) || (Z.of_nat (length buf) - 4 <? offset) then inl RangeError
  else inr (take (Z.to_nat offset) buf ++ le32 value
            ++ drop (Z.to_nat offset + 4) buf).

(** [buf.readUInt32LE(offset)] *)
Definition readUInt32LE (buf : Buffer) (offset : Z) : Result Z :=
  if (offset <? 0) || (Z.of_nat (length buf) - 4 <? offset) then inl RangeError
  else
    match take 4 (drop (Z.to_nat offset) buf) with
    | [b0; b1; b2; b3] =>
        inr (Z_of_byte b0 + Z_of_byte b1 * 2 ^ 8
             + Z_of_byte b2 * 2 ^ 16 + Z_of_byte b3 * 2 ^ 24)
    | _ => inl RangeError
    end.

(** [buf.slice(0, n)] *)
Definition slice0 (buf : Buffer) (n : nat) : Buffer := take n buf.

(** [src.copy(target)]: overwrites the start of [target] with as much of
    [src] as fits. *)
Definition copy (src target : Buffer) : Buffer :=
  take (length target) src ++ drop (length src) target.

(** [Buffer.from(s)] for a string [s]; strings are represented by their
    UTF-8 code units, so this is the list of the string's bytes. *)
Definition from (s : string) : Buffer := list_byte_of_string s.

End Buf.

(* ===================================================================== *)
(** ** SHA-256 ([createHash('sha256').update(data).digest()]) *)
(* ===================================================================== *)

Module SHA256.

Definition w32 (x : Z) : Z := Z.land x 4294967295.
Definition add (x y : Z) : Z := w32 (x + y).
Definition rotr (n x : Z) : Z :=
  Z.lor (Z.shiftr x n) (w32 (Z.shiftl x (32 - n))).
Definition lnot32 (x : Z) : Z := 4294967295 - x.

Definition Ch (x y z : Z) := Z.lxor (Z.land x y) (Z.land (lnot32 x) z).
Definition Maj (x y z : Z) :=
  Z.lxor (Z.lxor (Z.land x y) (Z.land x z)) (Z.land y z).
Definition Sigma0 (x : Z) := Z.lxor (Z.lxor (rotr 2 x) (rotr 13 x)) (rotr 22 x).
Definition Sigma1 (x : Z) := Z.lxor (Z.lxor (rotr 6 x) (rotr 11 x)) (rotr 25 x).
Definition sigma0 (x : Z) := Z.lxor (Z.lxor (rotr 7 x) (rotr 18 x)) (Z.shiftr x 3).
Definition sigma1 (x : Z) := Z.lxor (Z.lxor (rotr 17 x) (rotr 19 x)) (Z.shiftr x 10).

(** The round constants and the initial state are not tabulated but
    computed as the standard defines them: the first 32 bits of the
    fractional parts of the cube roots (square roots) of the first 64 (8)
    primes. *)
Definition is_prime (n : nat) : bool :=
  forallb (fun d => negb (n mod d =? 0)%nat) (seq 2 (n - 2)).

Definition primes : list Z := map Z.of_nat (filter is_prime (seq 2 310)).

(** The integer cube root, built bit by bit from bit [k - 1] down. *)
Fixpoint cbrt_bits (k : nat) (n r : Z) : Z :=
  match k with
  | O => r
  | S k' =>
      let r' := r + 2 ^ Z.of_nat k' in
      cbrt_bits k' n (if r' * r' * r' <=? n then r' else r)
  end.

Definition frac_cbrt (p : Z) : Z := cbrt_bits 36 (p * 2 ^ 96) 0 mod 2 ^ 32.
Definition frac_sqrt (p : Z) : Z := Z.sqrt (p * 2 ^ 64) mod 2 ^ 32.

Definition K : list Z := Eval vm_compute in map frac_cbrt primes.

Record regs := Regs { ra : Z; rb : Z; rc : Z; rd : Z; re : Z; rf : Z; rg : Z; rh : Z }.

Definition H0 : regs :=
  Eval vm_compute in
    match map frac_sqrt (take 8 primes) with
    | [a; b; c; d; e; f; g; h] => Regs a b c d e f g h
    | _ => Regs 0 0 0 0 0 0 0 0
    end.

(** Big-endian words of a block. *)
Fixpoint be_words (bs : list byte) : list Z :=
  match bs with
  | b0 :: b1 :: b2 :: b3 :: rest =>
      (Z_of_byte b0 * 2 ^ 24 + Z_of_byte b1 * 2 ^ 16
       + Z_of_byte b2 * 2 ^ 8 + Z_of_byte b3) :: be_words rest
  | _ => []
  end.

Definition be32 (x : Z) : Buffer :=
  [byte_of_Z (x / 2 ^ 24); byte_of_Z (x / 2 ^ 16); byte_of_Z (x / 2 ^ 8); byte_of_Z x].

(** The message schedule, most recent word first: [extend n w] adds [n]
    words to the (reversed) schedule [w]. *)
Fixpoint extend (n : nat) (w : list Z) : list Z :=
  match n with
  | O => w
  | S n' =>
      match w with
      | _ :: w2 :: _ :: _ :: _ :: _ :: w7 :: _ :: _ :: _ :: _ :: _ :: _ :: _ :: w15 :: w16 :: _ =>
          extend n' (add (add (sigma1 w2) w7) (add (sigma0 w15) w16) :: w)
      | _ => w
      end
  end.

Definition round (r : regs) (kw : Z * Z) : regs :=
  let t1 := add (add (add (rh r) (Sigma1 (re r))) (add (Ch (re r) (rf r) (rg r)) (fst kw))) (snd kw) in
  let t2 := add (Sigma0 (ra r)) (Maj (ra r) (rb r) (rc r)) in
  Regs (add t1 t2) (ra r) (rb r) (rc r) (add (rd r) t1) (re r) (rf r) (rg r).

Definition compress_block (h : regs) (block : list byte) : regs :=
  let w := rev (extend 48 (rev (be_words block))) in
  let r := fold_left round (combine K w) h in
  Regs (add (ra h) (ra r)) (add (rb h) (rb r)) (add (rc h) (rc r)) (add (rd h) (rd r))
       (add (re h) (re r)) (add (rf h) (rf r)) (add (rg h) (rg r)) (add (rh h) (rh r)).

(** Padding: a 1 bit, zeros up to 56 mod 64, the bit length on 64 bits. *)
Definition pad (msg : list byte) : list byte :=
  let len := Z.of_nat (length msg) in
  let zeros := Z.to_nat ((55 - len) mod 64) in
  msg ++ x80 :: repeat x00 zeros
      ++ be32 (Z.shiftr (len * 8) 32) ++ be32 (len * 8).

Fixpoint blocks (n : nat) (h : regs) (bs : list byte) : regs :=
  match n with
  | O => h
  | S n' => blocks n' (compress_block h (take 64 bs)) (drop 64 bs)
  end.

Definition digest (msg : list byte) : Buffer :=
  let p := pad msg in
  let h := blocks (length p / 64)%nat H0 p in
  be32 (ra h) ++ be32 (rb h) ++ be32 (rc h) ++ be32 (rd h)
  ++ be32 (re h) ++ be32 (rf h) ++ be32 (rg h) ++ be32 (rh h).

End SHA256.

(* ===================================================================== *)
(** ** [buf.toString()]: UTF-8 decoding with replacement *)
(* ===================================================================== *)

Module UTF8.

(** A pending multi-byte sequence: the bytes seen so far, the number of
    continuation bytes still needed, and the range allowed for the next
    byte. *)
Record pending := Pending { seen : list byte; needed : nat; lower : Z; upper : Z }.

(** U+FFFD REPLACEMENT CHARACTER, as UTF-8 code units. *)
Definition replacement : list byte := [xef; xbf; xbd].

(** A byte met outside any sequence: what is emitted, and the sequence it
    opens (if any). *)
Definition lead (b : byte) : list byte * option pending :=
  let z := Z_of_byte b in
  if z <=? 0x7F then ([b], None)
  else if (0xC2 <=? z) && (z <=? 0xDF) then ([], Some (Pending [b] 1 0x80 0xBF))
  else if (0xE0 <=? z) && (z <=? 0xEF) then
    ([], Some (Pending [b] 2 (if z =? 0xE0 then 0xA0 else 0x80)
                             (if z =? 0xED then 0x9F else 0xBF)))
  else if (0xF0 <=? z) && (z <=? 0xF4) then
    ([], Some (Pending [b] 3 (if z =? 0xF0 then 0x90 else 0x80)
                             (if z =? 0xF4 then 0x8F else 0xBF)))
  else (replacement, None).

(** The decoder: well-formed sequences are kept, every maximal
    ill-formed part becomes one U+FFFD. *)
Fixpoint decode (st : option pending) (bs : list byte) : list byte :=
  match bs with
  | [] => match st with None => [] | Some _ => replacement end
  | b :: rest =>
      match st with
      | None => let '(out, st') := lead b in out ++ decode st' rest
      | Some p =>
          if (lower p <=? Z_of_byte b) && (Z_of_byte b <=? upper p) then
            match needed p with
            | 1%nat => (seen p ++ [b]) ++ decode None rest
            | n => decode (Some (Pending (seen p ++ [b]) (pred n) 0x80 0xBF)) rest
            end
          else
            let '(out, st') := lead b in replacement ++ out ++ decode st' rest
      end
  end.

(** [buf.toString()]; the resulting string is represented by its UTF-8
    code units (the bytes LevelUp hands to the store for a string key). *)
Definition toString (buf : Buffer) : string :=
  string_of_list_byte (decode None buf).

End UTF8.

(* ===================================================================== *)
(** ** src/sha256_hasher.ts *)
(* ===================================================================== *)

(** [hash(data)] *)
Definition hash (data : Buffer) : Buffer := SHA256.digest data.

(** [compress(lhs, rhs)]: the digest of [Buffer.concat([lhs, rhs])]. *)
Definition compress (lhs rhs : Buffer) : Buffer := SHA256.digest (concat [lhs; rhs]).

Record Sha256Hasher := { emptyHashCache : list Buffer }.

(** The constructor pushes the hash of 64 zero bytes. *)
Definition new_Sha256Hasher : Sha256Hasher :=
  {| emptyHashCache := [] ++ [hash (Buf.alloc 64)] |}.

(** The [while] loop of [emptyHash]; [cache[cache.length - 1]] is
    [undefined] on an empty cache, which [Buffer.concat] rejects. *)
Fixpoint emptyHash_loop (fuel : nat) (depth : Z) (cache : list Buffer)
  : Result (list Buffer) :=
  if Z.of_nat (length cache) - 1 <=? depth then
    match fuel with
    | O => inl OutOfFuel
    | S fuel' =>
        match last cache with
        | None => inl TypeError
        | Some child => emptyHash_loop fuel' depth (cache ++ [compress child child])
        end
    end
  else inr cache.

(** [emptyHash(depth)]: the result and the grown cache; [None] stands for
    [undefined] (only for a negative depth). *)
Definition emptyHash (depth : Z) (h : Sha256Hasher)
  : Result (option Buffer) * Sha256Hasher :=
  match emptyHash_loop (Z.to_nat (depth + 2)) depth (emptyHashCache h) with
  | inl e => (inl e, h)
  | inr cache =>
      (inr (if depth <? 0 then None else cache !! Z.to_nat depth),
       {| emptyHashCache := cache |})
  end.

(** The recurrence the cache is meant to realise. *)
Fixpoint emptyHash_rec (d : nat) : Buffer :=
  match d with
  | O => hash (Buf.alloc 64)
  | S d' => let child := emptyHash_rec d' in compress child child
  end.

(* ===================================================================== *)
(** ** The key-value store *)
(* ===================================================================== *)

(** What the tree uses of LevelUp: [get] and [put] on byte-string keys.  A
    [get] may fail because the key is absent or for any other reason; a
    failed [put] leaves the store as it was. *)
Class LevelUp (DB : Type) := {
  db_get : DB -> string -> StoreError + Buffer;
  db_put : DB -> string -> Buffer -> StoreError + DB
}.

(** A store that answers reads with the last value written. *)
Class LevelUpLaws (DB : Type) `{LevelUp DB} := {
  get_put_eq : forall d d' k v, db_put d k v = inr d' -> db_get d' k = inr v;
  get_put_ne : forall d d' k k' v,
      db_put d k v = inr d' -> k' <> k -> db_get d' k' = db_get d k'
}.

(** A store whose writes never fail. *)
Class Reliable (DB : Type) `{LevelUp DB} := {
  put_total : forall d k v, exists d', db_put d k v = inr d'
}.

(** The in-memory store (memdown). *)
#[export] Instance MemDown : LevelUp (gmap string Buffer) := {
  db_get d k := match d !! k with Some v => inr v | None => inl NotFoundError end;
  db_put d k v := inr (<[k := v]> d)
}.

(** A store access, as recorded in the log. *)
Inductive Access := Get (k : string) | Put (k : string) (v : Buffer).

Definition is_Get (a : Access) : bool :=
  match a with Get _ => true | Put _ _ => false end.

(* ===================================================================== *)
(** ** src/merkle_tree.ts *)
(* ===================================================================== *)

Definition MAX_DEPTH : Z := 32.
Definition LEAF_BYTES : Z := 64.

(** Modelled from the spec: [hash_path.ts] is not among the sources; a
    HashPath is "an ordered sequence of D sibling pairs", built here from the
    two-element arrays pushed on [pathData]. *)
Record HashPath := { data : list (Buffer * Buffer) }.

(** The fields of a [MerkleTree] object ([db] is kept in the state below). *)
Record MerkleTree := {
  name : string;
  depth : Z;
  root : Buffer;
  hasher : Sha256Hasher
}.

Definition with_root (t : MerkleTree) (value : Buffer) : MerkleTree :=
  {| name := name t; depth := depth t; root := value; hasher := hasher t |}.

Definition with_hasher (t : MerkleTree) (h : Sha256Hasher) : MerkleTree :=
  {| name := name t; depth := depth t; root := root t; hasher := h |}.

(** [undefined] where a buffer is needed. *)
Definition defined {A : Type} (r : Result (option A)) : Result A :=
  match r with
  | inl e => inl e
  | inr None => inl TypeError
  | inr (Some a) => inr a
  end.

(** The constructor.  The field initialiser builds the hasher, then the
    depth is checked; it touches no store. *)
Definition constructor (name : string) (depth : Z) (root : option Buffer)
  : Result MerkleTree :=
  let hasher := new_Sha256Hasher in
  if negb ((1 <=? depth) && (depth <=? MAX_DEPTH)) then inl BadDepth
  else
    match root with
    | Some root => inr {| name := name; depth := depth; root := root; hasher := hasher |}
    | None =>
        let '(r, hasher) := emptyHash depth hasher in
        match defined r with
        | inl e => inl e
        | inr root => inr {| name := name; depth := depth; root := root; hasher := hasher |}
        end
    end.

(** [generateKey(depth, index)] *)
Definition generateKey (name : string) (depth index : Z) : Result Buffer :=
  let buffer := Buf.alloc 8 in
  match Buf.writeUInt32LE buffer depth 0 with
  | inl e => inl e
  | inr buffer =>
      match Buf.writeUInt32LE buffer index 4 with
      | inl e => inl e
      | inr buffer => inr (hash (concat [Buf.from name; buffer]))
      end
  end.

Section Methods.

Context {DB : Type} `{LevelUp DB}.

(** The state a method runs in: the object, the store, the access log. *)
Record State := { this : MerkleTree; db : DB; log : list Access }.

Definition M (A : Type) : Type := State -> Result A * State.

Definition ret {A} (a : A) : M A := fun st => (inr a, st).
Definition throw {A} (e : Error) : M A := fun st => (inl e, st).
Definition bind {A B} (c : M A) (k : A -> M B) : M B :=
  fun st => match c st with
            | (inl e, st') => (inl e, st')
            | (inr a, st') => k a st'
            end.
Definition lift {A} (r : Result A) : M A := fun st => (r, st).

Local Notation "'let*' x := c 'in' k" := (bind c (fun x => k))
  (at level 10, x name, c at level 100, k at level 200).

Definition this_name : M string := fun st => (inr (name (this st)), st).
Definition this_depth : M Z := fun st => (inr (depth (this st)), st).
Definition this_root : M Buffer := fun st => (inr (root (this st)), st).

(** [this.root = value] *)
Definition set_root (value : Buffer) : M unit :=
  fun st => (inr tt, {| this := with_root (this st) value;
                        db := db st; log := log st |}).

(** [this.hasher.emptyHash(depth)] *)
Definition this_emptyHash (depth : Z) : M Buffer :=
  fun st =>
    let '(r, h) := emptyHash depth (hasher (this st)) in
    (defined r, {| this := with_hasher (this st) h;
                   db := db st; log := log st |}).

(** [await this.db.get(key)], the outcome handed to the caller. *)
Definition store_get (key : string) : M (StoreError + Buffer) :=
  fun st => (inr (db_get (db st) key),
             {| this := this st; db := db st; log := log st ++ [Get key] |}).

(** [await this.db.put(key, value)]; a rejection propagates. *)
Definition store_put (key : string) (value : Buffer) : M unit :=
  fun st =>
    let log' := log st ++ [Put key value] in
    match db_put (db st) key value with
    | inl e => (inl (Rejected e), {| this := this st; db := db st; log := log' |})
    | inr d => (inr tt, {| this := this st; db := d; log := log' |})
    end.

(** [writeMetaData()] (no batch is ever passed by this class). *)
Definition writeMetaData : M unit :=
  let* root := this_root in
  let* depth := this_depth in
  let* name := this_name in
  let data := Buf.alloc 40 in
  let data := Buf.copy root data in
  let* data := lift (Buf.writeUInt32LE data depth 32) in
  store_put name data.

(** [getRoot()] *)
Definition getRoot : M Buffer := this_root.

(** [readNode(depth, index)]: the key is derived outside the [try]. *)
Definition readNode (depth index : Z) : M Buffer :=
  let* name := this_name in
  let* key := lift (generateKey name depth index) in
  let* r := store_get (UTF8.toString key) in
  match r with
  | inr nodeHash => ret nodeHash
  | inl _ => this_emptyHash depth
  end.

(** [writeNode(depth, index, value)] (no batch is ever passed). *)
Definition writeNode (depth index : Z) (value : Buffer) : M unit :=
  if LEAF_BYTES <? Z.of_nat (length value) then throw BadLeafValue
  else
    let* name := this_name in
    let* key := lift (generateKey name depth index) in
    store_put (UTF8.toString key) value.

(** The [while (depth < this.depth)] loop of [getHashPath]. *)
Fixpoint getHashPath_loop (fuel : nat) (depth index : Z)
    (pathData : list (Buffer * Buffer)) : M (list (Buffer * Buffer)) :=
  let* this_depth' := this_depth in
  if depth <? this_depth' then
    match fuel with
    | O => throw OutOfFuel
    | S fuel' =>
        let siblingIndex := JS.xor index 1 in
        let* siblingHash := readNode depth siblingIndex in
        let* nodeHash := readNode depth index in
        let pathData :=
          if JS.not (JS.and index 1) then pathData ++ [(nodeHash, siblingHash)]
          else pathData ++ [(siblingHash, nodeHash)] in
        getHashPath_loop fuel' (depth + 1) (JS.sar index 1) pathData
    end
  else ret pathData.

(** [getHashPath(index)] *)
Definition getHashPath (index : Z) : M HashPath :=
  let* this_depth' := this_depth in
  let* pathData := getHashPath_loop (Z.to_nat this_depth') 0 index [] in
  ret {| data := pathData |}.

(** The [while (depth <= this.depth)] loop of [updateElement]. *)
Fixpoint updateElement_loop (fuel : nat) (depth index : Z) (hashValue : Buffer)
  : M Buffer :=
  let* this_depth' := this_depth in
  if depth <=? this_depth' then
    match fuel with
    | O => throw OutOfFuel
    | S fuel' =>
        let siblingIndex := JS.xor index 1 in
        let* siblingHash := readNode (depth - 1) siblingIndex in
        let hashValue :=
          if JS.not (JS.and index 1) then compress hashValue siblingHash
          else compress siblingHash hashValue in
        let* _ := writeNode depth (JS.sar index 1) hashValue in
        updateElement_loop fuel' (depth + 1) (JS.sar index 1) hashValue
    end
  else ret hashValue.

(** [updateElement(index, value)] *)
Definition updateElement (index : Z) (value : Buffer) : M Buffer :=
  let hashValue := hash value in
  let* _ := writeNode 0 index hashValue in
  let* this_depth' := this_depth in
  let* hashValue := updateElement_loop (Z.to_nat this_depth') 1 index hashValue in
  let* _ := set_root hashValue in
  let* _ := writeMetaData in
  this_root.

(** [MerkleTree.new(db, name, depth)]: the metadata is fetched first; any
    failure of the fetch counts as "no metadata". *)
Definition new (d : DB) (l : list Access) (name : string) (depth : Z)
  : Result MerkleTree * (DB * list Access) :=
  let key := string_of_list_byte (Buf.from name) in
  let l := l ++ [Get key] in
  match db_get d key with
  | inr meta =>
      let root := Buf.slice0 meta 32 in
      match Buf.readUInt32LE meta 32 with
      | inl e => (inl e, (d, l))
      | inr depth => (constructor name depth (Some root), (d, l))
      end
  | inl _ =>
      match constructor name depth None with
      | inl e => (inl e, (d, l))
      | inr tree =>
          match writeMetaData {| this := tree; db := d; log := l |} with
          | (inl e, st) => (inl e, (db st, log st))
          | (inr _, st) => (inr (this st), (db st, log st))
          end
      end
  end.

End Methods.

Arguments State DB : clear implicits.
Arguments M DB A : clear implicits.

(** The store key of node [(depth, index)] of the tree [name]. *)
Definition storeKey (name : string) (depth index : Z) : string :=
  UTF8.toString (hash (concat [Buf.from name; Buf.le32 depth ++ Buf.le32 index])).

(* ===================================================================== *)
(** ** Notions used in the statements *)
(* ===================================================================== *)

(** The range of [writeUInt32LE]. *)
Definition uint32 (z : Z) : Prop := 0 <= z <= 4294967295.

(** The first [n] values of the recurrence. *)
Definition table (n : nat) : list Buffer := map emptyHash_rec (seq 0 n).

(** A cache is sound when it is a non-empty prefix of the recurrence. *)
Definition cache_ok (h : Sha256Hasher) : Prop :=
  exists n, emptyHashCache h = table (S n).

(** The record [writeMetaData] builds from the root and the depth. *)
Definition metaRecord (r : Buffer) (D : Z) : Buffer :=
  take 32 (Buf.copy r (Buf.alloc 40)) ++ Buf.le32 D
  ++ drop 36 (Buf.copy r (Buf.alloc 40)).

(** The in-memory store never rejects a write and reads back what was
    written. *)
#[export] Instance MemDown_reliable : Reliable (gmap string Buffer).
Proof. constructor. intros d k v. exists (<[k := v]> d). reflexivity. Qed.

#[export] Instance MemDown_laws : LevelUpLaws (gmap string Buffer).
Proof.
  constructor.
  - intros d d' k v E. injection E as <-. cbn. rewrite lookup_insert_eq. reflexivity.
  - intros d d' k k' v E Hne. injection E as <-. cbn.
    rewrite lookup_insert_ne by congruence. reflexivity.
Qed.

(** What a read-only method may do to a state: keep the name, the depth,
    the root and the store, and add gets to the log (the hasher's cache may
    grow). *)
Definition read_only {DB : Type} (st st' : State DB) : Prop :=
  name (this st') = name (this st)
  /\ depth (this st') = depth (this st)
  /\ root (this st') = root (this st)
  /\ db st' = db st
  /\ exists gets, log st' = log st ++ gets /\ forallb is_Get gets = true.

(** The value of node [(l, j)] of the tree [nm] in the store [d]: what is
    stored under its key, or the empty-subtree hash of its level. *)
Definition node {DB : Type} `{LevelUp DB} (nm : string) (d : DB) (l j : Z) : Buffer :=
  match db_get d (storeKey nm l j) with
  | inr v => v
  | inl _ => emptyHash_rec (Z.to_nat l)
  end.

(** A tree object named [nm] of depth [D] with a sound cache. *)
Definition wf {DB : Type} (nm : string) (D : Z) (st : State DB) : Prop :=
  name (this st) = nm /\ depth (this st) = D /\ cache_ok (hasher (this st)).

(** What every method keeps: the name and the depth of the tree. *)
Definition keeps_id {DB : Type} (st st' : State DB) : Prop :=
  name (this st') = name (this st) /\ depth (this st') = depth (this st).

(** The depth-2 tree named "t" that [new] creates on the empty in-memory
    store, with the store and the log it leaves. *)
Definition tree_t2 : MerkleTree :=
  {| name := "t"; depth := 2; root := emptyHash_rec 2;
     hasher := {| emptyHashCache := table 4 |} |}.

Definition fresh_t2 : State (gmap string Buffer) :=
  {| this := tree_t2;
     db := {["t" := metaRecord (emptyHash_rec 2) 2]};
     log := [Get "t"; Put "t" (metaRecord (emptyHash_rec 2) 2)] |}.

(** The same tree after [updateElement(0, "a")]. *)
Definition state_t2 : State (gmap string Buffer) :=
  snd (updateElement 0 (list_byte_of_string "a") fresh_t2).

(** A depth-32 tree named "t" on the empty in-memory store. *)
Definition state_t32 : State (gmap string Buffer) :=
  {| this := {| name := "t"; depth := 32; root := emptyHash_rec 32;
                hasher := new_Sha256Hasher |};
     db := ∅; log := [] |}.

(** A depth-1 tree on the empty in-memory store, under a given name. *)
Definition state_d1 (nm : string) : State (gmap string Buffer) :=
  {| this := {| name := nm; depth := 1; root := emptyHash_rec 1;
                hasher := new_Sha256Hasher |};
     db := ∅; log := [] |}.

(** The bytes hashed into the key of node [(l, j)] of the tree [nm]. *)
Definition keyPreimage (nm : string) (l j : Z) : Buffer :=
  Buf.from nm ++ Buf.le32 l ++ Buf.le32 j.

(** The state made of a tree and what [new] left. *)
Definition opened (r : Result MerkleTree * (gmap string Buffer * list Access))
  : option (State (gmap string Buffer)) :=
  match r with
  | (inr t, (d, l)) => Some {| this := t; db := d; log := l |}
  | (inl _, _) => None
  end.

(** Two trees in one in-memory store: the tree ["a"], and a tree named by
    the key text of node (0,0) of ["a"].  Both are created, leaf 0 of ["a"]
    is updated, and the second tree is opened again. *)
Definition two_trees : option (Result MerkleTree) :=
  let other := storeKey "a" 0 0 in
  match new (∅ : gmap string Buffer) [] other 1 with
  | (inr _, (d1, _)) =>
      match opened (new d1 [] "a" 1) with
      | Some st =>
          match updateElement 0 (list_byte_of_string "v") st with
          | (inr _, st') => Some (fst (new (db st') [] other 1))
          | (inl _, _) => None
          end
      | None => None
      end
  | (inl _, _) => None
  end.

(** The states a tree named [nm] goes through: created by [new] with depth
    [D] on the store [d0], then any number of [updateElement] calls with
    indices in [0, B), whether they return or throw. *)
Inductive reachable {DB : Type} `{LevelUp DB} (d0 : DB) (nm : string) (D B : Z)
  : State DB -> Prop :=
| reach_new (t : MerkleTree) (d : DB) (l : list Access) :
    new d0 [] nm D = (inr t, (d, l)) ->
    reachable d0 nm D B {| this := t; db := d; log := l |}
| reach_update (st : State DB) (i : Z) (v : Buffer) :
    reachable d0 nm D B st -> 0 <= i < B ->
    reachable d0 nm D B (snd (updateElement i v st)).

(** The root node reads as the root field. *)
Definition root_inv {DB : Type} `{LevelUp DB} (nm : string) (D : Z) (st : State DB)
  : Prop :=
  wf nm D st /\ node nm (db st) D 0 = root (this st).

(** The state [new] leaves on the in-memory store [d0] (the tree of
    [state_d1] stands in when [new] throws). *)
Definition created (d0 : gmap string Buffer) (nm : string) (D : Z)
  : State (gmap string Buffer) :=
  {| this := match fst (new d0 [] nm D) with
             | inr t => t
             | inl _ => this (state_d1 nm)
             end;
     db := fst (snd (new d0 [] nm D));
     log := snd (snd (new d0 [] nm D)) |}.

(** The nodes of a tree of depth [D]: level [l] has the indices below
    [2^(D-l)]. *)
Definition in_tree (D l j : Z) : Prop := 0 <= l <= D /\ 0 <= j < 2 ^ (D - l).

(** The node keys of the tree are pairwise distinct and differ from the
    metadata key. *)
Definition keys_distinct (nm : string) (D : Z) : Prop :=
  (forall l j l' j', in_tree D l j -> in_tree D l' j' ->
                     storeKey nm l j = storeKey nm l' j' -> l = l' /\ j = j')
  /\ (forall l j, in_tree D l j -> storeKey nm l j <> nm).

(** Every parent is the compression of its two children, except possibly
    the ancestors of leaf [i] from level [k] up. *)
Definition merkle_upto {DB : Type} `{LevelUp DB} (nm : string) (D i k : Z) (d : DB)
  : Prop :=
  forall l j, 0 <= l < D -> 0 <= j < 2 ^ (D - l - 1) ->
              l + 1 < k \/ j <> i / 2 ^ (l + 1) ->
              node nm d (l + 1) j
              = compress (node nm d l (2 * j)) (node nm d l (2 * j + 1)).

(** Every parent is the compression of its two children. *)
Definition merkle {DB : Type} `{LevelUp DB} (nm : string) (D : Z) (d : DB) : Prop :=
  forall l j, 0 <= l < D -> 0 <= j < 2 ^ (D - l - 1) ->
              node nm d (l + 1) j
              = compress (node nm d l (2 * j)) (node nm d l (2 * j + 1)).

(** The pair of level [l] on the path of leaf [i], in the words of the
    spec: the current index is [i >> l], the sibling index is the current
    one XOR 1, and the pair is (current, sibling) when the current index is
    even, (sibling, current) when it is odd. *)
Definition pathPair {DB : Type} `{LevelUp DB} (nm : string) (d : DB) (i l : Z)
  : Buffer * Buffer :=
  let current := Z.shiftr i l in
  let sibling := Z.lxor current 1 in
  if Z.even current then (node nm d l current, node nm d l sibling)
  else (node nm d l sibling, node nm d l current).

(** The levels [l, l + n) from the bottom up. *)
Definition levels (l : Z) (n : nat) : list Z := map (fun k => l + Z.of_nat k) (seq 0 n).

(** Folding [compress] bottom-up over a path for the index [i] of its first
    level: the compression of each pair is the component of the next pair on
    the side of [i >> 1], and the compression of the last pair is [top]. *)
Fixpoint folds_to (i : Z) (path : list (Buffer * Buffer)) (top : Buffer) : Prop :=
  match path with
  | [] => False
  | p :: rest =>
      match rest with
      | [] => compress (fst p) (snd p) = top
      | q :: _ =>
          compress (fst p) (snd p) = (if Z.even (Z.shiftr i 1) then fst q else snd q)
          /\ folds_to (Z.shiftr i 1) rest top
      end
  end.

(** The tree is consistent: the object is well formed, every parent in the
    store is the compression of its children, and the root node is the root
    field. *)
Definition merkle_inv {DB : Type} `{LevelUp DB} (nm : string) (D : Z) (st : State DB)
  : Prop :=
  wf nm D st /\ merkle nm D (db st) /\ node nm (db st) D 0 = root (this st).

(** An in-memory store holding a one-byte record under "t". *)
Definition store_short_meta : gmap string Buffer := {["t" := [x01]]}.

(** A key that is no node key of the tree [nm]. *)
Definition foreign_key (nm k : string) : Prop :=
  forall l j, uint32 l -> uint32 j -> storeKey nm l j <> k.

(** What [updateElement] on the tree [nm] may do to the store: the keys
    that are not node keys of the tree keep their contents (the metadata
    key, the name, apart). *)
Definition own_writes {DB : Type} `{LevelUp DB} (nm : string) (st st' : State DB)
  : Prop :=
  name (this st) = nm ->
  name (this st') = nm
  /\ forall k, foreign_key nm k -> db_get (db st') k = db_get (db st) k.

(** The Merkle hash of the subtree below node [(l, j)] over the leaf values
    [leaf]: a leaf is its value, a parent is the compression of its two
    children. *)
Fixpoint merkle_hash (leaf : Z -> Buffer) (l : nat) (j : Z) : Buffer :=
  match l with
  | O => leaf j
  | S l' => compress (merkle_hash leaf l' (2 * j)) (merkle_hash leaf l' (2 * j + 1))
  end.

(** The leaf values after a list of updates [(index, payload)]: the hash of
    the payload last written at the index, the hash of 64 zero bytes where
    nothing was written. *)
Definition leaves_after (us : list (Z * Buffer)) : Z -> Buffer :=
  fold_left (fun leaf u j => if j =? fst u then hash (snd u) else leaf j) us
            (fun _ => hash (Buf.alloc 64)).

(** A caller awaiting [updateElement(index, payload)] for each pair in
    turn; the first exception ends the run. *)
Fixpoint updateAll {DB : Type} `{LevelUp DB} (us : list (Z * Buffer)) : M DB unit :=
  match us with
  | [] => ret tt
  | u :: rest => bind (updateElement (fst u) (snd u)) (fun _ => updateAll rest)
  end.

(** What holds of every tree object: a depth in [1,32], a root of 32 bytes
    and a sound cache. *)
Definition sound (t : MerkleTree) : Prop :=
  1 <= depth t <= 32 /\ length (root t) = 32%nat /\ cache_ok (hasher t).

(** What every method keeps of a sound object, whether it returns or
    throws: its soundness, its name and its depth. *)
Definition keeps_sound {DB : Type} (st st' : State DB) : Prop :=
  sound (this st) -> sound (this st') /\ keeps_id st st'.

(** The store accesses of [getHashPath(i)] on level [l]: the sibling is
    fetched, then the node. *)
Definition path_gets (nm : string) (i l : Z) : list Access :=
  [Get (storeKey nm l (Z.lxor (Z.shiftr i l) 1)); Get (storeKey nm l (Z.shiftr i l))].

(** An access without the value written: whether it is a put, and the
    key. *)
Definition access_key (a : Access) : bool * string :=
  match a with
  | Get k => (false, k)
  | Put k _ => (true, k)
  end.

(** The store accesses of [updateElement(i, _)] for level [l], values left
    out: the sibling of the level below is fetched, then the parent is
    put. *)
Definition level_accesses (nm : string) (i l : Z) : list (bool * string) :=
  [(false, storeKey nm (l - 1) (Z.lxor (Z.shiftr i (l - 1)) 1));
   (true, storeKey nm l (Z.shiftr i l))].

(** Two objects for the same tree on the same store contents: the name and
    the depth agree, the stores agree, and both caches are sound.  The
    root fields, the contents of the caches and the logs may differ. *)
Definition same_tree {DB : Type} (st st2 : State DB) : Prop :=
  name (this st) = name (this st2) /\ depth (this st) = depth (this st2)
  /\ db st = db st2
  /\ cache_ok (hasher (this st)) /\ cache_ok (hasher (this st2)).

(** A computation that cannot tell two such objects apart: it gives the
    same outcome on both and keeps them alike. *)
Definition agree {DB : Type} {A : Type} (c : M DB A) : Prop :=
  forall st st2, same_tree st st2 ->
                 fst (c st) = fst (c st2) /\ same_tree (snd (c st)) (snd (c st2)).

(* ===================================================================== *)
(** * Properties *)
(* ===================================================================== *)

(** ** Bytes and buffers *)

Lemma Z_of_byte_range (b : byte) : 0 <= Z_of_byte b < 256.
Proof.
  unfold Z_of_byte. pose proof (Byte.to_N_bounded b) as Hb. lia.
Qed.

Lemma Z_of_byte_of_Z (z : Z) : Z_of_byte (byte_of_Z z) = z mod 256.
Proof.
  unfold Z_of_byte, byte_of_Z.
  change 255 with (Z.ones 8). rewrite Z.land_ones by lia. change (2 ^ 8) with 256.
  assert (Hr : 0 <= z mod 256 < 256) by (apply Z.mod_pos_bound; lia).
  destruct (Byte.of_N (Z.to_N (z mod 256))) as [b|] eqn:E.
  - apply Byte.to_of_N in E. rewrite E. lia.
  - apply Byte.of_N_None_iff in E. lia.
Qed.

Lemma byte_of_Z_of_byte (b : byte) : byte_of_Z (Z_of_byte b) = b.
Proof.
  unfold byte_of_Z, Z_of_byte.
  pose proof (Byte.to_N_bounded b) as Hb.
  change 255 with (Z.ones 8). rewrite Z.land_ones by lia. change (2 ^ 8) with 256.
  rewrite Z.mod_small by lia. rewrite N2Z.id, Byte.of_to_N. reflexivity.
Qed.

Lemma le32_value (v : Z) :
  uint32 v ->
  match Buf.le32 v with
  | [b0; b1; b2; b3] =>
      Z_of_byte b0 + Z_of_byte b1 * 2 ^ 8 + Z_of_byte b2 * 2 ^ 16
      + Z_of_byte b3 * 2 ^ 24 = v
  | _ => False
  end.
Proof.
  unfold uint32, Buf.le32. intros Hv. rewrite !Z_of_byte_of_Z.
  change (2 ^ 8) with 256. change (2 ^ 16) with 65536. change (2 ^ 24) with 16777216.
  assert (E2 : v / 65536 = v / 256 / 256) by (rewrite Z.div_div by lia; reflexivity).
  assert (E3 : v / 16777216 = v / 256 / 256 / 256)
    by (rewrite !Z.div_div by lia; reflexivity).
  rewrite E2, E3.
  pose proof (Z.div_mod v 256 ltac:(lia)).
  pose proof (Z.div_mod (v / 256) 256 ltac:(lia)).
  pose proof (Z.div_mod (v / 256 / 256) 256 ltac:(lia)).
  assert (0 <= v / 256 / 256 / 256 < 256).
  { rewrite <- E3. split; [apply Z.div_pos; lia | apply Z.div_lt_upper_bound; lia]. }
  rewrite (Z.mod_small (v / 256 / 256 / 256)) by lia.
  lia.
Qed.

Lemma le32_inj (v w : Z) : uint32 v -> uint32 w -> Buf.le32 v = Buf.le32 w -> v = w.
Proof.
  intros Hv Hw E. pose proof (le32_value v Hv) as A. pose proof (le32_value w Hw) as B.
  rewrite E in A. destruct (Buf.le32 w) as [|? [|? [|? [|? [|]]]]]; try contradiction.
  congruence.
Qed.

Lemma writeUInt32LE_ok (buf : Buffer) (v off : Z) :
  uint32 v -> 0 <= off <= Z.of_nat (length buf) - 4 ->
  Buf.writeUInt32LE buf v off
  = inr (take (Z.to_nat off) buf ++ Buf.le32 v ++ drop (Z.to_nat off + 4) buf).
Proof.
  unfold uint32, Buf.writeUInt32LE. intros Hv Ho.
  destruct (v <? 0) eqn:E1; [lia|]. destruct (4294967295 <? v) eqn:E2; [lia|].
  destruct (off <? 0) eqn:E3; [lia|].
  destruct (Z.of_nat (length buf) - 4 <? off) eqn:E4; [lia|]. reflexivity.
Qed.

Lemma writeUInt32LE_range (buf : Buffer) (v off : Z) :
  ~ uint32 v -> Buf.writeUInt32LE buf v off = inl RangeError.
Proof.
  unfold uint32, Buf.writeUInt32LE. intros Hv.
  destruct (v <? 0) eqn:E1; [reflexivity|].
  destruct (4294967295 <? v) eqn:E2; [reflexivity|]. lia.
Qed.

(** ** Key derivation *)

Lemma generateKey_ok (nm : string) (l j : Z) :
  uint32 l -> uint32 j ->
  generateKey nm l j
  = inr (hash (concat [Buf.from nm; Buf.le32 l ++ Buf.le32 j])).
Proof.
  intros Hl Hj. unfold generateKey.
  rewrite writeUInt32LE_ok by (auto; simpl; lia).
  rewrite writeUInt32LE_ok by (auto; simpl; lia).
  reflexivity.
Qed.

Lemma generateKey_range (nm : string) (l j : Z) :
  ~ (uint32 l /\ uint32 j) -> generateKey nm l j = inl RangeError.
Proof.
  intros Hn. unfold generateKey.
  destruct (Buf.writeUInt32LE (Buf.alloc 8) l 0) as [e|b] eqn:E1.
  - unfold Buf.writeUInt32LE in E1.
    destruct ((l <? 0) || (4294967295 <? l)); [congruence|].
    destruct ((0 <? 0) || (Z.of_nat (length (Buf.alloc 8)) - 4 <? 0)); congruence.
  - assert (Hl : uint32 l).
    { unfold uint32. unfold Buf.writeUInt32LE in E1.
      destruct (l <? 0) eqn:A; [discriminate|].
      destruct (4294967295 <? l) eqn:B; [discriminate|]. lia. }
    rewrite writeUInt32LE_range; [reflexivity|tauto].
Qed.

Lemma uint32_dec (z : Z) : {uint32 z} + {~ uint32 z}.
Proof.
  unfold uint32. destruct (Z_le_dec 0 z), (Z_le_dec z 4294967295);
    (left; lia) || (right; lia).
Defined.

Lemma generateKey_inr (nm : string) (l j : Z) (key : Buffer) :
  generateKey nm l j = inr key -> uint32 l /\ uint32 j.
Proof.
  intros Hk. destruct (uint32_dec l) as [Hl|Hl], (uint32_dec j) as [Hj|Hj];
    try (split; assumption);
    rewrite generateKey_range in Hk by tauto; discriminate.
Qed.

(** ** The digest has 32 bytes *)

Lemma hash_length (x : Buffer) : length (hash x) = 32%nat.
Proof. reflexivity. Qed.

Lemma compress_length (a b : Buffer) : length (compress a b) = 32%nat.
Proof. reflexivity. Qed.

#[global] Opaque hash compress.

(** ** The empty-subtree cache *)

Lemma table_S (n : nat) : table (S n) = table n ++ [emptyHash_rec n].
Proof. unfold table. rewrite seq_S, map_app. reflexivity. Qed.

Lemma table_length (n : nat) : length (table n) = n.
Proof. unfold table. rewrite length_map, length_seq. reflexivity. Qed.

Lemma table_lookup (n i : nat) : (i < n)%nat -> table n !! i = Some (emptyHash_rec i).
Proof.
  intros Hi. unfold table. rewrite list_lookup_fmap.
  rewrite lookup_seq_lt by lia. reflexivity.
Qed.

Lemma table_last (n : nat) : last (table (S n)) = Some (emptyHash_rec n).
Proof. rewrite table_S. apply last_snoc. Qed.

Lemma new_Sha256Hasher_ok : cache_ok new_Sha256Hasher.
Proof. exists 0%nat. reflexivity. Qed.

Lemma emptyHash_loop_ok (fuel : nat) :
  forall (d : Z) (n : nat),
    d + 1 - Z.of_nat n <= Z.of_nat fuel ->
    exists m, (n <= m)%nat /\ d < Z.of_nat (S m)
              /\ emptyHash_loop fuel d (table (S n)) = inr (table (S m)).
Proof.
  induction fuel as [|fuel IH]; intros d n Hf; cbn [emptyHash_loop];
    rewrite table_length.
  - destruct (Z.leb_spec (Z.of_nat (S n) - 1) d); [lia|].
    exists n. split; [lia|]. split; [lia|reflexivity].
  - destruct (Z.leb_spec (Z.of_nat (S n) - 1) d).
    + rewrite table_last.
      change (compress (emptyHash_rec n) (emptyHash_rec n)) with (emptyHash_rec (S n)).
      rewrite <- table_S.
      destruct (IH d (S n)) as (m & Hm & Hd & Hr); [lia|].
      exists m. split; [lia|]. split; [lia|exact Hr].
    + exists n. split; [lia|]. split; [lia|reflexivity].
Qed.

(** On a sound cache [emptyHash(depth)] returns the value of the recurrence
    and leaves a sound cache. *)
Lemma emptyHash_ok (d : Z) (h : Sha256Hasher) :
  cache_ok h -> 0 <= d ->
  exists h', cache_ok h'
             /\ emptyHash d h = (inr (Some (emptyHash_rec (Z.to_nat d))), h').
Proof.
  intros [n Hn] Hd. unfold emptyHash. rewrite Hn.
  destruct (emptyHash_loop_ok (Z.to_nat (d + 2)) d n) as (m & Hm & Hdm & Hr); [lia|].
  rewrite Hr. destruct (Z.ltb_spec d 0); [lia|].
  rewrite table_lookup by lia.
  eexists. split; [|reflexivity]. exists m. reflexivity.
Qed.

(** ** The constructor and the metadata record *)

Lemma constructor_bad_depth (nm : string) (D : Z) (r : option Buffer) :
  ~ (1 <= D <= 32) -> constructor nm D r = inl BadDepth.
Proof.
  intros HD. unfold constructor, MAX_DEPTH.
  destruct (Z.leb_spec 1 D), (Z.leb_spec D 32); simpl; try reflexivity. lia.
Qed.

Lemma constructor_loaded (nm : string) (D : Z) (r : Buffer) :
  1 <= D <= 32 ->
  constructor nm D (Some r)
  = inr {| name := nm; depth := D; root := r; hasher := new_Sha256Hasher |}.
Proof.
  intros HD. unfold constructor, MAX_DEPTH.
  destruct (Z.leb_spec 1 D), (Z.leb_spec D 32); simpl; try reflexivity; lia.
Qed.

Lemma constructor_fresh (nm : string) (D : Z) :
  1 <= D <= 32 ->
  exists h, cache_ok h
            /\ constructor nm D None
               = inr {| name := nm; depth := D;
                        root := emptyHash_rec (Z.to_nat D); hasher := h |}.
Proof.
  intros HD. unfold constructor, MAX_DEPTH.
  destruct (Z.leb_spec 1 D), (Z.leb_spec D 32); try lia. cbn [andb negb].
  destruct (emptyHash_ok D new_Sha256Hasher new_Sha256Hasher_ok) as (h & Hh & E); [lia|].
  rewrite E. cbn [defined]. exists h. split; [exact Hh|reflexivity].
Qed.

Lemma copy_length (src target : Buffer) :
  length (Buf.copy src target) = length target.
Proof.
  unfold Buf.copy. rewrite length_app, length_take, length_drop. lia.
Qed.

Section MethodFacts.

Context {DB : Type} `{LevelUp DB}.

Lemma writeMetaData_eq (st : State DB) :
  uint32 (depth (this st)) ->
  writeMetaData st
  = store_put (name (this st)) (metaRecord (root (this st)) (depth (this st))) st.
Proof.
  intros HD. unfold writeMetaData, bind, this_root, this_depth, this_name, lift.
  rewrite writeUInt32LE_ok; [reflexivity|exact HD|].
  rewrite copy_length. simpl. lia.
Qed.

Lemma metaRecord_32 (r : Buffer) (D : Z) :
  length r = 32%nat -> metaRecord r D = r ++ Buf.le32 D ++ Buf.alloc 4.
Proof.
  intros Hr. unfold metaRecord, Buf.copy. rewrite Hr.
  change (length (Buf.alloc 40)) with 40%nat.
  rewrite (take_ge r) by lia.
  rewrite take_app_length' by (symmetry; exact Hr).
  simpl. rewrite drop_app_ge by lia. rewrite Hr. reflexivity.
Qed.

End MethodFacts.

(** ** Opening a tree *)

Section Open.

Context {DB : Type} `{LevelUp DB}.

Lemma meta_key (nm : string) : string_of_list_byte (Buf.from nm) = nm.
Proof. unfold Buf.from. apply string_of_list_byte_of_string. Qed.

(** [new] on a store without metadata: the fresh tree, once its record is
    written. *)
Lemma new_fresh (d d' : DB) (l : list Access) (nm : string) (D : Z) (e : StoreError) :
  1 <= D <= 32 ->
  db_get d nm = inl e ->
  db_put d nm (metaRecord (emptyHash_rec (Z.to_nat D)) D) = inr d' ->
  exists h, cache_ok h
    /\ new d l nm D
       = (inr {| name := nm; depth := D; root := emptyHash_rec (Z.to_nat D); hasher := h |},
          (d', (l ++ [Get nm]) ++ [Put nm (metaRecord (emptyHash_rec (Z.to_nat D)) D)])).
Proof.
  intros HD Hget Hput. unfold new. rewrite meta_key, Hget.
  destruct (constructor_fresh nm D HD) as (h & Hh & ->).
  exists h. split; [exact Hh|].
  rewrite writeMetaData_eq by (unfold uint32; cbn; lia).
  unfold store_put. cbn [this db log name depth root]. rewrite Hput. reflexivity.
Qed.

(** [new] on a store holding a metadata record. *)
Lemma new_loaded (d : DB) (l : list Access) (nm : string) (D D' : Z) (meta : Buffer) :
  db_get d nm = inr meta ->
  Buf.readUInt32LE meta 32 = inr D' ->
  1 <= D' <= 32 ->
  new d l nm D
  = (inr {| name := nm; depth := D'; root := Buf.slice0 meta 32;
            hasher := new_Sha256Hasher |}, (d, l ++ [Get nm])).
Proof.
  intros Hget Hrd HD. unfold new. rewrite meta_key, Hget, Hrd.
  rewrite constructor_loaded by exact HD. reflexivity.
Qed.

End Open.

(** C3. A freshly created tree of depth [D] in [1,32] (no metadata under its
    name yet) has [getRoot()] equal to [emptyHash(D)], where [emptyHash(0)]
    is the hash of 64 zero bytes and [emptyHash(d+1)] compresses
    [emptyHash(d)] with itself. *)
Theorem fresh_tree_root {DB : Type} `{LevelUp DB} `{!Reliable DB}
    (d : DB) (l : list Access) (nm : string) (D : Z) (e : StoreError) :
  1 <= D <= 32 ->
  db_get d nm = inl e ->
  exists t d' l',
    new d l nm D = (inr t, (d', l'))
    /\ depth t = D
    /\ fst (getRoot {| this := t; db := d'; log := l' |})
       = inr (emptyHash_rec (Z.to_nat D))
    /\ emptyHash_rec 0 = hash (Buf.alloc 64)
    /\ (forall k, emptyHash_rec (S k) = compress (emptyHash_rec k) (emptyHash_rec k)).
Proof.
  intros HD Hget.
  destruct (put_total d nm (metaRecord (emptyHash_rec (Z.to_nat D)) D)) as [d' Hput].
  destruct (new_fresh d d' l nm D e HD Hget Hput) as (h & _ & E).
  eexists _, d', _. split; [exact E|].
  repeat split.
Qed.

Lemma fresh_tree_root_witness :
  exists t d' l',
    new (∅ : gmap string Buffer) [] "t" 2 = (inr t, (d', l'))
    /\ depth t = 2
    /\ fst (getRoot {| this := t; db := d'; log := l' |})
       = inr (emptyHash_rec (Z.to_nat 2))
    /\ emptyHash_rec 0 = hash (Buf.alloc 64)
    /\ (forall k, emptyHash_rec (S k) = compress (emptyHash_rec k) (emptyHash_rec k)).
Proof.
  apply (fresh_tree_root (∅ : gmap string Buffer) [] "t" 2 NotFoundError).
  - lia.
  - reflexivity.
Defined.

(** C4, as the code has it.  For a requested depth outside [1,32]: the
    constructor fails with 'Bad depth' (it touches no store); [new] first
    fetches the metadata under the name, and only when that fetch fails does
    it fail with 'Bad depth', after this one get and without any put; when a
    record is found the requested depth is ignored and the tree is opened
    with the persisted depth. *)
Theorem new_bad_depth {DB : Type} `{LevelUp DB}
    (d : DB) (l : list Access) (nm : string) (D : Z) :
  ~ (1 <= D <= 32) ->
  (forall r, constructor nm D r = inl BadDepth)
  /\ (forall e, db_get d nm = inl e ->
                new d l nm D = (inl BadDepth, (d, l ++ [Get nm])))
  /\ (forall meta D', db_get d nm = inr meta ->
                      Buf.readUInt32LE meta 32 = inr D' -> 1 <= D' <= 32 ->
                      exists t, new d l nm D = (inr t, (d, l ++ [Get nm]))
                                /\ depth t = D' /\ root t = Buf.slice0 meta 32).
Proof.
  intros HD. split; [|split].
  - intros r. apply constructor_bad_depth, HD.
  - intros e Hget. unfold new. rewrite meta_key, Hget.
    rewrite constructor_bad_depth by exact HD. reflexivity.
  - intros meta D' Hget Hrd HD'.
    eexists. split; [apply (new_loaded d l nm D D' meta Hget Hrd HD')|].
    split; reflexivity.
Qed.

Lemma new_bad_depth_witness :
  (forall r, constructor "t" 0 r = inl BadDepth)
  /\ (forall e, db_get (∅ : gmap string Buffer) "t" = inl e ->
                new (∅ : gmap string Buffer) [] "t" 0
                = (inl BadDepth, (∅, [] ++ [Get "t"])))
  /\ (forall meta D', db_get (∅ : gmap string Buffer) "t" = inr meta ->
                      Buf.readUInt32LE meta 32 = inr D' -> 1 <= D' <= 32 ->
                      exists t, new (∅ : gmap string Buffer) [] "t" 0
                                = (inr t, (∅, [] ++ [Get "t"]))
                                /\ depth t = D' /\ root t = Buf.slice0 meta 32).
Proof.
  apply (new_bad_depth (∅ : gmap string Buffer) [] "t" 0). lia.
Defined.

(** C4 as stated fails.  On the empty in-memory store, [new(db, "t", 0)]
    fails with 'Bad depth' only after a get of the metadata key; and on a
    store that holds the record of a depth-1 tree, [new(db, "t", 33)] does
    not fail at all. *)
Lemma new_bad_depth_counterexample :
  (fst (new (∅ : gmap string Buffer) [] "t" 0) = inl BadDepth
   /\ snd (snd (new (∅ : gmap string Buffer) [] "t" 0)) = [Get "t"])
  /\ (exists t,
        fst (new ({["t" := metaRecord (emptyHash_rec 1) 1]} : gmap string Buffer) [] "t" 33)
        = inr t /\ depth t = 1).
Proof.
  split.
  - split; reflexivity.
  - eexists. split; vm_compute; reflexivity.
Qed.

(** ** Reading nodes *)

Section Reads.

Context {DB : Type} `{LevelUp DB}.

Lemma read_only_refl (st : State DB) : read_only st st.
Proof.
  unfold read_only. repeat split. exists []. rewrite app_nil_r. split; reflexivity.
Qed.

Lemma read_only_trans (st1 st2 st3 : State DB) :
  read_only st1 st2 -> read_only st2 st3 -> read_only st1 st3.
Proof.
  intros (A1 & A2 & A3 & A4 & g1 & A5 & A6) (B1 & B2 & B3 & B4 & g2 & B5 & B6).
  unfold read_only. repeat split; try congruence.
  exists (g1 ++ g2). split.
  - rewrite B5, A5, app_assoc. reflexivity.
  - rewrite forallb_app, A6, B6. reflexivity.
Qed.

Lemma read_only_bind {A B : Type} (c : M DB A) (k : A -> M DB B) :
  (forall st, read_only st (snd (c st))) ->
  (forall a st, read_only st (snd (k a st))) ->
  forall st, read_only st (snd (bind c k st)).
Proof.
  intros Hc Hk st. unfold bind. specialize (Hc st).
  destruct (c st) as [[e|a] st']; cbn [snd] in *; [exact Hc|].
  eapply read_only_trans; [exact Hc|apply Hk].
Qed.

Lemma read_only_pure {A : Type} (r : Result A) (st : State DB) :
  read_only st (snd (lift r st)).
Proof. apply read_only_refl. Qed.

Lemma read_only_store_get (key : string) (st : State DB) :
  read_only st (snd (store_get key st)).
Proof.
  unfold read_only, store_get. cbn. repeat split. exists [Get key]. split; reflexivity.
Qed.

Lemma read_only_emptyHash (l : Z) (st : State DB) :
  read_only st (snd (this_emptyHash l st)).
Proof.
  unfold this_emptyHash. destruct (emptyHash l (hasher (this st))) as [r h].
  unfold read_only. cbn. repeat split. exists []. rewrite app_nil_r. split; reflexivity.
Qed.

Lemma read_only_readNode (l j : Z) (st : State DB) :
  read_only st (snd (readNode l j st)).
Proof.
  revert st. unfold readNode.
  apply read_only_bind; [intro; apply read_only_refl|]. intros nm.
  apply read_only_bind; [intro; apply read_only_pure|]. intros key.
  apply read_only_bind; [intro; apply read_only_store_get|]. intros [e|v] st.
  - apply read_only_emptyHash.
  - apply read_only_refl.
Qed.

Lemma read_only_getHashPath_loop (fuel : nat) :
  forall (l j : Z) (acc : list (Buffer * Buffer)) (st : State DB),
    read_only st (snd (getHashPath_loop fuel l j acc st)).
Proof.
  induction fuel as [|fuel IH]; intros l j acc; cbn [getHashPath_loop];
    (apply read_only_bind; [intro; apply read_only_refl|]); intros D st;
    destruct (l <? D); try apply read_only_refl.
  revert st.
  apply read_only_bind; [intro; apply read_only_readNode|]. intros s.
  apply read_only_bind; [intro; apply read_only_readNode|]. intros n st.
  apply IH.
Qed.

Lemma read_only_getHashPath (j : Z) (st : State DB) :
  read_only st (snd (getHashPath j st)).
Proof.
  revert st. unfold getHashPath.
  apply read_only_bind; [intro; apply read_only_refl|]. intros D.
  apply read_only_bind; [intro; apply read_only_getHashPath_loop|]. intros p st.
  apply read_only_refl.
Qed.

(** [readNode] outside the range of [writeUInt32LE]: the key derivation
    raises before any fetch. *)
Lemma readNode_range (l j : Z) (st : State DB) :
  ~ (uint32 l /\ uint32 j) -> readNode l j st = (inl RangeError, st).
Proof.
  intros Hr. unfold readNode, bind, this_name, lift.
  rewrite generateKey_range by exact Hr. reflexivity.
Qed.

(** [readNode] in range: the value of the node; the store and the root
    stay, the object stays well formed. *)
Lemma readNode_spec (nm : string) (D l j : Z) (st : State DB) :
  wf nm D st -> uint32 l -> uint32 j ->
  exists st', readNode l j st = (inr (node nm (db st) l j), st')
              /\ wf nm D st' /\ db st' = db st /\ root (this st') = root (this st).
Proof.
  intros (Hn & HD & Hc) Hl Hj. unfold readNode, bind, this_name, lift.
  rewrite generateKey_ok by assumption. rewrite Hn.
  fold (storeKey nm l j). unfold store_get, node. cbn [db this log].
  destruct (db_get (db st) (storeKey nm l j)) as [e|v].
  - unfold this_emptyHash. cbn [this db log].
    destruct (emptyHash_ok l (hasher (this st)) Hc) as (h' & Hh' & E);
      [unfold uint32 in Hl; lia|].
    rewrite E. cbn [defined]. eexists. split; [reflexivity|].
    unfold wf. cbn. auto.
  - unfold ret. eexists. split; [reflexivity|]. unfold wf. cbn. auto.
Qed.

End Reads.

(** C10. [getRoot()], [readNode(level, index)] and [getHashPath(index)]
    leave the root field and the contents of the store as they were: the
    only store accesses they add to the log are gets (no put, hence no
    metadata write).  This holds in every state and for every level and
    index, whether the call returns or throws. *)
Theorem reads_change_nothing {DB : Type} `{LevelUp DB}
    (st : State DB) (level index : Z) :
  read_only st (snd (getRoot st))
  /\ read_only st (snd (readNode level index st))
  /\ read_only st (snd (getHashPath index st)).
Proof.
  split; [apply read_only_refl|].
  split; [apply read_only_readNode|apply read_only_getHashPath].
Qed.

(** C8. For every level and index, whenever [readNode(level, index)] gets
    to fetch (the key was derived): it returns the stored value when the
    fetch succeeds, and [emptyHash(level)] when the fetch fails, whatever
    the failure (not found or any other store error); the failure is never
    passed on to the caller.  The key is derived for every level and index
    in the range of the key encoding (unsigned 32 bits). *)
Theorem readNode_fetch {DB : Type} `{LevelUp DB}
    (st : State DB) (level index : Z) :
  cache_ok (hasher (this st)) ->
  (forall key v, generateKey (name (this st)) level index = inr key ->
                 db_get (db st) (UTF8.toString key) = inr v ->
                 fst (readNode level index st) = inr v)
  /\ (forall key e, generateKey (name (this st)) level index = inr key ->
                    db_get (db st) (UTF8.toString key) = inl e ->
                    fst (readNode level index st)
                    = inr (emptyHash_rec (Z.to_nat level)))
  /\ (uint32 level -> uint32 index ->
      exists key, generateKey (name (this st)) level index = inr key).
Proof.
  intros Hc.
  assert (Hin : forall key, generateKey (name (this st)) level index = inr key ->
                            uint32 level /\ uint32 index).
  { intros key Hk. apply (generateKey_inr (name (this st)) level index key Hk). }
  assert (Hspec : forall key, generateKey (name (this st)) level index = inr key ->
            fst (readNode level index st)
            = inr (match db_get (db st) (UTF8.toString key) with
                   | inr v => v
                   | inl _ => emptyHash_rec (Z.to_nat level)
                   end)).
  { intros key Hk. destruct (Hin key Hk) as [Hl Hj].
    destruct (readNode_spec (name (this st)) (depth (this st)) level index st)
      as (st' & E & _); [unfold wf; auto|assumption..|].
    rewrite E. cbn [fst]. unfold node, storeKey.
    rewrite generateKey_ok in Hk by assumption. injection Hk as <-. reflexivity. }
  split; [|split].
  - intros key v Hk Hv. rewrite (Hspec key Hk), Hv. reflexivity.
  - intros key e Hk He. rewrite (Hspec key Hk), He. reflexivity.
  - intros Hl Hj. eexists. apply generateKey_ok; assumption.
Qed.

(** ** Updating *)

Section Steps.

Context {DB : Type} `{LevelUp DB}.

(** A relation between the state before and after that holds step by step
    holds along a [bind]. *)
Lemma step_bind (R : State DB -> State DB -> Prop) {A B : Type}
    (c : M DB A) (k : A -> M DB B) :
  (forall s1 s2 s3, R s1 s2 -> R s2 s3 -> R s1 s3) ->
  (forall st, R st (snd (c st))) ->
  (forall a st, R st (snd (k a st))) ->
  forall st, R st (snd (bind c k st)).
Proof.
  intros Htrans Hc Hk st. unfold bind. specialize (Hc st).
  destruct (c st) as [[e|a] st']; cbn [snd] in *; [exact Hc|].
  eapply Htrans; [exact Hc|apply Hk].
Qed.

Lemma keeps_id_refl (st : State DB) : keeps_id st st.
Proof. split; reflexivity. Qed.

Lemma keeps_id_trans (s1 s2 s3 : State DB) :
  keeps_id s1 s2 -> keeps_id s2 s3 -> keeps_id s1 s3.
Proof. unfold keeps_id. intros [] []. split; congruence. Qed.

Lemma read_only_keeps_id (st st' : State DB) : read_only st st' -> keeps_id st st'.
Proof. intros (A & B & _). split; assumption. Qed.

Lemma keeps_id_store_put (key : string) (v : Buffer) (st : State DB) :
  keeps_id st (snd (store_put key v st)).
Proof.
  unfold store_put. destruct (db_put (db st) key v); split; reflexivity.
Qed.

Lemma keeps_id_writeNode (l j : Z) (v : Buffer) (st : State DB) :
  keeps_id st (snd (writeNode l j v st)).
Proof.
  unfold writeNode. destruct (LEAF_BYTES <? Z.of_nat (length v)).
  - apply keeps_id_refl.
  - revert st.
    apply (step_bind keeps_id); [apply keeps_id_trans|intro; apply keeps_id_refl|].
    intros nm.
    apply (step_bind keeps_id); [apply keeps_id_trans|intro; apply keeps_id_refl|].
    intros key st. apply keeps_id_store_put.
Qed.

Lemma keeps_id_writeMetaData (st : State DB) : keeps_id st (snd (writeMetaData st)).
Proof.
  revert st. unfold writeMetaData.
  apply (step_bind keeps_id); [apply keeps_id_trans|intro; apply keeps_id_refl|].
  intros r.
  apply (step_bind keeps_id); [apply keeps_id_trans|intro; apply keeps_id_refl|].
  intros D.
  apply (step_bind keeps_id); [apply keeps_id_trans|intro; apply keeps_id_refl|].
  intros nm.
  apply (step_bind keeps_id); [apply keeps_id_trans|intro; apply keeps_id_refl|].
  intros data st. apply keeps_id_store_put.
Qed.

Lemma keeps_id_updateElement_loop (fuel : nat) :
  forall (l j : Z) (h : Buffer) (st : State DB),
    keeps_id st (snd (updateElement_loop fuel l j h st)).
Proof.
  induction fuel as [|fuel IH]; intros l j h; cbn [updateElement_loop];
    (apply (step_bind keeps_id); [apply keeps_id_trans|intro; apply keeps_id_refl|]);
    intros D st; destruct (l <=? D); try apply keeps_id_refl.
  revert st.
  apply (step_bind keeps_id);
    [apply keeps_id_trans|intro; apply read_only_keeps_id, read_only_readNode|].
  intros s.
  apply (step_bind keeps_id); [apply keeps_id_trans|intro; apply keeps_id_writeNode|].
  intros _ st. apply IH.
Qed.

(** The loop of [updateElement] hands on a digest. *)
Lemma updateElement_loop_length (fuel : nat) :
  forall (l j : Z) (h x : Buffer) (st st' : State DB),
    length h = 32%nat ->
    updateElement_loop fuel l j h st = (inr x, st') ->
    length x = 32%nat.
Proof.
  induction fuel as [|fuel IH]; intros l j h x st st' Hh; cbn [updateElement_loop];
    unfold bind at 1; unfold this_depth at 1; cbn [fst snd];
    destruct (l <=? depth (this st)); unfold ret, throw;
    try (intros E; congruence).
  unfold bind at 1. destruct (readNode (l - 1) (JS.xor j 1) st) as [[e|s] st1];
    [discriminate|].
  unfold bind at 1.
  destruct (writeNode l (JS.sar j 1) _ st1) as [[e|[]] st2]; [discriminate|].
  apply IH. destruct (JS.not (JS.and j 1)); apply compress_length.
Qed.

(** A successful [updateElement]: the new root is a digest, it is the root
    field, and the last store access wrote the metadata record. *)
Lemma updateElement_success (st st' : State DB) (i : Z) (v r : Buffer) :
  uint32 (depth (this st)) ->
  updateElement i v st = (inr r, st') ->
  keeps_id st st' /\ root (this st') = r /\ length r = 32%nat
  /\ exists d1, db_put d1 (name (this st)) (metaRecord r (depth (this st)))
                = inr (db st').
Proof.
  intros HD. unfold updateElement. unfold bind at 1.
  pose proof (keeps_id_writeNode 0 i (hash v) st) as K1.
  destruct (writeNode 0 i (hash v) st) as [[e|[]] st1]; [discriminate|].
  cbn [snd] in K1. unfold bind at 1. unfold this_depth at 1. cbn [fst snd].
  unfold bind at 1.
  pose proof (keeps_id_updateElement_loop (Z.to_nat (depth (this st1))) 1 i (hash v) st1) as K2.
  destruct (updateElement_loop _ 1 i (hash v) st1) as [[e|h] st2] eqn:EL;
    [discriminate|].
  cbn [snd] in K2.
  pose proof (updateElement_loop_length _ _ _ _ _ _ _ (hash_length v) EL) as L.
  unfold bind at 1. unfold set_root at 1. cbn [fst snd].
  pose proof (keeps_id_trans _ _ _ K1 K2) as [Kn Kd].
  unfold bind at 1. rewrite writeMetaData_eq by (cbn; rewrite Kd; exact HD).
  unfold store_put. cbn [this db log with_root name depth root].
  rewrite Kn, Kd.
  destruct (db_put (db st2) (name (this st)) (metaRecord h (depth (this st))))
    as [e|d'] eqn:Hput; [discriminate|].
  unfold this_root. cbn. intros E. injection E as <- <-. cbn.
  split; [split; assumption|]. split; [reflexivity|]. split; [exact L|].
  exists (db st2). exact Hput.
Qed.

End Steps.

(** ** Persistence *)

Lemma readUInt32LE_le32 (a b : Buffer) (v : Z) :
  uint32 v ->
  Buf.readUInt32LE (a ++ Buf.le32 v ++ b) (Z.of_nat (length a)) = inr v.
Proof.
  intros Hv. unfold Buf.readUInt32LE.
  rewrite !length_app. change (length (Buf.le32 v)) with 4%nat.
  destruct (Z.ltb_spec (Z.of_nat (length a)) 0); [lia|].
  destruct (Z.ltb_spec (Z.of_nat (length a + (4 + length b)) - 4) (Z.of_nat (length a)));
    [lia|]. cbn [orb].
  rewrite Nat2Z.id, drop_app_length.
  pose proof (le32_value v Hv) as E. unfold Buf.le32 in *. cbn [app take].
  rewrite E. reflexivity.
Qed.

(** C9. After a successful [updateElement], opening the tree again by its
    name on the same store, with any requested depth, gives a tree with the
    same root and depth; the store holds under the name the 40-byte record
    made of the 32-byte root, the depth on 4 bytes little-endian, and 4 zero
    bytes. *)
Theorem reopen_after_update {DB : Type} `{LevelUp DB} `{!LevelUpLaws DB}
    (st st' : State DB) (i : Z) (v r : Buffer) (D : Z) (l : list Access) :
  1 <= depth (this st) <= 32 ->
  updateElement i v st = (inr r, st') ->
  exists t,
    new (db st') l (name (this st')) D
    = (inr t, (db st', l ++ [Get (name (this st'))]))
    /\ fst (getRoot {| this := t; db := db st'; log := l ++ [Get (name (this st'))] |})
       = fst (getRoot st')
    /\ root t = r
    /\ depth t = depth (this st')
    /\ db_get (db st') (name (this st'))
       = inr (r ++ Buf.le32 (depth (this st')) ++ Buf.alloc 4)
    /\ length (r ++ Buf.le32 (depth (this st')) ++ Buf.alloc 4) = 40%nat.
Proof.
  intros HD E.
  destruct (updateElement_success st st' i v r) as ([Kn Kd] & Hr & Hlen & d1 & Hput);
    [unfold uint32; lia|exact E|].
  rewrite Kn, Kd.
  pose proof (get_put_eq _ _ _ _ Hput) as Hget.
  rewrite metaRecord_32 in Hget by exact Hlen.
  assert (Hrd : Buf.readUInt32LE (r ++ Buf.le32 (depth (this st)) ++ Buf.alloc 4) 32
                = inr (depth (this st))).
  { change 32 with (Z.of_nat 32). rewrite <- Hlen.
    apply readUInt32LE_le32. unfold uint32. lia. }
  eexists. split; [apply (new_loaded _ l _ D _ _ Hget Hrd HD)|].
  unfold getRoot, this_root. cbn [fst this root depth].
  assert (Hs : Buf.slice0 (r ++ Buf.le32 (depth (this st)) ++ Buf.alloc 4) 32 = r).
  { unfold Buf.slice0. rewrite <- Hlen. apply take_app_length. }
  rewrite Hs, Hr. repeat split; try assumption.
  rewrite !length_app, Hlen. reflexivity.
Qed.

Lemma run_eq {A S : Type} (x : A * S) (a : A) : fst x = a -> x = (a, snd x).
Proof. destruct x. cbn. intros ->. reflexivity. Defined.

Lemma new_t2 :
  new (∅ : gmap string Buffer) [] "t" 2
  = (inr (this fresh_t2), (db fresh_t2, log fresh_t2)).
Proof. vm_compute. reflexivity. Qed.

Lemma reopen_after_update_witness :
  exists t,
    new (db state_t2) [] (name (this state_t2)) 7
    = (inr t, (db state_t2, [] ++ [Get (name (this state_t2))]))
    /\ fst (getRoot {| this := t; db := db state_t2;
                       log := [] ++ [Get (name (this state_t2))] |})
       = fst (getRoot state_t2)
    /\ root t = root (this state_t2)
    /\ depth t = depth (this state_t2)
    /\ db_get (db state_t2) (name (this state_t2))
       = inr (root (this state_t2) ++ Buf.le32 (depth (this state_t2)) ++ Buf.alloc 4)
    /\ length (root (this state_t2) ++ Buf.le32 (depth (this state_t2)) ++ Buf.alloc 4)
       = 40%nat.
Proof.
  apply (reopen_after_update fresh_t2 state_t2 0 (list_byte_of_string "a")
           (root (this state_t2)) 7 []).
  - cbn. lia.
  - unfold state_t2.
    apply (run_eq (updateElement 0 (list_byte_of_string "a") fresh_t2)).
    vm_compute. reflexivity.
Defined.

(** ** The bitwise operators on indices *)

Lemma ToInt32_small (j : Z) : - 2 ^ 31 <= j < 2 ^ 31 -> JS.ToInt32 j = j.
Proof. intros Hj. unfold JS.ToInt32. rewrite Z.mod_small; lia. Qed.

Lemma ToInt32_high (j : Z) : 2 ^ 31 <= j < 2 ^ 32 -> JS.ToInt32 j = j - 2 ^ 32.
Proof.
  intros Hj. unfold JS.ToInt32.
  replace (j + 2 ^ 31) with (j - 2 ^ 31 + 1 * 2 ^ 32) by lia.
  rewrite Z.mod_add by lia. rewrite Z.mod_small; lia.
Qed.

Lemma lxor_1 (j : Z) : 0 <= j -> Z.lxor j 1 = if Z.even j then j + 1 else j - 1.
Proof.
  intros Hj. destruct j as [|[p|p|]|]; cbn; try reflexivity; lia.
Qed.

Lemma land_1 (j : Z) : 0 <= j -> Z.land j 1 = if Z.even j then 0 else 1.
Proof.
  intros Hj. destruct j as [|[p|p|]|]; cbn; try reflexivity; lia.
Qed.

(** Below 2^31 the operators are the arithmetic ones. *)
Lemma xor_small (j : Z) :
  0 <= j < 2 ^ 31 -> JS.xor j 1 = if Z.even j then j + 1 else j - 1.
Proof.
  intros Hj. unfold JS.xor. rewrite !ToInt32_small by lia. apply lxor_1. lia.
Qed.

Lemma and_small (j : Z) : 0 <= j < 2 ^ 31 -> JS.not (JS.and j 1) = Z.even j.
Proof.
  intros Hj. unfold JS.not, JS.and. rewrite !ToInt32_small by lia.
  rewrite land_1 by lia. destruct (Z.even j); reflexivity.
Qed.

Lemma sar_small (j : Z) : 0 <= j < 2 ^ 31 -> JS.sar j 1 = j / 2.
Proof.
  intros Hj. unfold JS.sar. rewrite ToInt32_small by lia.
  change (1 mod 32) with 1. rewrite Z.shiftr_div_pow2 by lia. reflexivity.
Qed.

(** From 2^31 on, [index ^ 1] is negative. *)
Lemma xor_high (j : Z) : 2 ^ 31 <= j < 2 ^ 32 -> JS.xor j 1 < 0.
Proof.
  intros Hj. unfold JS.xor. rewrite ToInt32_high by lia.
  rewrite (ToInt32_small 1) by lia.
  destruct (Z_lt_dec (Z.lxor (j - 2 ^ 32) 1) 0) as [|Hn]; [assumption|].
  assert (Hp : 0 <= Z.lxor (j - 2 ^ 32) 1) by lia.
  apply Z.lxor_nonneg in Hp. lia.
Qed.

Lemma xor_small_range (j : Z) : 0 <= j < 2 ^ 31 -> 0 <= JS.xor j 1 < 2 ^ 31.
Proof.
  intros Hj. rewrite xor_small by lia.
  destruct (Z.even j) eqn:E.
  - apply Z.even_spec in E. destruct E as [k ->]. lia.
  - assert (Ho : Z.odd j = true) by (rewrite <- Z.negb_even, E; reflexivity).
    apply Z.odd_spec in Ho. destruct Ho as [k ->]. lia.
Qed.

(** ** Indices from 2^31 on *)

Section High.

Context {DB : Type} `{LevelUp DB}.

Lemma getHashPath_high (st : State DB) (i : Z) :
  1 <= depth (this st) -> 2 ^ 31 <= i < 2 ^ 32 ->
  getHashPath i st = (inl RangeError, st).
Proof.
  intros HD Hi. unfold getHashPath. unfold bind at 1. unfold this_depth at 1.
  cbn [fst snd]. unfold bind at 1.
  destruct (Z.to_nat (depth (this st))) as [|fuel] eqn:Ef; [lia|].
  cbn [getHashPath_loop]. unfold bind at 1. unfold this_depth at 1. cbn [fst snd].
  destruct (Z.ltb_spec 0 (depth (this st))); [|lia].
  unfold bind at 1. rewrite readNode_range; [reflexivity|].
  pose proof (xor_high i Hi). unfold uint32. lia.
Qed.

Lemma updateElement_loop_high (fuel : nat) (st : State DB) (i : Z) (h : Buffer) :
  1 <= depth (this st) -> 2 ^ 31 <= i < 2 ^ 32 ->
  exists e, updateElement_loop fuel 1 i h st = (inl e, st).
Proof.
  intros HD Hi. destruct fuel as [|fuel]; cbn [updateElement_loop];
    unfold bind at 1; unfold this_depth at 1; cbn [fst snd];
    (destruct (Z.leb_spec 1 (depth (this st))); [|lia]).
  - exists OutOfFuel. reflexivity.
  - unfold bind at 1. rewrite readNode_range; [exists RangeError; reflexivity|].
    pose proof (xor_high i Hi). unfold uint32. lia.
Qed.

(** [updateElement] at such an index throws, after at most the write of the
    leaf; the root field stays. *)
Lemma updateElement_high (st : State DB) (i : Z) (v : Buffer) :
  1 <= depth (this st) -> 2 ^ 31 <= i < 2 ^ 32 ->
  exists e st', updateElement i v st = (inl e, st') /\ this st' = this st.
Proof.
  intros HD Hi. unfold updateElement. unfold bind at 1.
  assert (Hw : this (snd (writeNode 0 i (hash v) st)) = this st).
  { unfold writeNode. destruct (LEAF_BYTES <? _); [reflexivity|].
    unfold bind, this_name, lift. cbn [fst snd].
    destruct (generateKey _ 0 i); [reflexivity|].
    unfold store_put. destruct (db_put _ _ _); reflexivity. }
  destruct (writeNode 0 i (hash v) st) as [[e|[]] st1]; cbn [snd] in Hw.
  - exists e, st1. split; [reflexivity|exact Hw].
  - unfold bind at 1. unfold this_depth at 1. cbn [fst snd]. unfold bind at 1.
    destruct (updateElement_loop_high (Z.to_nat (depth (this st1))) st1 i (hash v))
      as [e ->]; [rewrite Hw; exact HD|exact Hi|].
    exists e, st1. split; [reflexivity|exact Hw].
Qed.

End High.

(** C6, where the code departs from it.  On a tree of depth 32 every index
    from 2^31 to 2^32 - 1 is in range, yet [getHashPath] returns no pairs
    there: [index ^ 1] is a negative 32-bit integer, and the key derivation
    of the first [readNode] raises a RangeError. *)
Theorem getHashPath_overflow {DB : Type} `{LevelUp DB} (st : State DB) (i : Z) :
  depth (this st) = 32 -> 2 ^ 31 <= i < 2 ^ 32 ->
  0 <= i < 2 ^ depth (this st)
  /\ fst (getHashPath i st) = inl RangeError.
Proof.
  intros HD Hi. split; [rewrite HD; lia|].
  rewrite getHashPath_high by (rewrite ?HD; lia). reflexivity.
Qed.

Lemma getHashPath_overflow_witness :
  0 <= 4294967295 < 2 ^ depth (this state_t32)
  /\ fst (getHashPath 4294967295 state_t32) = inl RangeError.
Proof.
  apply (getHashPath_overflow state_t32 4294967295).
  - reflexivity.
  - lia.
Defined.

(** C1, where the code departs from it.  On a tree of depth 32,
    [updateElement(2^31, v)] throws and leaves the root as it was, and
    [getHashPath(2^31)] then throws a RangeError: there is no path to fold
    up to [getRoot()]. *)
Theorem hashPath_overflow_after_update {DB : Type} `{LevelUp DB}
    (st : State DB) (v : Buffer) :
  depth (this st) = 32 ->
  (exists e, fst (updateElement 2147483648 v st) = inl e)
  /\ fst (getRoot (snd (updateElement 2147483648 v st))) = fst (getRoot st)
  /\ fst (getHashPath 2147483648 (snd (updateElement 2147483648 v st)))
     = inl RangeError.
Proof.
  intros HD.
  destruct (updateElement_high st 2147483648 v) as (e & st' & -> & Ht); [lia|lia|].
  cbn [fst snd]. split; [exists e; reflexivity|].
  split; [unfold getRoot, this_root; cbn [fst]; rewrite Ht; reflexivity|].
  rewrite getHashPath_high; [reflexivity|rewrite Ht; lia|lia].
Qed.

Lemma hashPath_overflow_after_update_witness :
  (exists e, fst (updateElement 2147483648 (list_byte_of_string "a") state_t32) = inl e)
  /\ fst (getRoot (snd (updateElement 2147483648 (list_byte_of_string "a") state_t32)))
     = fst (getRoot state_t32)
  /\ fst (getHashPath 2147483648
            (snd (updateElement 2147483648 (list_byte_of_string "a") state_t32)))
     = inl RangeError.
Proof.
  apply (hashPath_overflow_after_update state_t32 (list_byte_of_string "a")).
  reflexivity.
Defined.

(** ** Success of an update *)

Section Total.

Context {DB : Type} `{LevelUp DB}.

(** The outcomes of [writeNode] on a value of at most 64 bytes and an
    address in range: the put under the node's key, accepted or rejected. *)
Lemma writeNode_spec (nm : string) (D l j : Z) (v : Buffer) (st : State DB) :
  wf nm D st -> uint32 l -> uint32 j -> (length v <= 64)%nat ->
  exists st', this st' = this st
    /\ ((exists e, writeNode l j v st = (inl (Rejected e), st') /\ db st' = db st
                   /\ db_put (db st) (storeKey nm l j) v = inl e)
        \/ (writeNode l j v st = (inr tt, st')
            /\ db_put (db st) (storeKey nm l j) v = inr (db st'))).
Proof.
  intros (Hn & _ & _) Hl Hj Hv. unfold writeNode, LEAF_BYTES.
  destruct (Z.ltb_spec 64 (Z.of_nat (length v))); [lia|].
  unfold bind, this_name, lift. cbn [fst snd].
  rewrite generateKey_ok by assumption. rewrite Hn. fold (storeKey nm l j).
  unfold store_put. destruct (db_put (db st) (storeKey nm l j) v) as [e|d'].
  - eexists. split; [|left; exists e; repeat split]. reflexivity.
  - eexists. split; [|right; split; reflexivity]. reflexivity.
Qed.

Lemma wf_this (nm : string) (D : Z) (st st' : State DB) :
  this st' = this st -> wf nm D st -> wf nm D st'.
Proof. unfold wf. intros ->. tauto. Qed.

Context `{!Reliable DB}.

Lemma writeNode_ok (nm : string) (D l j : Z) (v : Buffer) (st : State DB) :
  wf nm D st -> uint32 l -> uint32 j -> (length v <= 64)%nat ->
  exists st', writeNode l j v st = (inr tt, st') /\ this st' = this st
              /\ db_put (db st) (storeKey nm l j) v = inr (db st').
Proof.
  intros Hwf Hl Hj Hv.
  destruct (writeNode_spec nm D l j v st Hwf Hl Hj Hv)
    as (st' & Ht & [(e & _ & _ & Hp)|[E P]]).
  - destruct (put_total (db st) (storeKey nm l j) v) as [d' Hp']. congruence.
  - exists st'. auto.
Qed.

End Total.

Section Succeeds.

Context {DB : Type} `{LevelUp DB} `{!Reliable DB}.

Lemma half_range (j k : Z) : 0 <= k -> 0 <= j < 2 ^ (k + 1) -> 0 <= j / 2 < 2 ^ k.
Proof.
  intros Hk Hj. rewrite Z.pow_add_r in Hj by lia. change (2 ^ 1) with 2 in Hj.
  split; [apply Z.div_pos; lia|apply Z.div_lt_upper_bound; lia].
Qed.

(** With enough fuel (the depth is enough) the loop of [updateElement] runs
    to its end on every index below 2^31. *)
Lemma updateElement_loop_total (nm : string) (D : Z) (fuel : nat) :
  1 <= D <= 32 ->
  forall (l j : Z) (h : Buffer) (st : State DB),
    wf nm D st -> 1 <= l <= D + 1 -> D + 1 - l <= Z.of_nat fuel ->
    0 <= j < 2 ^ (D + 1 - l) -> j < 2 ^ 31 -> length h = 32%nat ->
    exists x st', updateElement_loop fuel l j h st = (inr x, st') /\ wf nm D st'.
Proof.
  intros HD. induction fuel as [|fuel IH]; intros l j h st Hwf Hl Hf Hj Hj31 Hh;
    cbn [updateElement_loop]; unfold bind at 1; unfold this_depth at 1;
    cbn [fst snd]; destruct Hwf as (Hn & Hd & Hc); rewrite Hd;
    destruct (Z.leb_spec l D); try lia;
    try (exists h, st; split; [reflexivity|unfold wf; auto]).
  unfold bind at 1.
  pose proof (xor_small_range j ltac:(lia)) as Hx.
  destruct (readNode_spec nm D (l - 1) (JS.xor j 1) st) as (st1 & -> & Hwf1 & _);
    [unfold wf; auto|unfold uint32; lia|unfold uint32; lia|].
  unfold bind at 1.
  set (h' := if JS.not (JS.and j 1) then _ else _).
  assert (Hh' : length h' = 32%nat) by (subst h'; destruct (JS.not _); apply compress_length).
  rewrite sar_small by lia.
  pose proof (half_range j (D - l) ltac:(lia)
                ltac:(replace (D - l + 1) with (D + 1 - l) by lia; exact Hj)) as Hp.
  destruct (writeNode_ok nm D l (j / 2) h' st1) as (st2 & -> & Ht & _);
    [exact Hwf1|unfold uint32; lia| |lia|].
  { unfold uint32. assert (2 ^ (D - l) <= 2 ^ 31) by (apply Z.pow_le_mono_r; lia). lia. }
  apply IH; try lia.
  - apply (wf_this nm D st1 st2 Ht Hwf1).
  - replace (D + 1 - (l + 1)) with (D - l) by lia. exact Hp.
  - assert (2 ^ (D - l) <= 2 ^ 31) by (apply Z.pow_le_mono_r; lia). lia.
Qed.

(** [updateElement] succeeds on a well-formed tree and a reliable store, for
    every index of the tree below 2^31 and every payload. *)
Lemma updateElement_total (nm : string) (D i : Z) (v : Buffer) (st : State DB) :
  wf nm D st -> 1 <= D <= 32 -> 0 <= i < 2 ^ D -> i < 2 ^ 31 ->
  exists r st', updateElement i v st = (inr r, st').
Proof.
  intros Hwf HD Hi Hi31. unfold updateElement. unfold bind at 1.
  destruct (writeNode_ok nm D 0 i (hash v) st) as (st1 & -> & Ht & _);
    [exact Hwf|unfold uint32; lia|unfold uint32; lia|rewrite hash_length; lia|].
  pose proof (wf_this nm D st st1 Ht Hwf) as Hwf1.
  unfold bind at 1. unfold this_depth at 1. cbn [fst snd].
  destruct Hwf1 as (Hn1 & Hd1 & Hc1). rewrite Hd1. unfold bind at 1.
  destruct (updateElement_loop_total nm D (Z.to_nat D) HD 1 i (hash v) st1)
    as (x & st2 & -> & (Hn2 & Hd2 & Hc2));
    [unfold wf; auto|lia|lia|replace (D + 1 - 1) with D by lia; lia|lia
    |apply hash_length|].
  unfold bind at 1. unfold set_root at 1. cbn [fst snd]. unfold bind at 1.
  rewrite writeMetaData_eq by (cbn; rewrite Hd2; unfold uint32; lia).
  unfold store_put. cbn [this db log with_root name depth root].
  destruct (put_total (db st2) (name (this st2)) (metaRecord x (depth (this st2))))
    as [d' ->].
  unfold this_root. cbn. eauto.
Qed.

End Succeeds.

(** C2, where the code departs from it.  [updateElement] hashes the payload
    first and hands the 32-byte digest to [writeNode], so the 64-byte bound
    is never tested against the payload: on a reliable store the call
    succeeds for every payload, whatever its length, and never fails with
    'Bad leaf value'. *)
Theorem updateElement_payload_unchecked {DB : Type} `{LevelUp DB} `{!Reliable DB}
    (st : State DB) (i : Z) (rawValue : Buffer) :
  1 <= depth (this st) <= 32 -> cache_ok (hasher (this st)) ->
  0 <= i < 2 ^ depth (this st) -> i < 2 ^ 31 ->
  exists newRoot st',
    updateElement i rawValue st = (inr newRoot, st')
    /\ fst (updateElement i rawValue st) <> inl BadLeafValue.
Proof.
  intros HD Hc Hi Hi31.
  destruct (updateElement_total (name (this st)) (depth (this st)) i rawValue st)
    as (r & st' & E); [unfold wf; auto|assumption..|].
  exists r, st'. split; [exact E|]. rewrite E. discriminate.
Qed.

Lemma updateElement_payload_unchecked_witness :
  length (Buf.alloc 65) = 65%nat
  /\ exists newRoot st',
       updateElement 0 (Buf.alloc 65) (state_d1 "t") = (inr newRoot, st')
       /\ fst (updateElement 0 (Buf.alloc 65) (state_d1 "t")) <> inl BadLeafValue.
Proof.
  split; [reflexivity|].
  apply (updateElement_payload_unchecked (state_d1 "t") 0 (Buf.alloc 65)).
  - cbn. lia.
  - apply new_Sha256Hasher_ok.
  - cbn. lia.
  - lia.
Defined.

(** ** Node keys *)

Lemma keyPreimage_concat (nm : string) (l j : Z) :
  concat [Buf.from nm; Buf.le32 l ++ Buf.le32 j] = keyPreimage nm l j.
Proof. unfold keyPreimage. cbn [concat]. rewrite app_nil_r. reflexivity. Qed.

Lemma list_byte_of_string_inj (s s' : string) :
  list_byte_of_string s = list_byte_of_string s' -> s = s'.
Proof.
  intros E. rewrite <- (string_of_list_byte_of_string s),
    <- (string_of_list_byte_of_string s'), E. reflexivity.
Qed.

(** The hashed bytes determine the name, the level and the index. *)
Lemma keyPreimage_inj (nm nm' : string) (l j l' j' : Z) :
  uint32 l -> uint32 j -> uint32 l' -> uint32 j' ->
  keyPreimage nm l j = keyPreimage nm' l' j' -> nm = nm' /\ l = l' /\ j = j'.
Proof.
  intros Hl Hj Hl' Hj' E. unfold keyPreimage in E.
  assert (Hlen : length (Buf.from nm) = length (Buf.from nm')).
  { apply (f_equal (@length byte)) in E. rewrite !length_app in E.
    change (length (Buf.le32 l)) with 4%nat in E.
    change (length (Buf.le32 l')) with 4%nat in E.
    change (length (Buf.le32 j)) with 4%nat in E.
    change (length (Buf.le32 j')) with 4%nat in E. lia. }
  apply app_inj_1 in E; [|exact Hlen]. destruct E as [E1 E2].
  apply app_inj_1 in E2; [|reflexivity]. destruct E2 as [E2 E3].
  split; [apply list_byte_of_string_inj; exact E1|].
  split; apply le32_inj; assumption.
Qed.

Section Keys.

Context {DB : Type} `{LevelUp DB}.

Lemma readNode_log (l j : Z) (st : State DB) :
  uint32 l -> uint32 j ->
  log (snd (readNode l j st)) = log st ++ [Get (storeKey (name (this st)) l j)].
Proof.
  intros Hl Hj. unfold readNode, bind, this_name, lift. cbn [fst snd].
  rewrite generateKey_ok by assumption. fold (storeKey (name (this st)) l j).
  unfold store_get. cbn [fst snd this db log].
  destruct (db_get (db st) _); [|reflexivity].
  unfold this_emptyHash. cbn [this db log]. destruct (emptyHash _ _). reflexivity.
Qed.

Lemma writeNode_log (l j : Z) (v : Buffer) (st : State DB) :
  uint32 l -> uint32 j -> (length v <= 64)%nat ->
  log (snd (writeNode l j v st)) = log st ++ [Put (storeKey (name (this st)) l j) v].
Proof.
  intros Hl Hj Hv. unfold writeNode, LEAF_BYTES.
  destruct (Z.ltb_spec 64 (Z.of_nat (length v))); [lia|].
  unfold bind, this_name, lift. cbn [fst snd].
  rewrite generateKey_ok by assumption. fold (storeKey (name (this st)) l j).
  unfold store_put. destruct (db_put _ _ _); reflexivity.
Qed.

End Keys.

(** C5, as the code has it.  For a level and an index in the range of the
    encoding (unsigned 32 bits), [generateKey] yields the 32-byte digest of
    the name's bytes followed by the level and the index, each on 4 bytes
    little-endian; the node is written and fetched under the text
    [key.toString()] of that digest; this is a function of (name, level,
    index), and the hashed bytes determine the name, the level and the
    index, so that two nodes share a store key only when the digest followed
    by the decoding collides on distinct inputs. *)
Theorem node_key_derivation {DB : Type} `{LevelUp DB}
    (st : State DB) (level index : Z) (value : Buffer) :
  uint32 level -> uint32 index -> (length value <= 64)%nat ->
  generateKey (name (this st)) level index
  = inr (hash (keyPreimage (name (this st)) level index))
  /\ length (hash (keyPreimage (name (this st)) level index)) = 32%nat
  /\ storeKey (name (this st)) level index
     = UTF8.toString (hash (keyPreimage (name (this st)) level index))
  /\ log (snd (writeNode level index value st))
     = log st ++ [Put (storeKey (name (this st)) level index) value]
  /\ log (snd (readNode level index st))
     = log st ++ [Get (storeKey (name (this st)) level index)]
  /\ (forall nm' level' index',
        uint32 level' -> uint32 index' ->
        keyPreimage (name (this st)) level index = keyPreimage nm' level' index' ->
        name (this st) = nm' /\ level = level' /\ index = index').
Proof.
  intros Hl Hj Hv.
  split; [rewrite generateKey_ok, keyPreimage_concat by assumption; reflexivity|].
  split; [apply hash_length|].
  split; [unfold storeKey; rewrite keyPreimage_concat; reflexivity|].
  split; [apply writeNode_log; assumption|].
  split; [apply readNode_log; assumption|].
  intros nm' l' j' Hl' Hj'. apply keyPreimage_inj; assumption.
Qed.

Lemma node_key_derivation_witness :
  generateKey (name (this (state_d1 "a"))) 0 1
  = inr (hash (keyPreimage (name (this (state_d1 "a"))) 0 1))
  /\ length (hash (keyPreimage (name (this (state_d1 "a"))) 0 1)) = 32%nat
  /\ storeKey (name (this (state_d1 "a"))) 0 1
     = UTF8.toString (hash (keyPreimage (name (this (state_d1 "a"))) 0 1))
  /\ log (snd (writeNode 0 1 (hash []) (state_d1 "a")))
     = log (state_d1 "a") ++ [Put (storeKey (name (this (state_d1 "a"))) 0 1) (hash [])]
  /\ log (snd (readNode 0 1 (state_d1 "a")))
     = log (state_d1 "a") ++ [Get (storeKey (name (this (state_d1 "a"))) 0 1)]
  /\ (forall nm' level' index',
        uint32 level' -> uint32 index' ->
        keyPreimage (name (this (state_d1 "a"))) 0 1 = keyPreimage nm' level' index' ->
        name (this (state_d1 "a")) = nm' /\ 0 = level' /\ 1 = index').
Proof.
  apply (node_key_derivation (state_d1 "a") 0 1 (hash [])).
  - unfold uint32. lia.
  - unfold uint32. lia.
  - rewrite hash_length. lia.
Defined.

(** C5 as stated fails.  Node (0,0) of the tree ["a"] is written under a key
    that is not its 32-byte digest: the digest is not well-formed UTF-8, and
    the text it decodes to has 60 bytes; nothing is stored under the digest
    itself.  And two distinct trees of one store do collide: when a tree is
    named by that key text, updating leaf 0 of ["a"] overwrites its metadata
    record, and it cannot be opened any more. *)
Lemma node_key_counterexample :
  (exists digest,
     generateKey "a" 0 0 = inr digest
     /\ log (snd (writeNode 0 0 (hash []) (state_d1 "a")))
        = [Put (UTF8.toString digest) (hash [])]
     /\ UTF8.toString digest <> string_of_list_byte digest
     /\ String.length (UTF8.toString digest) = 60%nat
     /\ db_get (db (snd (writeNode 0 0 (hash []) (state_d1 "a"))))
               (string_of_list_byte digest) = inl NotFoundError)
  /\ storeKey "a" 0 0 <> "a"
  /\ two_trees = Some (inl RangeError).
Proof.
  split; [|split].
  - eexists. split; [vm_compute; reflexivity|].
    split; [vm_compute; reflexivity|].
    split; [vm_compute; discriminate|].
    split; vm_compute; reflexivity.
  - vm_compute. discriminate.
  - vm_compute. reflexivity.
Qed.

(** C8 at a node that was never written: the fetch fails and the
    empty-subtree hash is returned. *)
Lemma readNode_fetch_witness :
  (forall key v, generateKey (name (this (state_d1 "t"))) 0 0 = inr key ->
                 db_get (db (state_d1 "t")) (UTF8.toString key) = inr v ->
                 fst (readNode 0 0 (state_d1 "t")) = inr v)
  /\ (forall key e, generateKey (name (this (state_d1 "t"))) 0 0 = inr key ->
                    db_get (db (state_d1 "t")) (UTF8.toString key) = inl e ->
                    fst (readNode 0 0 (state_d1 "t"))
                    = inr (emptyHash_rec (Z.to_nat 0)))
  /\ (uint32 0 -> uint32 0 ->
      exists key, generateKey (name (this (state_d1 "t"))) 0 0 = inr key).
Proof.
  apply (readNode_fetch (state_d1 "t") 0 0). apply new_Sha256Hasher_ok.
Defined.

(** ** The root node *)

Section Root.

Context {DB : Type} `{LevelUp DB} `{!LevelUpLaws DB}.

Variables (nm : string) (D : Z).

Hypothesis HD : 1 <= D <= 32.

(** No other node of the tree, and not the metadata, shares the key of the
    root node. *)
Hypothesis Hkeys :
  forall l j, 0 <= l < D -> 0 <= j < 2 ^ (D - l) ->
              storeKey nm l j <> storeKey nm D 0.
Hypothesis Hmeta : storeKey nm D 0 <> nm.

Lemma node_put_other (d d' : DB) (k : string) (v : Buffer) (l j : Z) :
  db_put d k v = inr d' -> storeKey nm l j <> k ->
  node nm d' l j = node nm d l j.
Proof.
  intros Hp Hne. unfold node. rewrite (get_put_ne _ _ _ _ _ Hp) by exact Hne.
  reflexivity.
Qed.

Lemma node_put_same (d d' : DB) (v : Buffer) (l j : Z) :
  db_put d (storeKey nm l j) v = inr d' -> node nm d' l j = v.
Proof.
  intros Hp. unfold node. rewrite (get_put_eq _ _ _ _ Hp). reflexivity.
Qed.

Lemma pow2_le_32 (k : Z) : 0 <= k <= 32 -> 0 < 2 ^ k <= 4294967296.
Proof.
  intros Hk. split; [apply Z.pow_pos_nonneg; lia|].
  change 4294967296 with (2 ^ 32). apply Z.pow_le_mono_r; lia.
Qed.

(** The loop of [updateElement], whatever its outcome: when it returns, the
    root node holds the returned value; it throws only before the write of
    the root node, which is then as before.  The root field is not
    touched. *)
Lemma updateElement_loop_root (fuel : nat) :
  forall (l j : Z) (h : Buffer) (st st' : State DB) (r : Result Buffer),
    wf nm D st -> 1 <= l <= D + 1 -> 0 <= j < 2 ^ (D + 1 - l) ->
    length h = 32%nat ->
    updateElement_loop fuel l j h st = (r, st') ->
    wf nm D st' /\ root (this st') = root (this st)
    /\ match r with
       | inr x => if l <=? D then node nm (db st') D 0 = x
                  else x = h /\ db st' = db st
       | inl _ => l <= D /\ node nm (db st') D 0 = node nm (db st) D 0
       end.
Proof.
  induction fuel as [|fuel IH]; intros l j h st st' r Hwf Hl Hj Hh;
    cbn [updateElement_loop]; unfold bind at 1; unfold this_depth at 1;
    cbn [fst snd]; pose proof Hwf as (Hn & Hd & Hc); rewrite Hd;
    destruct (Z.leb_spec l D) as [Hle|Hgt]; unfold throw, ret;
    try (intros E; injection E as <- <-; auto; fail).
  destruct (Z_lt_dec j (2 ^ 31)) as [Hj31|Hj31].
  2: { unfold bind at 1. rewrite readNode_range.
       - intros E; injection E as <- <-; auto.
       - pose proof (xor_high j) as Hx.
         pose proof (pow2_le_32 (D + 1 - l) ltac:(lia)).
         unfold uint32. change (2 ^ 32) with 4294967296 in Hx. lia. }
  pose proof (xor_small_range j ltac:(lia)) as Hx.
  destruct (readNode_spec nm D (l - 1) (JS.xor j 1) st) as (st1 & E1 & Hwf1 & Hdb1 & Hr1);
    [exact Hwf|unfold uint32; lia|unfold uint32; lia|].
  unfold bind at 1. rewrite E1.
  set (h' := if JS.not (JS.and j 1) then _ else _).
  assert (Hh' : length h' = 32%nat) by (subst h'; destruct (JS.not _); apply compress_length).
  rewrite sar_small by lia.
  pose proof (half_range j (D - l) ltac:(lia)
                ltac:(replace (D - l + 1) with (D + 1 - l) by lia; exact Hj)) as Hp.
  pose proof (pow2_le_32 (D - l) ltac:(lia)) as Hpow.
  destruct (writeNode_spec nm D l (j / 2) h' st1) as (st2 & Ht2 & Hcase);
    [exact Hwf1|unfold uint32; lia|unfold uint32; lia|lia|].
  pose proof (wf_this nm D st1 st2 Ht2 Hwf1) as Hwf2.
  unfold bind at 1.
  destruct Hcase as [(e & E2 & Hdb2 & _)|[E2 Hput]]; rewrite E2.
  - intros E; injection E as <- <-.
    split; [exact Hwf2|]. split; [congruence|]. split; [lia|congruence].
  - intros E.
    destruct (IH (l + 1) (j / 2) h' st2 st' r Hwf2 ltac:(lia)
                 ltac:(replace (D + 1 - (l + 1)) with (D - l) by lia; exact Hp) Hh' E)
      as (IH1 & IH2 & IH3).
    split; [exact IH1|]. split; [congruence|].
    destruct r as [e|x].
    + destruct IH3 as [Hl' IH3]. split; [lia|]. rewrite IH3.
      rewrite (node_put_other _ _ _ _ _ _ Hput), Hdb1; [reflexivity|].
      intros Heq. apply (Hkeys l (j / 2)); [lia|exact Hp|]. symmetry. exact Heq.
    + destruct (Z.leb_spec (l + 1) D) as [Hlt|Hge].
      * exact IH3.
      * assert (l = D) by lia. subst l. destruct IH3 as [-> Hdb3]. rewrite Hdb3.
        replace (D - D) with 0 in Hp by lia. change (2 ^ 0) with 1 in Hp.
        assert (j / 2 = 0) as Hz by lia. rewrite Hz in Hput.
        apply (node_put_same _ _ _ _ _ Hput).
Qed.

(** [updateElement] keeps the root node equal to the root field, whether it
    returns or throws. *)
Lemma updateElement_root_inv (st : State DB) (i : Z) (v : Buffer) :
  root_inv nm D st -> 0 <= i < 2 ^ D ->
  root_inv nm D (snd (updateElement i v st)).
Proof.
  intros [Hwf Hroot] Hi. unfold updateElement. unfold bind at 1.
  pose proof (pow2_le_32 D ltac:(lia)) as Hpow.
  destruct (writeNode_spec nm D 0 i (hash v) st) as (st1 & Ht1 & Hcase);
    [exact Hwf|unfold uint32; lia|unfold uint32; lia|rewrite hash_length; lia|].
  pose proof (wf_this nm D st st1 Ht1 Hwf) as Hwf1.
  destruct Hcase as [(e & E1 & Hdb1 & _)|[E1 Hput1]]; rewrite E1; cbn [snd].
  - split; [exact Hwf1|]. rewrite Hdb1, Ht1. exact Hroot.
  - assert (Hroot1 : node nm (db st1) D 0 = root (this st1)).
    { rewrite (node_put_other _ _ _ _ _ _ Hput1), Ht1; [exact Hroot|].
      intros Heq. apply (Hkeys 0 i); [lia|replace (D - 0) with D by lia; exact Hi|].
      symmetry. exact Heq. }
    unfold bind at 1. unfold this_depth at 1. cbn [fst snd]. unfold bind at 1.
    destruct (updateElement_loop (Z.to_nat (depth (this st1))) 1 i (hash v) st1)
      as [r st2] eqn:EL.
    destruct (updateElement_loop_root _ 1 i (hash v) st1 st2 r Hwf1 ltac:(lia)
                ltac:(replace (D + 1 - 1) with D by lia; exact Hi)
                (hash_length v) EL) as (Hwf2 & Hr2 & Hres).
    destruct r as [e|x]; cbn [snd].
    + destruct Hres as [_ Hres]. split; [exact Hwf2|]. congruence.
    + destruct (Z.leb_spec 1 D) as [_|]; [|lia].
      unfold bind at 1. unfold set_root at 1. cbn [fst snd]. unfold bind at 1.
      destruct Hwf2 as (Hn2 & Hd2 & Hc2).
      rewrite writeMetaData_eq by (cbn; rewrite Hd2; unfold uint32; lia).
      unfold store_put. cbn [this db log with_root name depth root].
      destruct (db_put (db st2) (name (this st2)) (metaRecord x (depth (this st2))))
        as [e|d'] eqn:Hput2; cbn [snd this_root fst].
      * split; [unfold wf; cbn; auto|]. cbn. exact Hres.
      * split; [unfold wf; cbn; auto|]. cbn.
        rewrite (node_put_other _ _ _ _ _ _ Hput2); [exact Hres|].
        rewrite Hn2. exact Hmeta.
Qed.

(** [new] on a store without metadata and without a root node leaves the
    root node equal to the root field. *)
Lemma new_root_inv (d0 d : DB) (t : MerkleTree) (l : list Access) (e e' : StoreError) :
  db_get d0 nm = inl e -> db_get d0 (storeKey nm D 0) = inl e' ->
  new d0 [] nm D = (inr t, (d, l)) ->
  root_inv nm D {| this := t; db := d; log := l |}.
Proof.
  intros Hget Hrn. unfold new. rewrite meta_key, Hget.
  destruct (constructor_fresh nm D HD) as (h & Hh & ->).
  rewrite writeMetaData_eq by (unfold uint32; cbn; lia).
  unfold store_put. cbn [this db log name depth root].
  destruct (db_put d0 nm (metaRecord (emptyHash_rec (Z.to_nat D)) D)) as [e2|d'] eqn:Hput;
    [discriminate|].
  intros E. injection E as <- <- <-.
  split; [unfold wf; cbn; auto|]. cbn.
  rewrite (node_put_other _ _ _ _ _ _ Hput) by exact Hmeta.
  unfold node. rewrite Hrn. reflexivity.
Qed.

Lemma reachable_root_inv (d0 : DB) (st : State DB) (e e' : StoreError) :
  db_get d0 nm = inl e -> db_get d0 (storeKey nm D 0) = inl e' ->
  reachable d0 nm D (2 ^ D) st -> root_inv nm D st.
Proof.
  intros Hget Hrn Hreach. induction Hreach as [t d l Hnew|st i v Hreach IH Hi].
  - apply (new_root_inv d0 d t l e e' Hget Hrn Hnew).
  - apply updateElement_root_inv; assumption.
Qed.

End Root.

(** C7. In every state reached from a freshly created tree of depth [D] (no
    metadata under its name and no root node in the store beforehand) by
    [updateElement] calls with indices in [0, 2^D), whether they return or
    throw, [readNode(D, 0)] returns the value of [getRoot()].  The store
    reads back what was written, and no other node of the tree, nor the
    metadata, shares the store key of the root node. *)
Theorem root_node_is_root {DB : Type} `{LevelUp DB} `{!LevelUpLaws DB}
    (d0 : DB) (nm : string) (D : Z) (st : State DB) (e e' : StoreError) :
  1 <= D <= 32 ->
  db_get d0 nm = inl e ->
  db_get d0 (storeKey nm D 0) = inl e' ->
  (forall l j, 0 <= l < D -> 0 <= j < 2 ^ (D - l) ->
               storeKey nm l j <> storeKey nm D 0) ->
  storeKey nm D 0 <> nm ->
  reachable d0 nm D (2 ^ D) st ->
  fst (readNode D 0 st) = fst (getRoot st).
Proof.
  intros HD Hget Hrn Hkeys Hmeta Hreach.
  destruct (reachable_root_inv nm D HD Hkeys Hmeta d0 st e e' Hget Hrn Hreach)
    as [Hwf Hroot].
  destruct (readNode_spec nm D D 0 st Hwf) as (st' & -> & _);
    [unfold uint32; lia|unfold uint32; lia|].
  unfold getRoot, this_root. cbn [fst]. rewrite Hroot. reflexivity.
Qed.

Lemma MemDown_get_empty (k : string) :
  db_get (∅ : gmap string Buffer) k = inl NotFoundError.
Proof. cbn [db_get MemDown]. rewrite lookup_empty. reflexivity. Defined.

Lemma created_reachable (nm : string) (D B : Z) :
  1 <= D <= 32 -> reachable (∅ : gmap string Buffer) nm D B (created ∅ nm D).
Proof.
  intros HD. unfold created. apply reach_new.
  destruct (new_fresh (∅ : gmap string Buffer) _ [] nm D NotFoundError HD
              (MemDown_get_empty nm) eq_refl) as (h & _ & ->).
  reflexivity.
Defined.

(** C7 on the depth-1 tree "t" after [updateElement(1, "a")]. *)
Lemma root_node_is_root_witness :
  fst (readNode 1 0 (snd (updateElement 1 (list_byte_of_string "a") (created ∅ "t" 1))))
  = fst (getRoot (snd (updateElement 1 (list_byte_of_string "a") (created ∅ "t" 1)))).
Proof.
  apply (root_node_is_root (∅ : gmap string Buffer) "t" 1 _ NotFoundError NotFoundError).
  - lia.
  - apply MemDown_get_empty.
  - apply MemDown_get_empty.
  - intros l j Hl Hj. assert (l = 0) as -> by lia.
    change (2 ^ (1 - 0)) with 2 in Hj.
    assert (j = 0 \/ j = 1) as [-> | ->] by lia;
      intros E; vm_compute in E; discriminate E.
  - intros E; vm_compute in E; discriminate E.
  - apply reach_update; [|lia]. apply created_reachable. lia.
Defined.

(** ** Indices and their ancestors *)

Lemma div_pow_range (i D k : Z) :
  0 <= i < 2 ^ D -> 0 <= k <= D -> 0 <= i / 2 ^ k < 2 ^ (D - k).
Proof.
  intros Hi Hk. assert (0 < 2 ^ k) by (apply Z.pow_pos_nonneg; lia).
  split; [apply Z.div_pos; lia|].
  apply Z.div_lt_upper_bound; [lia|].
  rewrite <- Z.pow_add_r by lia. replace (k + (D - k)) with D by lia. lia.
Qed.

Lemma div_pow_succ (i k : Z) : 0 <= k -> i / 2 ^ k / 2 = i / 2 ^ (k + 1).
Proof.
  intros Hk. assert (0 < 2 ^ k) by (apply Z.pow_pos_nonneg; lia).
  rewrite Z.div_div by lia. rewrite Z.pow_add_r by lia. reflexivity.
Qed.

Lemma even_half (j : Z) : Z.even j = true -> j = 2 * (j / 2).
Proof.
  intros E. apply Z.even_spec in E. destruct E as [k ->].
  rewrite (Z.mul_comm 2 k), Z.div_mul by lia. lia.
Qed.

Lemma odd_half (j : Z) : Z.even j = false -> j = 2 * (j / 2) + 1.
Proof.
  intros E. assert (Ho : Z.odd j = true) by (rewrite <- Z.negb_even, E; reflexivity).
  apply Z.odd_spec in Ho. destruct Ho as [k ->].
  replace (2 * k + 1) with (1 + k * 2) by lia.
  rewrite Z.div_add by lia. change (1 / 2) with 0. lia.
Qed.

Lemma double_half (j : Z) : 2 * j / 2 = j /\ (2 * j + 1) / 2 = j.
Proof.
  split.
  - rewrite (Z.mul_comm 2 j), Z.div_mul by lia. reflexivity.
  - replace (2 * j + 1) with (1 + j * 2) by lia.
    rewrite Z.div_add by lia. reflexivity.
Qed.

Lemma pow2_double (k : Z) : 0 <= k -> 2 ^ (k + 1) = 2 * 2 ^ k.
Proof. intros Hk. rewrite Z.pow_add_r by lia. change (2 ^ 1) with 2. lia. Qed.

(** ** The Merkle invariant *)

Section Merkle.

Context {DB : Type} `{LevelUp DB} `{!LevelUpLaws DB}.

Variables (nm : string) (D : Z).

Hypothesis HD : 1 <= D <= 32.
Hypothesis Hdistinct : keys_distinct nm D.

Lemma node_put_in_tree (d d' : DB) (v : Buffer) (l j l' j' : Z) :
  db_put d (storeKey nm l j) v = inr d' ->
  in_tree D l j -> in_tree D l' j' -> (l', j') <> (l, j) ->
  node nm d' l' j' = node nm d l' j'.
Proof.
  intros Hp Hin Hin' Hne. apply (node_put_other nm _ _ _ _ _ _ Hp).
  intros Heq. apply Hne.
  destruct (proj1 Hdistinct l' j' l j Hin' Hin Heq) as [-> ->]. reflexivity.
Qed.

Lemma node_put_meta (d d' : DB) (v : Buffer) (l j : Z) :
  db_put d nm v = inr d' -> in_tree D l j -> node nm d' l j = node nm d l j.
Proof.
  intros Hp Hin. apply (node_put_other nm _ _ _ _ _ _ Hp).
  apply (proj2 Hdistinct l j Hin).
Qed.

Lemma in_tree_parent (l j : Z) :
  0 <= l < D -> 0 <= j < 2 ^ (D - l - 1) -> in_tree D (l + 1) j.
Proof.
  intros Hl Hj. unfold in_tree. replace (D - (l + 1)) with (D - l - 1) by lia. lia.
Qed.

Lemma in_tree_children (l j : Z) :
  0 <= l < D -> 0 <= j < 2 ^ (D - l - 1) ->
  in_tree D l (2 * j) /\ in_tree D l (2 * j + 1).
Proof.
  intros Hl Hj. unfold in_tree.
  replace (D - l) with (D - l - 1 + 1) by lia. rewrite pow2_double by lia. lia.
Qed.

Lemma in_tree_ancestor (i k : Z) : 0 <= i < 2 ^ D -> 0 <= k <= D -> in_tree D k (i / 2 ^ k).
Proof.
  intros Hi Hk. unfold in_tree. split; [lia|]. apply div_pow_range; assumption.
Qed.

(** Writing the leaf [i] leaves only its ancestors to be recomputed. *)
Lemma merkle_leaf (d d' : DB) (i : Z) (v : Buffer) :
  0 <= i < 2 ^ D -> merkle nm D d ->
  db_put d (storeKey nm 0 i) v = inr d' ->
  merkle_upto nm D i 1 d'.
Proof.
  intros Hi Hm Hp l j Hl Hj Hor.
  assert (Hin : in_tree D 0 i) by (unfold in_tree; replace (D - 0) with D by lia; lia).
  destruct (in_tree_children l j Hl Hj) as [Hc0 Hc1].
  assert (Hj' : j <> i / 2 ^ (l + 1) \/ 0 < l) by lia.
  rewrite (node_put_in_tree _ _ _ _ _ _ _ Hp Hin (in_tree_parent l j Hl Hj))
    by (intros E; injection E; lia).
  assert (Hne : forall b, b = 0 \/ b = 1 -> (l, 2 * j + b) <> (0, i)).
  { intros b Hb E. injection E as El Ei. subst l. destruct Hor as [|Hor]; [lia|].
    apply Hor. change (2 ^ (0 + 1)) with 2. rewrite <- Ei.
    destruct (double_half j) as [E0 E1]. destruct Hb as [-> | ->].
    - rewrite Z.add_0_r, E0. reflexivity.
    - rewrite E1. reflexivity. }
  rewrite (node_put_in_tree _ _ _ _ _ _ _ Hp Hin Hc0)
    by (specialize (Hne 0 ltac:(auto)); rewrite Z.add_0_r in Hne; exact Hne).
  rewrite (node_put_in_tree _ _ _ _ _ _ _ Hp Hin Hc1) by (apply Hne; auto).
  apply Hm; assumption.
Qed.

(** Writing the compression of its children at the ancestor of level [l]
    repairs that level. *)
Lemma merkle_step (d d' : DB) (i l : Z) :
  0 <= i < 2 ^ D -> 1 <= l <= D -> merkle_upto nm D i l d ->
  db_put d (storeKey nm l (i / 2 ^ l))
         (compress (node nm d (l - 1) (2 * (i / 2 ^ l)))
                   (node nm d (l - 1) (2 * (i / 2 ^ l) + 1))) = inr d' ->
  merkle_upto nm D i (l + 1) d'.
Proof.
  intros Hi Hl Hm Hp l' j Hl' Hj Hor.
  pose proof (in_tree_ancestor i l Hi ltac:(lia)) as Hin.
  destruct (in_tree_children l' j Hl' Hj) as [Hc0 Hc1].
  pose proof (in_tree_parent l' j Hl' Hj) as Hpar.
  assert (Hchild : forall b, b = 0 \/ b = 1 -> (l', 2 * j + b) <> (l, i / 2 ^ l)).
  { intros b Hb E. injection E as El Ej. subst l'. destruct Hor as [|Hor]; [lia|].
    apply Hor. rewrite <- div_pow_succ by lia. rewrite <- Ej.
    destruct (double_half j) as [E0 E1]. destruct Hb as [-> | ->].
    - rewrite Z.add_0_r, E0. reflexivity.
    - rewrite E1. reflexivity. }
  rewrite (node_put_in_tree _ _ _ _ _ _ _ Hp Hin Hc0)
    by (specialize (Hchild 0 ltac:(auto)); rewrite Z.add_0_r in Hchild; exact Hchild).
  rewrite (node_put_in_tree _ _ _ _ _ _ _ Hp Hin Hc1) by (apply Hchild; auto).
  destruct (Z.eq_dec (l' + 1) l) as [El|El].
  - destruct (Z.eq_dec j (i / 2 ^ l)) as [Ej|Ej].
    + subst j. subst l. rewrite (node_put_same nm _ _ _ _ _ Hp).
      replace (l' + 1 - 1) with l' by lia. reflexivity.
    + rewrite (node_put_in_tree _ _ _ _ _ _ _ Hp Hin Hpar)
        by (intros E; injection E; intros; contradiction).
      apply Hm; try assumption. right. rewrite El. exact Ej.
  - rewrite (node_put_in_tree _ _ _ _ _ _ _ Hp Hin Hpar)
      by (intros E; injection E; intros; lia).
    apply Hm; try assumption. destruct Hor as [Hlt|Hne]; [left; lia|right; exact Hne].
Qed.

Lemma merkle_upto_top (d : DB) (i : Z) : merkle_upto nm D i (D + 1) d -> merkle nm D d.
Proof. intros Hm l j Hl Hj. apply Hm; try assumption. left. lia. Qed.

Lemma merkle_meta (d d' : DB) (v : Buffer) :
  merkle nm D d -> db_put d nm v = inr d' -> merkle nm D d'.
Proof.
  intros Hm Hp l j Hl Hj.
  destruct (in_tree_children l j Hl Hj) as [Hc0 Hc1].
  rewrite (node_put_meta _ _ _ _ _ Hp (in_tree_parent l j Hl Hj)).
  rewrite (node_put_meta _ _ _ _ _ Hp Hc0), (node_put_meta _ _ _ _ _ Hp Hc1).
  apply Hm; assumption.
Qed.

(** A store that holds no node of the tree satisfies the invariant: every
    node reads as the empty-subtree hash of its level. *)
Lemma merkle_empty (d : DB) :
  (forall l j, in_tree D l j -> exists e, db_get d (storeKey nm l j) = inl e) ->
  merkle nm D d.
Proof.
  intros He l j Hl Hj.
  destruct (in_tree_children l j Hl Hj) as [Hc0 Hc1].
  unfold node.
  destruct (He _ _ (in_tree_parent l j Hl Hj)) as [e ->].
  destruct (He _ _ Hc0) as [e0 ->]. destruct (He _ _ Hc1) as [e1 ->].
  replace (Z.to_nat (l + 1)) with (S (Z.to_nat l)) by lia. reflexivity.
Qed.

End Merkle.

(** ** Updates keep the tree consistent *)

Section Consistency.

Context {DB : Type} `{LevelUp DB} `{!LevelUpLaws DB}.

Variables (nm : string) (D i : Z).

Hypothesis HD : 1 <= D <= 32.
Hypothesis Hdistinct : keys_distinct nm D.
Hypothesis Hi : 0 <= i < 2 ^ D.
Hypothesis Hi31 : i < 2 ^ 31.

Lemma ancestor_small (k : Z) : 0 <= k -> 0 <= i / 2 ^ k < 2 ^ 31.
Proof.
  intros Hk. assert (0 < 2 ^ k) by (apply Z.pow_pos_nonneg; lia).
  split; [apply Z.div_pos; lia|].
  apply Z.le_lt_trans with i; [|lia].
  apply Z.div_le_upper_bound; [lia|]. nia.
Qed.

(** The value the loop of [updateElement] writes one level up. *)
Lemma parent_value (d : DB) (l : Z) (s : Buffer) :
  1 <= l ->
  s = node nm d (l - 1) (JS.xor (i / 2 ^ (l - 1)) 1) ->
  (if JS.not (JS.and (i / 2 ^ (l - 1)) 1)
   then compress (node nm d (l - 1) (i / 2 ^ (l - 1))) s
   else compress s (node nm d (l - 1) (i / 2 ^ (l - 1))))
  = compress (node nm d (l - 1) (2 * (i / 2 ^ l)))
             (node nm d (l - 1) (2 * (i / 2 ^ l) + 1)).
Proof.
  intros Hl ->. pose proof (ancestor_small (l - 1) ltac:(lia)) as Hj.
  rewrite and_small, xor_small by exact Hj.
  replace (i / 2 ^ l) with (i / 2 ^ (l - 1) / 2)
    by (rewrite div_pow_succ by lia; f_equal; f_equal; lia).
  destruct (Z.even (i / 2 ^ (l - 1))) eqn:E.
  - pose proof (even_half _ E) as Eh. rewrite <- Eh. reflexivity.
  - pose proof (odd_half _ E) as Eh. rewrite <- Eh.
    replace (i / 2 ^ (l - 1) - 1) with (2 * (i / 2 ^ (l - 1) / 2)) by lia.
    reflexivity.
Qed.

Lemma updateElement_loop_merkle (fuel : nat) :
  forall (l : Z) (h x : Buffer) (st st' : State DB),
    wf nm D st -> 1 <= l <= D + 1 ->
    node nm (db st) (l - 1) (i / 2 ^ (l - 1)) = h ->
    merkle_upto nm D i l (db st) ->
    updateElement_loop fuel l (i / 2 ^ (l - 1)) h st = (inr x, st') ->
    wf nm D st' /\ root (this st') = root (this st)
    /\ merkle nm D (db st') /\ node nm (db st') D 0 = x.
Proof.
  induction fuel as [|fuel IH]; intros l h x st st' Hwf Hl Hh Hm;
    cbn [updateElement_loop]; unfold bind at 1; unfold this_depth at 1;
    cbn [fst snd]; pose proof Hwf as (Hn & Hd & Hc); rewrite Hd;
    destruct (Z.leb_spec l D) as [Hle|Hgt]; unfold throw, ret;
    try discriminate;
    try (intros E; injection E as <- <-; assert (l = D + 1) as -> by lia;
         split; [exact Hwf|]; split; [reflexivity|];
         split; [apply (merkle_upto_top nm D _ i Hm)|];
         rewrite <- Hh; replace (D + 1 - 1) with D by lia;
         rewrite Z.div_small by lia; reflexivity).
  pose proof (ancestor_small (l - 1) ltac:(lia)) as Hj.
  pose proof (xor_small_range _ Hj) as Hx.
  destruct (readNode_spec nm D (l - 1) (JS.xor (i / 2 ^ (l - 1)) 1) st)
    as (st1 & E1 & Hwf1 & Hdb1 & Hr1);
    [exact Hwf|unfold uint32; lia|unfold uint32; lia|].
  unfold bind at 1. rewrite E1. rewrite <- Hh.
  rewrite (parent_value (db st) l _ ltac:(lia) eq_refl).
  rewrite sar_small by exact Hj.
  replace (i / 2 ^ (l - 1) / 2) with (i / 2 ^ l)
    by (rewrite div_pow_succ by lia; f_equal; f_equal; lia).
  set (h' := compress _ _).
  pose proof (in_tree_ancestor D i l Hi ltac:(lia)) as [_ Hp].
  pose proof (pow2_le_32 (D - l) ltac:(lia)) as Hpow.
  destruct (writeNode_spec nm D l (i / 2 ^ l) h' st1) as (st2 & Ht2 & Hcase);
    [exact Hwf1|unfold uint32; lia|unfold uint32; lia
    |subst h'; rewrite compress_length; lia|].
  pose proof (wf_this nm D st1 st2 Ht2 Hwf1) as Hwf2.
  unfold bind at 1.
  destruct Hcase as [(e & E2 & _)|[E2 Hput]]; rewrite E2; [discriminate|].
  intros E. rewrite Hdb1 in Hput.
  replace (i / 2 ^ l) with (i / 2 ^ (l + 1 - 1)) in E
    by (f_equal; f_equal; lia).
  destruct (IH (l + 1) h' x st2 st' Hwf2 ltac:(lia)) as (R1 & R2 & R3 & R4);
    try exact E.
  - replace (l + 1 - 1) with l by lia. apply (node_put_same nm _ _ _ _ _ Hput).
  - apply (merkle_step nm D HD Hdistinct (db st) (db st2) i l Hi ltac:(lia) Hm Hput).
  - split; [exact R1|]. split; [congruence|]. auto.
Qed.

(** A successful [updateElement] on a consistent tree leaves a consistent
    tree. *)
Lemma updateElement_merkle (st st' : State DB) (v r : Buffer) :
  merkle_inv nm D st -> updateElement i v st = (inr r, st') ->
  merkle_inv nm D st'.
Proof.
  intros (Hwf & Hm & Hroot). unfold updateElement. unfold bind at 1.
  pose proof (pow2_le_32 D ltac:(lia)) as Hpow.
  destruct (writeNode_spec nm D 0 i (hash v) st) as (st1 & Ht1 & Hcase);
    [exact Hwf|unfold uint32; lia|unfold uint32; lia|rewrite hash_length; lia|].
  pose proof (wf_this nm D st st1 Ht1 Hwf) as Hwf1.
  destruct Hcase as [(e & E1 & _)|[E1 Hput1]]; rewrite E1; [discriminate|].
  unfold bind at 1. unfold this_depth at 1. cbn [fst snd]. unfold bind at 1.
  destruct (updateElement_loop (Z.to_nat (depth (this st1))) 1 i (hash v) st1)
    as [[e|x] st2] eqn:EL; [discriminate|].
  replace i with (i / 2 ^ (1 - 1)) in EL at 1 by (change (2 ^ (1 - 1)) with 1; apply Z.div_1_r).
  destruct (updateElement_loop_merkle (Z.to_nat (depth (this st1))) 1 (hash v) x st1 st2
              Hwf1 ltac:(lia))
    as (Hwf2 & Hr2 & Hm2 & Hroot2); try exact EL.
  - change (2 ^ (1 - 1)) with 1. rewrite Z.div_1_r.
    apply (node_put_same nm _ _ _ _ _ Hput1).
  - apply (merkle_leaf nm D HD Hdistinct (db st) (db st1) i (hash v) Hi Hm Hput1).
  - unfold bind at 1. unfold set_root at 1. cbn [fst snd]. unfold bind at 1.
    destruct Hwf2 as (Hn2 & Hd2 & Hc2).
    rewrite writeMetaData_eq by (cbn; rewrite Hd2; unfold uint32; lia).
    unfold store_put. cbn [this db log with_root name depth root].
    destruct (db_put (db st2) (name (this st2)) (metaRecord x (depth (this st2))))
      as [e|d'] eqn:Hput2; [discriminate|].
    unfold this_root. cbn. intros E. injection E as <- <-.
    rewrite Hn2 in Hput2.
    split; [unfold wf; cbn; auto|]. cbn [db this root].
    split; [eapply (merkle_meta nm D); eassumption|].
    rewrite (node_put_meta nm D Hdistinct _ _ _ _ _ Hput2); [exact Hroot2|].
    unfold in_tree. replace (D - D) with 0 by lia. change (2 ^ 0) with 1. lia.
Qed.

End Consistency.

(** ** The hash path *)

Lemma levels_S (l : Z) (n : nat) : levels l (S n) = l :: levels (l + 1) n.
Proof.
  unfold levels. cbn [seq map]. rewrite Z.add_0_r. f_equal.
  rewrite <- seq_shift, map_map. apply map_ext. intros k. lia.
Qed.

Lemma levels_length (l : Z) (n : nat) : length (levels l n) = n.
Proof. unfold levels. rewrite length_map, length_seq. reflexivity. Qed.

Section Path.

Context {DB : Type} `{LevelUp DB}.

Variables (nm : string) (D i : Z).

Hypothesis HD : 1 <= D <= 32.
Hypothesis Hi : 0 <= i < 2 ^ D.
Hypothesis Hi31 : i < 2 ^ 31.

(** With enough fuel (the depth is enough) the loop of [getHashPath] pushes
    the pairs of the levels that remain, and changes neither the store nor
    the root. *)
Lemma getHashPath_loop_spec (fuel : nat) :
  forall (l : Z) (acc : list (Buffer * Buffer)) (st : State DB),
    wf nm D st -> 0 <= l <= D -> D - l <= Z.of_nat fuel ->
    exists st',
      getHashPath_loop fuel l (i / 2 ^ l) acc st
      = (inr (acc ++ map (pathPair nm (db st) i) (levels l (Z.to_nat (D - l)))), st')
      /\ wf nm D st' /\ db st' = db st /\ root (this st') = root (this st).
Proof.
  induction fuel as [|fuel IH]; intros l acc st Hwf Hl Hf;
    cbn [getHashPath_loop]; unfold bind at 1; unfold this_depth at 1;
    cbn [fst snd]; pose proof Hwf as (Hn & Hd & Hc); rewrite Hd;
    destruct (Z.ltb_spec l D) as [Hlt|Hge]; try lia;
    try (exists st; replace (D - l) with 0 by lia; cbn [Z.to_nat levels seq map];
         rewrite app_nil_r; auto; fail).
  assert (Hj : 0 <= i / 2 ^ l < 2 ^ 31) by (eapply ancestor_small; eauto; lia).
  pose proof (xor_small_range _ Hj) as Hx.
  destruct (readNode_spec nm D l (JS.xor (i / 2 ^ l) 1) st)
    as (st1 & E1 & Hwf1 & Hdb1 & Hr1);
    [exact Hwf|unfold uint32; lia|unfold uint32; lia|].
  unfold bind at 1. rewrite E1.
  destruct (readNode_spec nm D l (i / 2 ^ l) st1)
    as (st2 & E2 & Hwf2 & Hdb2 & Hr2);
    [exact Hwf1|unfold uint32; lia|unfold uint32; lia|].
  unfold bind at 1. rewrite E2. rewrite Hdb1.
  rewrite sar_small by exact Hj. rewrite div_pow_succ by lia.
  destruct (IH (l + 1)
              (if JS.not (JS.and (i / 2 ^ l) 1)
               then acc ++ [(node nm (db st) l (i / 2 ^ l),
                             node nm (db st) l (JS.xor (i / 2 ^ l) 1))]
               else acc ++ [(node nm (db st) l (JS.xor (i / 2 ^ l) 1),
                             node nm (db st) l (i / 2 ^ l))])
              st2 Hwf2 ltac:(lia) ltac:(lia)) as (st' & E & Hwf' & Hdb' & Hr').
  exists st'. rewrite E. split; [|split; [exact Hwf'|split; congruence]].
  f_equal. f_equal.
  replace (Z.to_nat (D - l)) with (S (Z.to_nat (D - (l + 1)))) by lia.
  rewrite levels_S. cbn [map]. rewrite Hdb2, Hdb1.
  assert (Hpair : pathPair nm (db st) i l
                  = if JS.not (JS.and (i / 2 ^ l) 1)
                    then (node nm (db st) l (i / 2 ^ l),
                          node nm (db st) l (JS.xor (i / 2 ^ l) 1))
                    else (node nm (db st) l (JS.xor (i / 2 ^ l) 1),
                          node nm (db st) l (i / 2 ^ l))).
  { unfold pathPair. rewrite Z.shiftr_div_pow2 by lia.
    rewrite and_small by exact Hj.
    assert (JS.xor (i / 2 ^ l) 1 = Z.lxor (i / 2 ^ l) 1) as ->
        by (unfold JS.xor; rewrite !ToInt32_small by lia; reflexivity).
    reflexivity. }
  rewrite Hpair. destruct (JS.not _); rewrite <- app_assoc; reflexivity.
Qed.

(** [getHashPath] on an index of the tree below 2^31: the [D] pairs, from
    the leaf level up. *)
Lemma getHashPath_spec (st : State DB) :
  wf nm D st ->
  exists st',
    getHashPath i st
    = (inr {| data := map (pathPair nm (db st) i) (levels 0 (Z.to_nat D)) |}, st')
    /\ wf nm D st' /\ db st' = db st /\ root (this st') = root (this st).
Proof.
  intros Hwf. unfold getHashPath. unfold bind at 1. unfold this_depth at 1.
  cbn [fst snd]. pose proof Hwf as (Hn & Hd & Hc). rewrite Hd. unfold bind at 1.
  destruct (getHashPath_loop_spec (Z.to_nat D) 0 [] st Hwf ltac:(lia) ltac:(lia))
    as (st' & E & R).
  change (2 ^ 0) with 1 in E. rewrite Z.div_1_r in E. rewrite E. cbn [app]. replace (D - 0) with D by lia. exists st'. split; [reflexivity|exact R].
Qed.

(** The component of a pair on the side of the current index is the node
    at the current index. *)
Lemma pathPair_component (d : DB) (l : Z) :
  (if Z.even (Z.shiftr i l) then fst (pathPair nm d i l) else snd (pathPair nm d i l))
  = node nm d l (Z.shiftr i l).
Proof. unfold pathPair. destruct (Z.even (Z.shiftr i l)); reflexivity. Qed.

(** In a consistent store the compression of a pair is the parent node. *)
Lemma pathPair_compress (d : DB) (l : Z) :
  merkle nm D d -> 0 <= l < D ->
  compress (fst (pathPair nm d i l)) (snd (pathPair nm d i l))
  = node nm d (l + 1) (Z.shiftr i (l + 1)).
Proof.
  intros Hm Hl. rewrite (Z.shiftr_div_pow2 i (l + 1)) by lia.
  pose proof (div_pow_range i D (l + 1) Hi ltac:(lia)) as Hq.
  rewrite (Hm l (i / 2 ^ (l + 1)) Hl
             ltac:(replace (D - l - 1) with (D - (l + 1)) by lia; exact Hq)).
  unfold pathPair. rewrite Z.shiftr_div_pow2 by lia.
  rewrite <- div_pow_succ by lia.
  pose proof (div_pow_range i D l Hi ltac:(lia)) as [Hc _].
  rewrite lxor_1 by exact Hc.
  destruct (Z.even (i / 2 ^ l)) eqn:E; cbn [fst snd].
  - pose proof (even_half _ E) as Eh. rewrite <- Eh. reflexivity.
  - pose proof (odd_half _ E) as Eh. rewrite <- Eh.
    replace (i / 2 ^ l - 1) with (2 * (i / 2 ^ l / 2)) by lia. reflexivity.
Qed.

(** In a consistent store the pairs of the levels [l, D) fold up to the
    root node. *)
Lemma folds_to_root (d : DB) (n : nat) :
  merkle nm D d ->
  forall l, 0 <= l -> l + Z.of_nat (S n) = D ->
            folds_to (Z.shiftr i l) (map (pathPair nm d i) (levels l (S n)))
                     (node nm d D 0).
Proof.
  intros Hm. induction n as [|n IH]; intros l Hl Hn.
  - rewrite levels_S. cbn [levels seq map folds_to].
    rewrite pathPair_compress by (auto; lia).
    replace (l + 1) with D by lia.
    rewrite Z.shiftr_div_pow2, Z.div_small by lia. reflexivity.
  - rewrite levels_S. rewrite (levels_S (l + 1) n). cbn [map folds_to].
    rewrite Z.shiftr_shiftr by lia.
    split.
    + rewrite pathPair_component. apply pathPair_compress; [exact Hm|lia].
    + specialize (IH (l + 1) ltac:(lia) ltac:(lia)).
      rewrite (levels_S (l + 1) n) in IH. exact IH.
Qed.

End Path.

(** ** Inclusion consistency below 2^31 *)

Section Inclusion.

Context {DB : Type} `{LevelUp DB} `{!LevelUpLaws DB} `{!Reliable DB}.

Variables (nm : string) (D : Z) (d0 : DB).

Hypothesis HD : 1 <= D <= 32.
Hypothesis Hdistinct : keys_distinct nm D.
Hypothesis Hmeta0 : exists e, db_get d0 nm = inl e.
Hypothesis Hempty :
  forall l j, in_tree D l j -> exists e, db_get d0 (storeKey nm l j) = inl e.

Lemma new_merkle_inv (d : DB) (t : MerkleTree) (l : list Access) :
  new d0 [] nm D = (inr t, (d, l)) ->
  merkle_inv nm D {| this := t; db := d; log := l |}.
Proof.
  destruct Hmeta0 as [e Hget]. unfold new. rewrite meta_key, Hget.
  destruct (constructor_fresh nm D HD) as (h & Hh & ->).
  rewrite writeMetaData_eq by (unfold uint32; cbn; lia).
  unfold store_put. cbn [this db log name depth root].
  destruct (db_put d0 nm (metaRecord (emptyHash_rec (Z.to_nat D)) D)) as [e2|d'] eqn:Hput;
    [discriminate|].
  intros E. injection E as <- <- <-.
  assert (Hroot : in_tree D D 0)
    by (unfold in_tree; replace (D - D) with 0 by lia; change (2 ^ 0) with 1; lia).
  split; [unfold wf; cbn; auto|]. cbn [db this root]. split.
  - eapply (merkle_meta nm D); [eassumption| |exact Hput].
    apply merkle_empty. exact Hempty.
  - rewrite (node_put_meta nm D Hdistinct _ _ _ _ _ Hput Hroot).
    unfold node. destruct (Hempty D 0 Hroot) as [e' ->]. reflexivity.
Qed.

(** Every state reached with indices below 2^31 is consistent. *)
Lemma reachable_merkle_inv (st : State DB) :
  reachable d0 nm D (Z.min (2 ^ D) (2 ^ 31)) st -> merkle_inv nm D st.
Proof.
  intros Hreach. induction Hreach as [t d l Hnew|st i v Hreach IH Hi].
  - apply new_merkle_inv. exact Hnew.
  - destruct (updateElement_total nm D i v st) as (r & st' & E);
      [apply IH|exact HD|lia|lia|].
    rewrite E. cbn [snd].
    apply (updateElement_merkle nm D i HD Hdistinct ltac:(lia) ltac:(lia) st st' v r IH E).
Qed.

End Inclusion.

(** X2.  The hash path of an index below 2^31 (every index
    of a tree of depth at most 31, the lower half of a tree of depth 32):
    [getHashPath] returns
    exactly [D] pairs, the pair of level [l] being (current, sibling) when
    [i >> l] is even and (sibling, current) when it is odd, where the
    sibling index is the current index XOR 1 and the values are those
    [readNode] returns. *)
Theorem getHashPath_pairs {DB : Type} `{LevelUp DB} (st : State DB) (i : Z) :
  1 <= depth (this st) <= 32 -> cache_ok (hasher (this st)) ->
  0 <= i < 2 ^ depth (this st) -> i < 2 ^ 31 ->
  exists p st',
    getHashPath i st = (inr p, st')
    /\ length (data p) = Z.to_nat (depth (this st))
    /\ data p = map (pathPair (name (this st)) (db st) i)
                    (levels 0 (Z.to_nat (depth (this st)))).
Proof.
  intros HD Hc Hi Hi31.
  destruct (getHashPath_spec (name (this st)) (depth (this st)) i HD Hi Hi31 st)
    as (st' & E & _); [unfold wf; auto|].
  eexists _, st'. split; [exact E|]. cbn [data].
  split; [rewrite length_map, levels_length; reflexivity|reflexivity].
Qed.

(** X1.  Inclusion consistency for the indices below 2^31.
    Starting from a tree
    freshly created on a store that holds none of its keys, after any
    sequence of [updateElement] calls with indices of the tree below 2^31,
    [getHashPath(i)] returns [D] pairs that fold up, by [compress], to the
    value of [getRoot()].  The store reads back what was written and rejects
    no write, and the keys of the tree are pairwise distinct. *)
Theorem inclusion_consistency {DB : Type} `{LevelUp DB} `{!LevelUpLaws DB} `{!Reliable DB}
    (d0 : DB) (nm : string) (D i : Z) (st : State DB) :
  1 <= D <= 32 ->
  keys_distinct nm D ->
  (exists e, db_get d0 nm = inl e) ->
  (forall l j, in_tree D l j -> exists e, db_get d0 (storeKey nm l j) = inl e) ->
  reachable d0 nm D (Z.min (2 ^ D) (2 ^ 31)) st ->
  0 <= i < 2 ^ D -> i < 2 ^ 31 ->
  exists p st',
    getHashPath i st = (inr p, st')
    /\ length (data p) = Z.to_nat D
    /\ exists r, fst (getRoot st) = inr r /\ folds_to i (data p) r.
Proof.
  intros HD Hdistinct Hmeta0 Hempty Hreach Hi Hi31.
  destruct (reachable_merkle_inv nm D d0 HD Hdistinct Hmeta0 Hempty st Hreach)
    as (Hwf & Hm & Hroot).
  destruct (getHashPath_spec nm D i HD Hi Hi31 st Hwf) as (st' & E & _).
  eexists _, st'. split; [exact E|]. cbn [data].
  split; [rewrite length_map, levels_length; reflexivity|].
  exists (root (this st)). split; [reflexivity|].
  rewrite <- Hroot.
  replace (Z.to_nat D) with (S (Z.to_nat (D - 1))) by lia.
  replace i with (Z.shiftr i 0) at 1 by apply Z.shiftr_0_r.
  eapply (folds_to_root nm D i); [exact HD|exact Hi|exact Hm|lia|lia].
Qed.

(** ** The depth-1 tree "t" *)

Lemma in_tree_1 (l j : Z) :
  in_tree 1 l j -> (l = 0 /\ j = 0) \/ (l = 0 /\ j = 1) \/ (l = 1 /\ j = 0).
Proof.
  unfold in_tree. intros [Hl Hj].
  assert (l = 0 \/ l = 1) as [-> | ->] by lia.
  - change (2 ^ (1 - 0)) with 2 in Hj. lia.
  - change (2 ^ (1 - 1)) with 1 in Hj. lia.
Qed.

(** The three node keys of the tree "t" of depth 1 and its metadata key are
    pairwise distinct. *)
Lemma keys_distinct_t1 : keys_distinct "t" 1.
Proof.
  split.
  - intros l j l' j' Hin Hin' E.
    destruct (in_tree_1 l j Hin) as [[-> ->]|[[-> ->]|[-> ->]]];
      destruct (in_tree_1 l' j' Hin') as [[-> ->]|[[-> ->]|[-> ->]]];
      try (split; reflexivity); vm_compute in E; discriminate E.
  - intros l j Hin E.
    destruct (in_tree_1 l j Hin) as [[-> ->]|[[-> ->]|[-> ->]]];
      vm_compute in E; discriminate E.
Qed.

Lemma getHashPath_pairs_witness :
  exists p st',
    getHashPath 1 (state_d1 "t") = (inr p, st')
    /\ length (data p) = Z.to_nat (depth (this (state_d1 "t")))
    /\ data p = map (pathPair (name (this (state_d1 "t"))) (db (state_d1 "t")) 1)
                    (levels 0 (Z.to_nat (depth (this (state_d1 "t"))))).
Proof.
  apply (getHashPath_pairs (state_d1 "t") 1).
  - cbn. lia.
  - apply new_Sha256Hasher_ok.
  - cbn. lia.
  - lia.
Defined.

Lemma inclusion_consistency_witness :
  exists p st',
    getHashPath 0 (snd (updateElement 1 (list_byte_of_string "a") (created ∅ "t" 1)))
    = (inr p, st')
    /\ length (data p) = Z.to_nat 1
    /\ exists r,
         fst (getRoot (snd (updateElement 1 (list_byte_of_string "a") (created ∅ "t" 1))))
         = inr r
         /\ folds_to 0 (data p) r.
Proof.
  apply (inclusion_consistency (∅ : gmap string Buffer) "t" 1 0).
  - lia.
  - apply keys_distinct_t1.
  - exists NotFoundError. apply MemDown_get_empty.
  - intros l j _. exists NotFoundError. apply MemDown_get_empty.
  - apply reach_update; [apply created_reachable; lia|].
    change (Z.min (2 ^ 1) (2 ^ 31)) with 2. lia.
  - lia.
  - lia.
Defined.

(** ** The scenario of the specification *)

(** Depth 2, starting empty, after [updateElement(0, "a")]: with [L] the
    hash of the payload, [e0] and [e1] the empty hashes of levels 0 and 1,
    the root is [C(C(L, e0), e1)] and the path of leaf 0 is
    [(L, e0); (C(L, e0), e1)]. *)
Example scenario_depth_2 :
  fst (getRoot state_t2)
  = inr (compress (compress (hash (list_byte_of_string "a")) (emptyHash_rec 0))
                  (emptyHash_rec 1))
  /\ fst (getHashPath 0 state_t2)
     = inr {| data :=
                [(hash (list_byte_of_string "a"), emptyHash_rec 0);
                 (compress (hash (list_byte_of_string "a")) (emptyHash_rec 0),
                  emptyHash_rec 1)] |}.
Proof. split; vm_compute; reflexivity. Qed.

(** SHA-256 of "abc" (FIPS 180-4, appendix B.1), first and last bytes. *)
Example sha256_abc :
  map Z_of_byte (take 4 (hash (list_byte_of_string "abc"))) = [0xba; 0x78; 0x16; 0xbf]
  /\ map Z_of_byte (drop 28 (hash (list_byte_of_string "abc"))) = [0xf2; 0x00; 0x15; 0xad].
Proof. split; vm_compute; reflexivity. Qed.

(* ===================================================================== *)
(** * Further properties of the code *)
(* ===================================================================== *)

(** ** The growth of the empty-hash cache *)

Lemma emptyHash_loop_exact (fuel : nat) :
  forall (d : Z) (n : nat),
    0 <= d -> d + 1 - Z.of_nat n <= Z.of_nat fuel ->
    emptyHash_loop fuel d (table (S n))
    = inr (table (S (Nat.max n (Z.to_nat d + 1)))).
Proof.
  induction fuel as [|fuel IH]; intros d n Hd Hf; cbn [emptyHash_loop];
    rewrite table_length.
  - destruct (Z.leb_spec (Z.of_nat (S n) - 1) d); [lia|].
    replace (Nat.max n (Z.to_nat d + 1)) with n by lia. reflexivity.
  - destruct (Z.leb_spec (Z.of_nat (S n) - 1) d).
    + rewrite table_last.
      change (compress (emptyHash_rec n) (emptyHash_rec n)) with (emptyHash_rec (S n)).
      rewrite <- table_S. rewrite IH by lia.
      replace (Nat.max (S n) (Z.to_nat d + 1)) with (Nat.max n (Z.to_nat d + 1)) by lia.
      reflexivity.
    + replace (Nat.max n (Z.to_nat d + 1)) with n by lia. reflexivity.
Qed.

Lemma table_prefix (n m : nat) : (n <= m)%nat -> take n (table m) = table n.
Proof.
  intros Hnm. unfold table. rewrite <- fmap_take. f_equal.
  replace m with (n + (m - n))%nat by lia. rewrite seq_app.
  rewrite take_app_length'; [reflexivity|]. rewrite length_seq. reflexivity.
Qed.

(** X3.  [emptyHash(depth)] on a cache that holds the first [n + 1] values
    of the recurrence.  For a depth that is not negative it returns the
    value of the recurrence at that depth and leaves a cache holding the
    first [max (n + 1) (depth + 2)] values: the cache only grows, by
    appending, and what was cached is kept; a depth below [n] changes
    nothing.  For a negative depth it returns [undefined] and the cache is
    as before. *)
Theorem emptyHash_cache (h : Sha256Hasher) (n : nat) (d : Z) :
  emptyHashCache h = table (S n) ->
  (0 <= d ->
   emptyHash d h
   = (inr (Some (emptyHash_rec (Z.to_nat d))),
      {| emptyHashCache := table (Nat.max (S n) (Z.to_nat d + 2)) |})
   /\ take (S n) (table (Nat.max (S n) (Z.to_nat d + 2))) = emptyHashCache h
   /\ (d < Z.of_nat n -> table (Nat.max (S n) (Z.to_nat d + 2)) = emptyHashCache h))
  /\ (d < 0 -> emptyHash d h = (inr None, {| emptyHashCache := emptyHashCache h |})).
Proof.
  intros Hn. split.
  - intros Hd. unfold emptyHash. rewrite Hn.
    rewrite emptyHash_loop_exact by lia.
    destruct (Z.ltb_spec d 0); [lia|].
    rewrite table_lookup by lia.
    replace (S (Nat.max n (Z.to_nat d + 1))) with (Nat.max (S n) (Z.to_nat d + 2)) by lia.
    split; [reflexivity|]. split.
    + apply table_prefix. lia.
    + intros Hlt. f_equal. lia.
  - intros Hd. unfold emptyHash. rewrite Hn.
    destruct (Z.to_nat (d + 2)) as [|fuel]; cbn [emptyHash_loop]; rewrite table_length;
      (destruct (Z.leb_spec (Z.of_nat (S n) - 1) d); [lia|]);
      (destruct (Z.ltb_spec d 0); [reflexivity|lia]).
Qed.

Lemma emptyHash_cache_witness :
  (0 <= 3 ->
   emptyHash 3 new_Sha256Hasher
   = (inr (Some (emptyHash_rec (Z.to_nat 3))),
      {| emptyHashCache := table (Nat.max 1 (Z.to_nat 3 + 2)) |})
   /\ take 1 (table (Nat.max 1 (Z.to_nat 3 + 2))) = emptyHashCache new_Sha256Hasher
   /\ (3 < Z.of_nat 0 -> table (Nat.max 1 (Z.to_nat 3 + 2)) = emptyHashCache new_Sha256Hasher))
  /\ (3 < 0 -> emptyHash 3 new_Sha256Hasher
               = (inr None, {| emptyHashCache := emptyHashCache new_Sha256Hasher |})).
Proof. apply (emptyHash_cache new_Sha256Hasher 0 3). reflexivity. Defined.

(** ** Addresses outside the range of the key encoding *)

(** X4.  A level or an index outside the unsigned 32-bit range: the key
    derivation raises a RangeError, and [readNode] and [writeNode] pass it
    on before any store access, leaving the state (and the log) as it was.
    A value of more than 64 bytes is refused by [writeNode] even before the
    key is derived. *)
Theorem address_out_of_range {DB : Type} `{LevelUp DB}
    (st : State DB) (level index : Z) (value : Buffer) :
  ~ (uint32 level /\ uint32 index) ->
  generateKey (name (this st)) level index = inl RangeError
  /\ readNode level index st = (inl RangeError, st)
  /\ ((length value <= 64)%nat -> writeNode level index value st = (inl RangeError, st))
  /\ ((64 < length value)%nat -> writeNode level index value st = (inl BadLeafValue, st)).
Proof.
  intros Hr. split; [apply generateKey_range; exact Hr|].
  split; [apply readNode_range; exact Hr|]. unfold writeNode, LEAF_BYTES. split.
  - intros Hv. destruct (Z.ltb_spec 64 (Z.of_nat (length value))); [lia|].
    unfold bind, this_name, lift. cbn [fst snd].
    rewrite generateKey_range by exact Hr. reflexivity.
  - intros Hv. destruct (Z.ltb_spec 64 (Z.of_nat (length value))); [|lia]. reflexivity.
Qed.

Lemma address_out_of_range_witness :
  generateKey (name (this (state_d1 "t"))) 0 (-1) = inl RangeError
  /\ readNode 0 (-1) (state_d1 "t") = (inl RangeError, state_d1 "t")
  /\ ((length (Buf.alloc 65) <= 64)%nat ->
      writeNode 0 (-1) (Buf.alloc 65) (state_d1 "t") = (inl RangeError, state_d1 "t"))
  /\ ((64 < length (Buf.alloc 65))%nat ->
      writeNode 0 (-1) (Buf.alloc 65) (state_d1 "t") = (inl BadLeafValue, state_d1 "t")).
Proof.
  apply (address_out_of_range (state_d1 "t") 0 (-1) (Buf.alloc 65)).
  unfold uint32. lia.
Defined.

(** ** Opening a tree that exists *)

Lemma readUInt32LE_short (meta : Buffer) :
  (length meta < 36)%nat -> Buf.readUInt32LE meta 32 = inl RangeError.
Proof.
  intros Hl. unfold Buf.readUInt32LE.
  destruct (Z.ltb_spec 32 0); [lia|].
  destruct (Z.ltb_spec (Z.of_nat (length meta) - 4) 32); [reflexivity|lia].
Qed.

Lemma readUInt32LE_long (meta : Buffer) :
  (36 <= length meta)%nat -> exists D', Buf.readUInt32LE meta 32 = inr D'.
Proof.
  intros Hl. unfold Buf.readUInt32LE.
  destruct (Z.ltb_spec 32 0); [lia|].
  destruct (Z.ltb_spec (Z.of_nat (length meta) - 4) 32); [lia|]. cbn [orb].
  assert (Hd : (4 <= length (drop (Z.to_nat 32) meta))%nat)
    by (rewrite length_drop; lia).
  destruct (drop (Z.to_nat 32) meta) as [|b0 [|b1 [|b2 [|b3 rest]]]];
    cbn [length] in Hd; try lia.
  cbn [take]. eexists. reflexivity.
Qed.

(** X5.  [new] on a store that holds a record under the name, whatever the
    requested depth: the store is left as it is and the only access is the
    get of the record.  A record of fewer than 36 bytes makes [new] throw a
    RangeError; otherwise the depth read at offset 32 decides: outside
    [1,32] [new] throws 'Bad depth', inside it the tree is opened with that
    depth, the first 32 bytes of the record as root, and a fresh hasher. *)
Theorem new_existing {DB : Type} `{LevelUp DB}
    (d : DB) (l : list Access) (nm : string) (D : Z) (meta : Buffer) :
  db_get d nm = inr meta ->
  snd (new d l nm D) = (d, l ++ [Get nm])
  /\ ((length meta < 36)%nat -> fst (new d l nm D) = inl RangeError)
  /\ ((36 <= length meta)%nat ->
      exists D', Buf.readUInt32LE meta 32 = inr D'
        /\ (~ (1 <= D' <= 32) -> fst (new d l nm D) = inl BadDepth)
        /\ (1 <= D' <= 32 ->
            fst (new d l nm D)
            = inr {| name := nm; depth := D'; root := take 32 meta;
                     hasher := new_Sha256Hasher |})).
Proof.
  intros Hget. unfold new. rewrite meta_key, Hget. split; [|split].
  - destruct (Buf.readUInt32LE meta 32); reflexivity.
  - intros Hl. rewrite readUInt32LE_short by exact Hl. reflexivity.
  - intros Hl. destruct (readUInt32LE_long meta Hl) as [D' E]. exists D'.
    rewrite E. split; [reflexivity|]. cbn [fst]. split.
    + intros HD. apply constructor_bad_depth. exact HD.
    + intros HD. apply constructor_loaded. exact HD.
Qed.

Lemma new_existing_witness :
  snd (new store_short_meta [] "t" 5) = (store_short_meta, [] ++ [Get "t"])
  /\ ((length [x01] < 36)%nat -> fst (new store_short_meta [] "t" 5) = inl RangeError)
  /\ ((36 <= length [x01])%nat ->
      exists D', Buf.readUInt32LE [x01] 32 = inr D'
        /\ (~ (1 <= D' <= 32) -> fst (new store_short_meta [] "t" 5) = inl BadDepth)
        /\ (1 <= D' <= 32 ->
            fst (new store_short_meta [] "t" 5)
            = inr {| name := "t"; depth := D'; root := take 32 [x01];
                     hasher := new_Sha256Hasher |})).
Proof.
  apply (new_existing store_short_meta [] "t" 5 [x01]). reflexivity.
Defined.

Lemma emptyHash_rec_length (n : nat) : length (emptyHash_rec n) = 32%nat.
Proof. destruct n; [apply hash_length|apply compress_length]. Qed.

(** X6.  Creating a tree persists it at once: after [new] has created a
    tree (no record under the name before), [new] on the store it left, with
    any requested depth, opens a tree with the same root and the same
    depth, and writes nothing. *)
Theorem create_then_reopen {DB : Type} `{LevelUp DB} `{!LevelUpLaws DB}
    (d d' : DB) (l l' l2 : list Access) (nm : string) (D D2 : Z)
    (e : StoreError) (t : MerkleTree) :
  db_get d nm = inl e ->
  new d l nm D = (inr t, (d', l')) ->
  exists t2,
    new d' l2 nm D2 = (inr t2, (d', l2 ++ [Get nm]))
    /\ root t2 = root t /\ depth t2 = depth t /\ name t2 = name t.
Proof.
  intros Hget. unfold new at 1. rewrite meta_key, Hget.
  destruct (Z_le_dec 1 D) as [H1|H1]; [destruct (Z_le_dec D 32) as [H2|H2]|];
    try (rewrite constructor_bad_depth by lia; discriminate).
  destruct (constructor_fresh nm D (conj H1 H2)) as (h & Hh & ->).
  rewrite writeMetaData_eq by (unfold uint32; cbn; lia).
  unfold store_put. cbn [this db log name depth root].
  destruct (db_put d nm (metaRecord (emptyHash_rec (Z.to_nat D)) D)) as [e2|d2] eqn:Hput;
    [discriminate|].
  intros E. injection E as <- <- <-.
  pose proof (get_put_eq _ _ _ _ Hput) as Hget2.
  rewrite metaRecord_32 in Hget2 by apply emptyHash_rec_length.
  assert (Hrd : Buf.readUInt32LE
                  (emptyHash_rec (Z.to_nat D) ++ Buf.le32 D ++ Buf.alloc 4) 32 = inr D).
  { pose proof (readUInt32LE_le32 (emptyHash_rec (Z.to_nat D)) (Buf.alloc 4) D
                  ltac:(unfold uint32; lia)) as Hrd.
    rewrite emptyHash_rec_length in Hrd. exact Hrd. }
  eexists. split; [apply (new_loaded d2 l2 nm D2 D _ Hget2 Hrd (conj H1 H2))|].
  cbn [root depth name]. split; [|split; reflexivity].
  unfold Buf.slice0.
  pose proof (take_app_length (emptyHash_rec (Z.to_nat D)) (Buf.le32 D ++ Buf.alloc 4))
    as Ht.
  rewrite emptyHash_rec_length in Ht. exact Ht.
Qed.

Lemma create_then_reopen_witness :
  exists t2,
    new (db fresh_t2) [] "t" 9 = (inr t2, (db fresh_t2, [] ++ [Get "t"]))
    /\ root t2 = root (this fresh_t2) /\ depth t2 = depth (this fresh_t2)
    /\ name t2 = name (this fresh_t2).
Proof.
  apply (create_then_reopen (∅ : gmap string Buffer) (db fresh_t2) [] (log fresh_t2) []
           "t" 2 9 NotFoundError (this fresh_t2)).
  - apply MemDown_get_empty.
  - apply new_t2.
Defined.

(** ** Writing a node and reading it back *)

Section WriteRead.

Context {DB : Type} `{LevelUp DB} `{!LevelUpLaws DB}.

(** What a successful [writeNode] did. *)
Lemma writeNode_inr (l j : Z) (v : Buffer) (st st1 : State DB) :
  writeNode l j v st = (inr tt, st1) ->
  uint32 l /\ uint32 j /\ (length v <= 64)%nat /\ this st1 = this st
  /\ db_put (db st) (storeKey (name (this st)) l j) v = inr (db st1).
Proof.
  unfold writeNode, LEAF_BYTES.
  destruct (Z.ltb_spec 64 (Z.of_nat (length v))); [discriminate|].
  unfold bind, this_name, lift. cbn [fst snd].
  destruct (uint32_dec l) as [Hl|Hl];
    [|rewrite generateKey_range by tauto; discriminate].
  destruct (uint32_dec j) as [Hj|Hj];
    [|rewrite generateKey_range by tauto; discriminate].
  rewrite generateKey_ok by assumption.
  fold (storeKey (name (this st)) l j). unfold store_put.
  destruct (db_put (db st) (storeKey (name (this st)) l j) v) as [e|d'] eqn:Hp;
    [discriminate|].
  intros E. injection E as <-. cbn [this db log].
  split; [exact Hl|]. split; [exact Hj|]. split; [lia|]. split; reflexivity.
Qed.

(** [readNode] depends on the object and on what the store answers at the
    key of the node. *)
Lemma readNode_fst_ext (l j : Z) (st st' : State DB) :
  this st' = this st ->
  db_get (db st') (storeKey (name (this st)) l j)
  = db_get (db st) (storeKey (name (this st)) l j) ->
  fst (readNode l j st') = fst (readNode l j st).
Proof.
  intros Ht Hg. unfold readNode, bind, this_name, lift. cbn [fst snd]. rewrite Ht.
  destruct (uint32_dec l) as [Hl|Hl];
    [|rewrite generateKey_range by tauto; reflexivity].
  destruct (uint32_dec j) as [Hj|Hj];
    [|rewrite generateKey_range by tauto; reflexivity].
  rewrite generateKey_ok by assumption.
  fold (storeKey (name (this st)) l j). unfold store_get. cbn [fst snd db this log].
  rewrite Hg. destruct (db_get (db st) _); [|reflexivity].
  unfold this_emptyHash. cbn [this db log]. rewrite Ht.
  destruct (emptyHash l (hasher (this st))). reflexivity.
Qed.

End WriteRead.

(** X7.  A node that [writeNode] has written is what [readNode] returns at
    that address, and [readNode] at any address with another store key
    returns what it returned before the write (store that reads back what
    was written). *)
Theorem read_after_write {DB : Type} `{LevelUp DB} `{!LevelUpLaws DB}
    (st st1 : State DB) (level index : Z) (value : Buffer) :
  writeNode level index value st = (inr tt, st1) ->
  fst (readNode level index st1) = inr value
  /\ (forall level' index',
        storeKey (name (this st)) level' index' <> storeKey (name (this st)) level index ->
        fst (readNode level' index' st1) = fst (readNode level' index' st)).
Proof.
  intros E. destruct (writeNode_inr _ _ _ _ _ E) as (Hl & Hj & Hv & Ht & Hput).
  split.
  - unfold readNode, bind, this_name, lift. cbn [fst snd].
    rewrite generateKey_ok by assumption. rewrite Ht.
    fold (storeKey (name (this st)) level index).
    unfold store_get. cbn [fst snd db this log].
    rewrite (get_put_eq _ _ _ _ Hput). reflexivity.
  - intros l' j' Hne. apply readNode_fst_ext; [exact Ht|].
    apply (get_put_ne _ _ _ _ _ Hput). exact Hne.
Qed.

Lemma read_after_write_witness :
  fst (readNode 0 1 (snd (writeNode 0 1 (hash []) (state_d1 "t")))) = inr (hash [])
  /\ (forall level' index',
        storeKey (name (this (state_d1 "t"))) level' index'
        <> storeKey (name (this (state_d1 "t"))) 0 1 ->
        fst (readNode level' index' (snd (writeNode 0 1 (hash []) (state_d1 "t"))))
        = fst (readNode level' index' (state_d1 "t"))).
Proof.
  apply (read_after_write (state_d1 "t") _ 0 1 (hash [])).
  apply (run_eq (writeNode 0 1 (hash []) (state_d1 "t"))).
  vm_compute. reflexivity.
Defined.

(** ** The keys an update touches *)

Section Frame.

Context {DB : Type} `{LevelUp DB} `{!LevelUpLaws DB}.

Variable nm : string.

Lemma own_writes_refl (st : State DB) : own_writes nm st st.
Proof. intros Hn. auto. Qed.

Lemma own_writes_trans (s1 s2 s3 : State DB) :
  own_writes nm s1 s2 -> own_writes nm s2 s3 -> own_writes nm s1 s3.
Proof.
  intros H12 H23 Hn. destruct (H12 Hn) as [Hn2 Hk2]. destruct (H23 Hn2) as [Hn3 Hk3].
  split; [exact Hn3|]. intros k Hk. rewrite Hk3, Hk2 by exact Hk. reflexivity.
Qed.

Lemma own_writes_read_only (st st' : State DB) : read_only st st' -> own_writes nm st st'.
Proof.
  intros (Hn & _ & _ & Hdb & _) Hnm. split; [congruence|]. intros k _. rewrite Hdb.
  reflexivity.
Qed.

Lemma own_writes_writeNode (l j : Z) (v : Buffer) (st : State DB) :
  own_writes nm st (snd (writeNode l j v st)).
Proof.
  intros Hn. unfold writeNode. destruct (LEAF_BYTES <? _); [cbn; auto|].
  unfold bind, this_name, lift. cbn [fst snd].
  destruct (uint32_dec l) as [Hl|Hl];
    [|rewrite generateKey_range by tauto; cbn; auto].
  destruct (uint32_dec j) as [Hj|Hj];
    [|rewrite generateKey_range by tauto; cbn; auto].
  rewrite generateKey_ok by assumption.
  fold (storeKey (name (this st)) l j). rewrite Hn. unfold store_put.
  destruct (db_put (db st) (storeKey nm l j) v) as [e|d'] eqn:Hp; cbn; [auto|].
  split; [exact Hn|]. intros k Hk.
  apply (get_put_ne _ _ _ _ _ Hp). intros Heq. apply (Hk l j Hl Hj). symmetry. exact Heq.
Qed.

Lemma own_writes_updateElement_loop (fuel : nat) :
  forall (l j : Z) (h : Buffer) (st : State DB),
    own_writes nm st (snd (updateElement_loop fuel l j h st)).
Proof.
  induction fuel as [|fuel IH]; intros l j h; cbn [updateElement_loop];
    (apply (step_bind (own_writes nm));
     [apply own_writes_trans|intro; apply own_writes_refl|]);
    intros D st; destruct (l <=? D); try apply own_writes_refl.
  revert st.
  apply (step_bind (own_writes nm));
    [apply own_writes_trans|intro; apply own_writes_read_only, read_only_readNode|].
  intros s.
  apply (step_bind (own_writes nm));
    [apply own_writes_trans|intro; apply own_writes_writeNode|].
  intros _ st. apply IH.
Qed.

End Frame.

Lemma bind_run {DB : Type} `{LevelUp DB} {A B : Type} (c : M DB A) (k : A -> M DB B)
    (st : State DB) :
  bind c k st = match c st with
                | (inl e, st') => (inl e, st')
                | (inr a, st') => k a st'
                end.
Proof. reflexivity. Qed.

(** The store after [writeMetaData]: as before at every key but the name of
    the object, and as before everywhere when the call throws. *)
Lemma writeMetaData_frame {DB : Type} `{LevelUp DB} `{!LevelUpLaws DB}
    (st st' : State DB) (r : Result unit) (k : string) :
  writeMetaData st = (r, st') ->
  k <> name (this st) \/ (exists e, r = inl e) ->
  db_get (db st') k = db_get (db st) k /\ name (this st') = name (this st).
Proof.
  unfold writeMetaData, bind, this_root, this_depth, this_name, lift. cbn [fst snd].
  destruct (Buf.writeUInt32LE _ (depth (this st)) 32) as [e|data];
    [intros E _; injection E as <- <-; auto|].
  unfold store_put.
  destruct (db_put (db st) (name (this st)) data) as [e|d'] eqn:Hp;
    intros E; injection E as <- <-; cbn [this db log]; [auto|].
  intros [Hne|[e He]]; [|discriminate]. split; [|reflexivity].
  apply (get_put_ne _ _ _ _ _ Hp). auto.
Qed.

Lemma updateElement_frame_run {DB : Type} `{LevelUp DB} `{!LevelUpLaws DB}
    (st st' : State DB) (r : Result Buffer) (i : Z) (v : Buffer) (k : string) :
  updateElement i v st = (r, st') ->
  foreign_key (name (this st)) k ->
  k <> name (this st) \/ (exists e, r = inl e) ->
  db_get (db st') k = db_get (db st) k.
Proof.
  intros E Hk Hor. revert E. unfold updateElement. cbv zeta. rewrite bind_run.
  pose proof (own_writes_writeNode (name (this st)) 0 i (hash v) st eq_refl) as [Hn1 Hk1].
  destruct (writeNode 0 i (hash v) st) as [[e|[]] st1]; cbn [snd] in *;
    [intros E; injection E as <- <-; apply Hk1; exact Hk|].
  rewrite bind_run. unfold this_depth at 1. rewrite bind_run.
  pose proof (own_writes_updateElement_loop (name (this st))
                (Z.to_nat (depth (this st1))) 1 i (hash v) st1 Hn1) as [Hn2 Hk2].
  destruct (updateElement_loop _ 1 i (hash v) st1) as [[e|x] st2]; cbn [snd] in *;
    [intros E; injection E as <- <-; rewrite Hk2, Hk1 by exact Hk; reflexivity|].
  rewrite bind_run. unfold set_root at 1. rewrite bind_run.
  destruct (writeMetaData _) as [[e|[]] st3] eqn:Ew; intros E.
  - injection E as <- <-.
    destruct (writeMetaData_frame _ _ _ k Ew) as [Hg _]; [right; eauto|].
    rewrite Hg. cbn [db]. rewrite Hk2, Hk1 by exact Hk. reflexivity.
  - unfold this_root in E. injection E as <- <-.
    destruct Hor as [Hne|[e He]]; [|discriminate].
    destruct (writeMetaData_frame _ _ _ k Ew) as [Hg _];
      [left; cbn [this with_root name]; rewrite Hn2; exact Hne|].
    rewrite Hg. cbn [db]. rewrite Hk2, Hk1 by exact Hk. reflexivity.
Qed.

(** X8.  [updateElement] on the tree [nm], whether it returns or throws,
    changes nothing under a key that is neither a node key of the tree nor
    its name; and when it throws, the record under the name is left as it
    was too, provided the name is not itself a node key of the tree. *)
Theorem updateElement_frame {DB : Type} `{LevelUp DB} `{!LevelUpLaws DB}
    (st : State DB) (i : Z) (v : Buffer) (k : string) :
  foreign_key (name (this st)) k ->
  k <> name (this st) \/ (exists e, fst (updateElement i v st) = inl e) ->
  db_get (db (snd (updateElement i v st))) k = db_get (db st) k.
Proof.
  intros Hk Hor. destruct (updateElement i v st) as [r st'] eqn:E. cbn [fst snd] in *.
  exact (updateElement_frame_run st st' r i v k E Hk Hor).
Qed.

(** The decoder never yields the empty string on a non-empty input. *)
Lemma decode_nonempty (bs : list byte) :
  forall st, bs <> [] \/ st <> None -> UTF8.decode st bs <> [].
Proof.
  induction bs as [|b rest IH]; intros st Hor.
  - destruct st; [discriminate|]. destruct Hor as [Hn|Hn]; contradiction.
  - cbn [UTF8.decode]. destruct st as [p|].
    + destruct (_ && _).
      * destruct (UTF8.needed p) as [|[|n]].
        -- apply IH. right. discriminate.
        -- destruct (UTF8.seen p); discriminate.
        -- apply IH. right. discriminate.
      * destruct (UTF8.lead b). discriminate.
    + unfold UTF8.lead. cbv zeta.
      repeat (match goal with |- context [if ?c then _ else _] => destruct c end;
              try discriminate; try (apply IH; right; discriminate)).
Qed.

Lemma toString_nonempty (buf : Buffer) : buf <> [] -> UTF8.toString buf <> ""%string.
Proof.
  intros Hb. unfold UTF8.toString.
  pose proof (decode_nonempty buf None (or_introl Hb)) as Hd.
  destruct (UTF8.decode None buf); [contradiction|discriminate].
Qed.

(** The empty key is no node key of any tree. *)
Lemma foreign_key_empty (nm : string) : foreign_key nm "".
Proof.
  intros l j _ _. unfold storeKey. apply toString_nonempty.
  intros E. apply (f_equal (@length byte)) in E. rewrite hash_length in E. discriminate.
Qed.

Lemma updateElement_frame_witness :
  db_get (db (snd (updateElement 1 [x01] (state_d1 "t")))) ""
  = db_get (db (state_d1 "t")) "".
Proof.
  apply (updateElement_frame (state_d1 "t") 1 [x01] "").
  - apply foreign_key_empty.
  - left. discriminate.
Defined.

(** ** The root is the Merkle hash of the leaves *)

Lemma in_tree_leaf (D j : Z) : 0 <= D -> 0 <= j < 2 ^ D -> in_tree D 0 j.
Proof. intros HD Hj. unfold in_tree. rewrite Z.sub_0_r. split; [split|]; auto. reflexivity. Qed.

Section Leaves.

Context {DB : Type} `{LevelUp DB} `{!LevelUpLaws DB} `{!Reliable DB}.

Variables (nm : string) (D i : Z).

Hypothesis HD : 1 <= D <= 32.
Hypothesis Hdistinct : keys_distinct nm D.
Hypothesis Hi : 0 <= i < 2 ^ D.
Hypothesis Hi31 : i < 2 ^ 31.

(** The loop of [updateElement] writes above the leaves only. *)
Lemma updateElement_loop_leaves (fuel : nat) :
  forall (l : Z) (h x : Buffer) (st st' : State DB),
    wf nm D st -> 1 <= l <= D + 1 -> length h = 32%nat ->
    updateElement_loop fuel l (i / 2 ^ (l - 1)) h st = (inr x, st') ->
    forall j, 0 <= j < 2 ^ D -> node nm (db st') 0 j = node nm (db st) 0 j.
Proof.
  induction fuel as [|fuel IH]; intros l h x st st' Hwf Hl Hh;
    cbn [updateElement_loop]; unfold bind at 1; unfold this_depth at 1;
    cbn [fst snd]; pose proof Hwf as (Hn & Hd & Hc); rewrite Hd;
    destruct (Z.leb_spec l D) as [Hle|Hgt]; unfold throw, ret;
    try discriminate;
    try (intros E; injection E as <- <-; reflexivity).
  assert (Hj : 0 <= i / 2 ^ (l - 1) < 2 ^ 31) by (eapply ancestor_small; eauto; lia).
  pose proof (xor_small_range _ Hj) as Hx.
  destruct (readNode_spec nm D (l - 1) (JS.xor (i / 2 ^ (l - 1)) 1) st)
    as (st1 & E1 & Hwf1 & Hdb1 & Hr1);
    [exact Hwf|unfold uint32; lia|unfold uint32; lia|].
  unfold bind at 1. rewrite E1.
  rewrite sar_small by exact Hj.
  replace (i / 2 ^ (l - 1) / 2) with (i / 2 ^ l)
    by (rewrite div_pow_succ by lia; f_equal; f_equal; lia).
  set (h' := if JS.not _ then _ else _).
  assert (Hh' : length h' = 32%nat)
    by (subst h'; destruct (JS.not _); apply compress_length).
  pose proof (in_tree_ancestor D i l Hi ltac:(lia)) as Hin.
  pose proof Hin as [_ Hp].
  pose proof (pow2_le_32 (D - l) ltac:(lia)) as Hpow.
  destruct (writeNode_spec nm D l (i / 2 ^ l) h' st1) as (st2 & Ht2 & Hcase);
    [exact Hwf1|unfold uint32; lia|unfold uint32; lia|lia|].
  pose proof (wf_this nm D st1 st2 Ht2 Hwf1) as Hwf2.
  unfold bind at 1.
  destruct Hcase as [(e & E2 & _)|[E2 Hput]]; rewrite E2; [discriminate|].
  intros E j Hjr. rewrite Hdb1 in Hput.
  replace (i / 2 ^ l) with (i / 2 ^ (l + 1 - 1)) in E
    by (f_equal; f_equal; lia).
  rewrite (IH (l + 1) h' x st2 st' Hwf2 ltac:(lia) Hh' E j Hjr).
  apply (node_put_in_tree nm D Hdistinct _ _ _ _ _ _ _ Hput Hin (in_tree_leaf D j ltac:(lia) Hjr)).
  intros Eq. injection Eq as Eq _. lia.
Qed.

(** A successful [updateElement(i, v)] sets leaf [i] to the hash of [v] and
    leaves the other leaves as they were. *)
Lemma updateElement_leaves (st st' : State DB) (v r : Buffer) :
  wf nm D st -> updateElement i v st = (inr r, st') ->
  forall j, 0 <= j < 2 ^ D ->
            node nm (db st') 0 j = if j =? i then hash v else node nm (db st) 0 j.
Proof.
  intros Hwf. unfold updateElement. unfold bind at 1.
  pose proof (pow2_le_32 D ltac:(lia)) as Hpow.
  destruct (writeNode_spec nm D 0 i (hash v) st) as (st1 & Ht1 & Hcase);
    [exact Hwf|unfold uint32; lia|unfold uint32; lia|rewrite hash_length; lia|].
  pose proof (wf_this nm D st st1 Ht1 Hwf) as Hwf1.
  destruct Hcase as [(e & E1 & _)|[E1 Hput1]]; rewrite E1; [discriminate|].
  unfold bind at 1. unfold this_depth at 1. cbn [fst snd]. unfold bind at 1.
  destruct (updateElement_loop (Z.to_nat (depth (this st1))) 1 i (hash v) st1)
    as [[e|x] st2] eqn:EL; [discriminate|].
  replace i with (i / 2 ^ (1 - 1)) in EL at 1
    by (change (2 ^ (1 - 1)) with 1; apply Z.div_1_r).
  pose proof (updateElement_loop_leaves _ 1 (hash v) x st1 st2 Hwf1 ltac:(lia)
                (hash_length v) EL) as Hleaves.
  destruct (updateElement_loop_total nm D (Z.to_nat (depth (this st1))) HD 1
              (i / 2 ^ (1 - 1)) (hash v) st1) as (x' & st2' & EL' & Hwf2);
    [exact Hwf1|lia|destruct Hwf1 as (_ & -> & _); lia
    |change (2 ^ (1 - 1)) with 1; rewrite Z.div_1_r;
     replace (D + 1 - 1) with D by lia; lia
    |change (2 ^ (1 - 1)) with 1; rewrite Z.div_1_r; lia
    |apply hash_length|].
  rewrite EL in EL'. injection EL' as <- <-.
  unfold bind at 1. unfold set_root at 1. cbn [fst snd]. unfold bind at 1.
  destruct Hwf2 as (Hn2 & Hd2 & Hc2).
  rewrite writeMetaData_eq by (cbn; rewrite Hd2; unfold uint32; lia).
  unfold store_put. cbn [this db log with_root name depth root].
  destruct (db_put (db st2) (name (this st2)) (metaRecord x (depth (this st2))))
    as [e|d'] eqn:Hput2; [discriminate|].
  unfold this_root. cbn. intros E j Hj. injection E as <- <-. cbn [db].
  rewrite Hn2 in Hput2.
  rewrite (node_put_meta nm D Hdistinct _ _ _ _ _ Hput2 (in_tree_leaf D j ltac:(lia) Hj)).
  rewrite (Hleaves j Hj).
  destruct (Z.eqb_spec j i) as [->|Hne].
  - apply (node_put_same nm _ _ _ _ _ Hput1).
  - apply (node_put_in_tree nm D Hdistinct _ _ _ _ _ _ _ Hput1
             (in_tree_leaf D i ltac:(lia) Hi) (in_tree_leaf D j ltac:(lia) Hj)).
    intros Eq. injection Eq as Eq. contradiction.
Qed.

End Leaves.

Lemma merkle_hash_ext (f g : Z -> Buffer) (l : nat) :
  forall j, 0 <= j ->
    (forall k, 2 ^ Z.of_nat l * j <= k < 2 ^ Z.of_nat l * (j + 1) -> f k = g k) ->
    merkle_hash f l j = merkle_hash g l j.
Proof.
  induction l as [|l IH]; intros j Hj Hfg; cbn [merkle_hash].
  - apply Hfg. cbn. lia.
  - assert (Hp : 0 < 2 ^ Z.of_nat l) by (apply Z.pow_pos_nonneg; lia).
    rewrite Nat2Z.inj_succ, Z.pow_succ_r in Hfg by lia.
    f_equal; apply IH; try lia; intros k Hk; apply Hfg; nia.
Qed.

(** In a consistent store every node is the Merkle hash of the leaves below
    it. *)
Lemma merkle_node {DB : Type} `{LevelUp DB} (nm : string) (D : Z) (d : DB) :
  merkle nm D d ->
  forall (l : nat) (j : Z),
    Z.of_nat l <= D -> 0 <= j < 2 ^ (D - Z.of_nat l) ->
    node nm d (Z.of_nat l) j = merkle_hash (node nm d 0) l j.
Proof.
  intros Hm. induction l as [|l IH]; intros j Hl Hj; [reflexivity|].
  cbn [merkle_hash]. rewrite Nat2Z.inj_succ in *. unfold Z.succ in *.
  assert (Hj' : 0 <= j < 2 ^ (D - Z.of_nat l - 1))
    by (replace (D - Z.of_nat l - 1) with (D - (Z.of_nat l + 1)) by lia; exact Hj).
  rewrite (Hm (Z.of_nat l) j ltac:(lia) Hj').
  assert (Hd : 2 ^ (D - Z.of_nat l) = 2 * 2 ^ (D - Z.of_nat l - 1))
    by (rewrite <- pow2_double by lia; f_equal; lia).
  rewrite !IH by lia. reflexivity.
Qed.

Section Functional.

Context {DB : Type} `{LevelUp DB} `{!LevelUpLaws DB} `{!Reliable DB}.

Variables (nm : string) (D : Z) (d0 : DB).

Hypothesis HD : 1 <= D <= 32.
Hypothesis Hdistinct : keys_distinct nm D.
Hypothesis Hmeta0 : exists e, db_get d0 nm = inl e.
Hypothesis Hempty :
  forall l j, in_tree D l j -> exists e, db_get d0 (storeKey nm l j) = inl e.

(** Every leaf of a tree just created is the hash of 64 zero bytes. *)
Lemma new_leaves (d : DB) (t : MerkleTree) (l : list Access) :
  new d0 [] nm D = (inr t, (d, l)) ->
  forall j, 0 <= j < 2 ^ D -> node nm d 0 j = hash (Buf.alloc 64).
Proof.
  destruct Hmeta0 as [e Hget]. unfold new. rewrite meta_key, Hget.
  destruct (constructor_fresh nm D HD) as (h & Hh & ->).
  rewrite writeMetaData_eq by (unfold uint32; cbn; lia).
  unfold store_put. cbn [this db log name depth root].
  destruct (db_put d0 nm (metaRecord (emptyHash_rec (Z.to_nat D)) D)) as [e2|d'] eqn:Hput;
    [discriminate|].
  intros E j Hj. injection E as <- <- <-. cbn [db].
  pose proof (in_tree_leaf D j ltac:(lia) Hj) as Hin.
  rewrite (node_put_meta nm D Hdistinct _ _ _ _ _ Hput Hin).
  unfold node. destruct (Hempty 0 j Hin) as [e' ->]. reflexivity.
Qed.

(** A run of updates with indices of the tree below 2^31 returns, keeps the
    tree consistent and leaves the leaves last written. *)
Lemma updateAll_spec (us : list (Z * Buffer)) :
  forall (st : State DB) (leaf : Z -> Buffer),
    merkle_inv nm D st ->
    (forall j, 0 <= j < 2 ^ D -> node nm (db st) 0 j = leaf j) ->
    Forall (fun u => 0 <= fst u < 2 ^ D /\ fst u < 2 ^ 31) us ->
    exists st', updateAll us st = (inr tt, st')
                /\ merkle_inv nm D st'
                /\ forall j, 0 <= j < 2 ^ D ->
                     node nm (db st') 0 j
                     = fold_left (fun leaf u j => if j =? fst u then hash (snd u)
                                                  else leaf j) us leaf j.
Proof.
  induction us as [|[i v] us IH]; intros st leaf Hinv Hleaf Hus; cbn [updateAll fold_left].
  - exists st. auto.
  - apply Forall_cons in Hus. destruct Hus as [[Hi Hi31] Hus]. cbn [fst snd] in *.
    destruct (updateElement_total nm D i v st) as (r & st1 & E);
      [apply Hinv|exact HD|exact Hi|exact Hi31|].
    rewrite bind_run, E.
    pose proof (updateElement_merkle nm D i HD Hdistinct Hi Hi31 st st1 v r Hinv E)
      as Hinv1.
    apply IH; [exact Hinv1| |exact Hus].
    intros j Hj.
    rewrite (updateElement_leaves nm D i HD Hdistinct Hi Hi31 st st1 v r
               (proj1 Hinv) E j Hj).
    rewrite (Hleaf j Hj). reflexivity.
Qed.

End Functional.

(** After a run of updates the root field and every node of the store are
    Merkle hashes of the leaves last written. *)
Lemma updateAll_merkle_hash {DB : Type} `{LevelUp DB} `{!LevelUpLaws DB} `{!Reliable DB}
    (d0 d : DB) (nm : string) (D : Z) (t : MerkleTree) (l : list Access)
    (us : list (Z * Buffer)) :
  1 <= D <= 32 ->
  keys_distinct nm D ->
  (exists e, db_get d0 nm = inl e) ->
  (forall l j, in_tree D l j -> exists e, db_get d0 (storeKey nm l j) = inl e) ->
  new d0 [] nm D = (inr t, (d, l)) ->
  Forall (fun u => 0 <= fst u < 2 ^ D /\ fst u < 2 ^ 31) us ->
  exists st,
    updateAll us {| this := t; db := d; log := l |} = (inr tt, st)
    /\ wf nm D st
    /\ root (this st) = merkle_hash (leaves_after us) (Z.to_nat D) 0
    /\ forall level index,
         in_tree D level index ->
         node nm (db st) level index
         = merkle_hash (leaves_after us) (Z.to_nat level) index.
Proof.
  intros HD Hdistinct Hmeta0 Hempty Hnew Hus.
  pose proof (new_merkle_inv nm D d0 HD Hdistinct Hmeta0 Hempty d t l Hnew) as Hinv.
  pose proof (new_leaves nm D d0 HD Hdistinct Hmeta0 Hempty d t l Hnew) as Hleaf.
  destruct (updateAll_spec nm D HD Hdistinct us _ (fun _ => hash (Buf.alloc 64))
              Hinv Hleaf Hus) as (st & E & (Hwf & Hm & Hroot) & Hleaves).
  fold (leaves_after us) in Hleaves.
  assert (Hnode : forall level index, in_tree D level index ->
            node nm (db st) level index
            = merkle_hash (leaves_after us) (Z.to_nat level) index).
  { intros level index [Hl Hj].
    pose proof (merkle_node nm D (db st) Hm (Z.to_nat level) index) as Hn.
    rewrite Z2Nat.id in Hn by lia. rewrite Hn by lia.
    apply merkle_hash_ext; [lia|]. intros k Hk. apply Hleaves.
    rewrite Z2Nat.id in Hk by lia.
    assert (Hpow : 2 ^ D = 2 ^ level * 2 ^ (D - level))
      by (rewrite <- Z.pow_add_r by lia; f_equal; lia).
    assert (0 < 2 ^ level) by (apply Z.pow_pos_nonneg; lia).
    nia. }
  exists st. split; [exact E|]. split; [exact Hwf|]. split; [|exact Hnode].
  rewrite <- Hroot. apply Hnode.
  unfold in_tree. replace (D - D) with 0 by lia. change (2 ^ 0) with 1. lia.
Qed.

(** X9.  The tree computes the Merkle root of its leaves.  On a tree
    freshly created in a store that holds none of its keys, a run of
    [updateElement] calls with indices of the tree below 2^31 returns, and
    afterwards [getRoot] is the Merkle hash, at the root, of the leaves
    last written (the hash of 64 zero bytes where nothing was written), and
    [readNode] at every node of the tree is the Merkle hash of the leaves
    below it.  The store reads back what was written and rejects no write,
    and the keys of the tree are pairwise distinct. *)
Theorem root_is_merkle_hash {DB : Type} `{LevelUp DB} `{!LevelUpLaws DB} `{!Reliable DB}
    (d0 d : DB) (nm : string) (D : Z) (t : MerkleTree) (l : list Access)
    (us : list (Z * Buffer)) :
  1 <= D <= 32 ->
  keys_distinct nm D ->
  (exists e, db_get d0 nm = inl e) ->
  (forall l j, in_tree D l j -> exists e, db_get d0 (storeKey nm l j) = inl e) ->
  new d0 [] nm D = (inr t, (d, l)) ->
  Forall (fun u => 0 <= fst u < 2 ^ D /\ fst u < 2 ^ 31) us ->
  exists st,
    updateAll us {| this := t; db := d; log := l |} = (inr tt, st)
    /\ fst (getRoot st) = inr (merkle_hash (leaves_after us) (Z.to_nat D) 0)
    /\ forall level index,
         in_tree D level index ->
         fst (readNode level index st)
         = inr (merkle_hash (leaves_after us) (Z.to_nat level) index).
Proof.
  intros HD Hdistinct Hmeta0 Hempty Hnew Hus.
  destruct (updateAll_merkle_hash d0 d nm D t l us HD Hdistinct Hmeta0 Hempty Hnew Hus)
    as (st & E & Hwf & Hroot & Hnode).
  exists st. split; [exact E|]. split.
  - unfold getRoot, this_root. cbn [fst]. rewrite Hroot. reflexivity.
  - intros level index Hin. pose proof Hin as [Hl Hj].
    pose proof (pow2_le_32 (D - level) ltac:(lia)) as Hpow.
    destruct (readNode_spec nm D level index st Hwf) as (st' & -> & _);
      [unfold uint32; lia|unfold uint32; lia|].
    cbn [fst]. rewrite (Hnode level index Hin). reflexivity.
Qed.

Lemma created_new (nm : string) (D : Z) :
  1 <= D <= 32 ->
  new (∅ : gmap string Buffer) [] nm D
  = (inr (this (created ∅ nm D)), (db (created ∅ nm D), log (created ∅ nm D))).
Proof.
  intros HD. unfold created.
  destruct (new_fresh (∅ : gmap string Buffer) _ [] nm D NotFoundError HD
              (MemDown_get_empty nm) eq_refl) as (h & _ & ->).
  reflexivity.
Qed.

Lemma root_is_merkle_hash_witness :
  exists st,
    updateAll [(1, list_byte_of_string "a")]
              {| this := this (created ∅ "t" 1); db := db (created ∅ "t" 1);
                 log := log (created ∅ "t" 1) |} = (inr tt, st)
    /\ fst (getRoot st)
       = inr (merkle_hash (leaves_after [(1, list_byte_of_string "a")]) (Z.to_nat 1) 0)
    /\ forall level index,
         in_tree 1 level index ->
         fst (readNode level index st)
         = inr (merkle_hash (leaves_after [(1, list_byte_of_string "a")])
                            (Z.to_nat level) index).
Proof.
  apply (root_is_merkle_hash (∅ : gmap string Buffer) _ "t" 1 _ _
           [(1, list_byte_of_string "a")]).
  - lia.
  - apply keys_distinct_t1.
  - exists NotFoundError. apply MemDown_get_empty.
  - intros l j _. exists NotFoundError. apply MemDown_get_empty.
  - apply created_new. lia.
  - apply Forall_cons. split; [cbn; lia|apply Forall_nil; exact I].
Defined.

(** ** The indices the methods accept *)

Lemma shifted_small (i k : Z) : 0 <= i < 2 ^ 31 -> 0 <= k -> 0 <= i / 2 ^ k < 2 ^ 31.
Proof.
  intros Hi Hk. assert (0 < 2 ^ k) by (apply Z.pow_pos_nonneg; lia).
  split; [apply Z.div_pos; lia|].
  apply Z.le_lt_trans with i; [|lia].
  apply Z.div_le_upper_bound; [lia|]. nia.
Qed.

Section Domain.

Context {DB : Type} `{LevelUp DB}.

Variables (nm : string) (D i : Z).

Hypothesis HD : 1 <= D <= 32.
Hypothesis Hi : 0 <= i < 2 ^ 31.

(** The pair of a level as the loop of [getHashPath] builds it. *)
Lemma pathPair_loop (d : DB) (l : Z) :
  0 <= l ->
  pathPair nm d i l
  = if JS.not (JS.and (i / 2 ^ l) 1)
    then (node nm d l (i / 2 ^ l), node nm d l (JS.xor (i / 2 ^ l) 1))
    else (node nm d l (JS.xor (i / 2 ^ l) 1), node nm d l (i / 2 ^ l)).
Proof.
  intros Hl. pose proof (shifted_small i l Hi Hl) as Hj.
  unfold pathPair. rewrite Z.shiftr_div_pow2 by lia.
  rewrite and_small by exact Hj.
  assert (JS.xor (i / 2 ^ l) 1 = Z.lxor (i / 2 ^ l) 1) as ->
      by (unfold JS.xor; rewrite !ToInt32_small by lia; reflexivity).
  reflexivity.
Qed.

(** The loop of [getHashPath] never compares the index with the size of
    the tree: below 2^31 it runs through all the levels. *)
Lemma getHashPath_loop_any (fuel : nat) :
  forall (l : Z) (acc : list (Buffer * Buffer)) (st : State DB),
    wf nm D st -> 0 <= l <= D -> D - l <= Z.of_nat fuel ->
    exists st',
      getHashPath_loop fuel l (i / 2 ^ l) acc st
      = (inr (acc ++ map (pathPair nm (db st) i) (levels l (Z.to_nat (D - l)))), st')
      /\ wf nm D st' /\ db st' = db st
      /\ log st' = log st ++ flat_map (path_gets nm i) (levels l (Z.to_nat (D - l))).
Proof.
  induction fuel as [|fuel IH]; intros l acc st Hwf Hl Hf;
    cbn [getHashPath_loop]; unfold bind at 1; unfold this_depth at 1;
    cbn [fst snd]; pose proof Hwf as (Hn & Hd & Hc); rewrite Hd;
    destruct (Z.ltb_spec l D) as [Hlt|Hge]; try lia;
    try (exists st; replace (D - l) with 0 by lia; cbn [Z.to_nat levels seq map];
         cbn [flat_map]; rewrite !app_nil_r; auto; fail).
  pose proof (shifted_small i l Hi ltac:(lia)) as Hj.
  pose proof (xor_small_range _ Hj) as Hx.
  destruct (readNode_spec nm D l (JS.xor (i / 2 ^ l) 1) st)
    as (st1 & E1 & Hwf1 & Hdb1 & Hr1);
    [exact Hwf|unfold uint32; lia|unfold uint32; lia|].
  pose proof (readNode_log l (JS.xor (i / 2 ^ l) 1) st
                ltac:(unfold uint32; lia) ltac:(unfold uint32; lia)) as Hlog1.
  rewrite E1 in Hlog1. cbn [snd] in Hlog1.
  unfold bind at 1. rewrite E1.
  destruct (readNode_spec nm D l (i / 2 ^ l) st1)
    as (st2 & E2 & Hwf2 & Hdb2 & Hr2);
    [exact Hwf1|unfold uint32; lia|unfold uint32; lia|].
  pose proof (readNode_log l (i / 2 ^ l) st1
                ltac:(unfold uint32; lia) ltac:(unfold uint32; lia)) as Hlog2.
  rewrite E2 in Hlog2. cbn [snd] in Hlog2.
  unfold bind at 1. rewrite E2. rewrite Hdb1.
  rewrite sar_small by exact Hj. rewrite div_pow_succ by lia.
  destruct (IH (l + 1)
              (if JS.not (JS.and (i / 2 ^ l) 1)
               then acc ++ [(node nm (db st) l (i / 2 ^ l),
                             node nm (db st) l (JS.xor (i / 2 ^ l) 1))]
               else acc ++ [(node nm (db st) l (JS.xor (i / 2 ^ l) 1),
                             node nm (db st) l (i / 2 ^ l))])
              st2 Hwf2 ltac:(lia) ltac:(lia)) as (st' & E & Hwf' & Hdb' & Hlog').
  exists st'. rewrite E.
  replace (Z.to_nat (D - l)) with (S (Z.to_nat (D - (l + 1)))) by lia.
  rewrite levels_S.
  split; [|split; [exact Hwf'|split; [congruence|]]].
  - f_equal. f_equal. cbn [map]. rewrite Hdb2, Hdb1.
    rewrite (pathPair_loop (db st) l) by lia.
    destruct (JS.not _); rewrite <- app_assoc; reflexivity.
  - rewrite Hlog', Hlog2, Hlog1. rewrite <- !app_assoc.
    destruct Hwf1 as (Hn1 & _). rewrite Hn, Hn1.
    cbn [flat_map path_gets app]. rewrite Z.shiftr_div_pow2 by lia.
    assert (JS.xor (i / 2 ^ l) 1 = Z.lxor (i / 2 ^ l) 1) as ->
        by (unfold JS.xor; rewrite !ToInt32_small by lia; reflexivity).
    reflexivity.
Qed.

Lemma getHashPath_any (st : State DB) :
  wf nm D st ->
  exists st',
    getHashPath i st
    = (inr {| data := map (pathPair nm (db st) i) (levels 0 (Z.to_nat D)) |}, st')
    /\ db st' = db st
    /\ log st' = log st ++ flat_map (path_gets nm i) (levels 0 (Z.to_nat D)).
Proof.
  intros Hwf. unfold getHashPath. unfold bind at 1. unfold this_depth at 1.
  cbn [fst snd]. pose proof Hwf as (Hn & Hd & Hc). rewrite Hd. unfold bind at 1.
  destruct (getHashPath_loop_any (Z.to_nat D) 0 [] st Hwf ltac:(lia) ltac:(lia))
    as (st' & E & _ & Hdb & Hlog).
  change (2 ^ 0) with 1 in E. rewrite Z.div_1_r in E. rewrite E. cbn [app].
  replace (D - 0) with D in * by lia. exists st'. split; [reflexivity|]. split; assumption.
Qed.

End Domain.

(** Outside [0, 2^31) the first level already fails: one of the two reads
    has an index that [writeUInt32LE] refuses. *)
Lemma getHashPath_outside {DB : Type} `{LevelUp DB} (st : State DB) (i : Z) :
  1 <= depth (this st) <= 32 -> cache_ok (hasher (this st)) ->
  ~ (0 <= i < 2 ^ 31) ->
  fst (getHashPath i st) = inl RangeError.
Proof.
  intros HD Hc Hi. unfold getHashPath. unfold bind at 1. unfold this_depth at 1.
  cbn [fst snd]. unfold bind at 1.
  destruct (Z.to_nat (depth (this st))) as [|fuel] eqn:Ef; [lia|].
  cbn [getHashPath_loop]. unfold bind at 1. unfold this_depth at 1. cbn [fst snd].
  destruct (Z.ltb_spec 0 (depth (this st))); [|lia].
  unfold bind at 1.
  destruct (uint32_dec (JS.xor i 1)) as [Hx|Hx].
  - destruct (readNode_spec (name (this st)) (depth (this st)) 0 (JS.xor i 1) st)
      as (st1 & -> & _); [unfold wf; auto|unfold uint32; lia|exact Hx|].
    unfold bind at 1. rewrite readNode_range; [reflexivity|].
    intros [_ Hu]. unfold uint32 in Hu, Hx.
    assert (Hh : 2 ^ 31 <= i < 2 ^ 32) by lia.
    pose proof (xor_high i Hh). lia.
  - rewrite readNode_range; [reflexivity|tauto].
Qed.

(** X10.  [getHashPath] never compares the index with the size of the
    tree.  On a tree of any depth it returns for exactly the indices
    [0 <= i < 2^31], those at or beyond [2^depth] included: the pairs are
    those of the levels [0 .. depth-1] at the indices [i >> l] and their
    siblings, and the store is left as it was.  For every other integer it
    throws a RangeError. *)
Theorem getHashPath_domain {DB : Type} `{LevelUp DB} (st : State DB) (i : Z) :
  1 <= depth (this st) <= 32 -> cache_ok (hasher (this st)) ->
  (0 <= i < 2 ^ 31 ->
   exists p st',
     getHashPath i st = (inr p, st')
     /\ data p = map (pathPair (name (this st)) (db st) i)
                     (levels 0 (Z.to_nat (depth (this st))))
     /\ db st' = db st)
  /\ (~ (0 <= i < 2 ^ 31) -> fst (getHashPath i st) = inl RangeError).
Proof.
  intros HD Hc. split.
  - intros Hi.
    destruct (getHashPath_any (name (this st)) (depth (this st)) i HD Hi st)
      as (st' & E & Hdb & _); [unfold wf; auto|].
    eexists _, st'. split; [exact E|]. split; [reflexivity|exact Hdb].
  - apply getHashPath_outside; assumption.
Qed.

Lemma getHashPath_domain_witness :
  (0 <= 5 < 2 ^ 31 ->
   exists p st',
     getHashPath 5 (state_d1 "t") = (inr p, st')
     /\ data p = map (pathPair (name (this (state_d1 "t"))) (db (state_d1 "t")) 5)
                     (levels 0 (Z.to_nat (depth (this (state_d1 "t")))))
     /\ db st' = db (state_d1 "t"))
  /\ (~ (0 <= 5 < 2 ^ 31) -> fst (getHashPath 5 (state_d1 "t")) = inl RangeError).
Proof.
  apply (getHashPath_domain (state_d1 "t") 5).
  - cbn. lia.
  - apply new_Sha256Hasher_ok.
Defined.

Section UpdateDomain.

Context {DB : Type} `{LevelUp DB} `{!LevelUpLaws DB} `{!Reliable DB}.

Variables (nm : string) (D : Z).

Hypothesis HD : 1 <= D <= 32.

(** The loop of [updateElement] never compares the index with the size of
    the tree either: from any index below 2^31 it runs through all the
    levels, and what it returns is the node it wrote last, on level [D]. *)
Lemma updateElement_loop_any (fuel : nat) :
  forall (l j : Z) (h : Buffer) (st : State DB),
    wf nm D st -> 1 <= l <= D -> D + 1 - l <= Z.of_nat fuel ->
    0 <= j < 2 ^ 31 -> length h = 32%nat ->
    exists x st',
      updateElement_loop fuel l j h st = (inr x, st')
      /\ wf nm D st' /\ node nm (db st') D (j / 2 ^ (D + 1 - l)) = x.
Proof.
  induction fuel as [|fuel IH]; intros l j h st Hwf Hl Hf Hj Hh; [lia|].
  cbn [updateElement_loop]. unfold bind at 1. unfold this_depth at 1.
  cbn [fst snd]. pose proof Hwf as (Hn & Hd & Hc). rewrite Hd.
  destruct (Z.leb_spec l D); [|lia].
  unfold bind at 1.
  pose proof (xor_small_range j Hj) as Hx.
  destruct (readNode_spec nm D (l - 1) (JS.xor j 1) st) as (st1 & -> & Hwf1 & _);
    [exact Hwf|unfold uint32; lia|unfold uint32; lia|].
  unfold bind at 1.
  set (h' := if JS.not (JS.and j 1) then _ else _).
  assert (Hh' : length h' = 32%nat)
    by (subst h'; destruct (JS.not _); apply compress_length).
  rewrite sar_small by exact Hj.
  assert (Hj2 : 0 <= j / 2 < 2 ^ 31).
  { pose proof (shifted_small j 1 Hj ltac:(lia)) as Hs.
    change (2 ^ 1) with 2 in Hs. exact Hs. }
  destruct (writeNode_ok nm D l (j / 2) h' st1) as (st2 & -> & Ht & Hput);
    [exact Hwf1|unfold uint32; lia|unfold uint32; lia|lia|].
  pose proof (wf_this nm D st1 st2 Ht Hwf1) as Hwf2.
  destruct (Z.eq_dec l D) as [->|Hne].
  - exists h', st2.
    replace (D + 1 - D) with 1 by lia. change (2 ^ 1) with 2.
    split; [|split; [exact Hwf2|apply (node_put_same nm _ _ _ _ _ Hput)]].
    destruct Hwf2 as (_ & Hd2 & _).
    assert (Hb : (D + 1 <=? D) = false) by (apply Z.leb_gt; lia).
    destruct fuel; cbn [updateElement_loop]; unfold bind at 1; unfold this_depth at 1;
      cbn [fst snd]; rewrite Hd2, Hb; reflexivity.
  - destruct (IH (l + 1) (j / 2) h' st2 Hwf2 ltac:(lia) ltac:(lia) Hj2 Hh')
      as (x & st' & E & Hwf' & Hnode).
    exists x, st'. split; [exact E|]. split; [exact Hwf'|].
    rewrite <- Hnode. apply (f_equal (node nm (db st') D)).
    replace (D + 1 - l) with (1 + (D + 1 - (l + 1))) by lia.
    rewrite Z.pow_add_r by lia. change (2 ^ 1) with 2.
    rewrite Z.div_div by (try apply Z.pow_pos_nonneg; lia). reflexivity.
Qed.

(** [updateElement] at any index below 2^31: it returns, the value returned
    is the new root field, and it is the node written last, on level [D] at
    the index [i / 2^D]. *)
Lemma updateElement_any (i : Z) (v : Buffer) (st : State DB) :
  wf nm D st -> 0 <= i < 2 ^ 31 ->
  exists r st',
    updateElement i v st = (inr r, st')
    /\ root (this st') = r /\ wf nm D st'
    /\ (storeKey nm D (i / 2 ^ D) <> nm -> node nm (db st') D (i / 2 ^ D) = r).
Proof.
  intros Hwf Hi. unfold updateElement. unfold bind at 1.
  destruct (writeNode_ok nm D 0 i (hash v) st) as (st1 & -> & Ht & _);
    [exact Hwf|unfold uint32; lia|unfold uint32; lia|rewrite hash_length; lia|].
  pose proof (wf_this nm D st st1 Ht Hwf) as Hwf1.
  unfold bind at 1. unfold this_depth at 1. cbn [fst snd].
  pose proof Hwf1 as (Hn1 & Hd1 & Hc1). rewrite Hd1. unfold bind at 1.
  destruct (updateElement_loop_any (Z.to_nat D) 1 i (hash v) st1 Hwf1)
    as (x & st2 & -> & (Hn2 & Hd2 & Hc2) & Hnode);
    [lia|lia|exact Hi|apply hash_length|].
  replace (D + 1 - 1) with D in Hnode by lia.
  unfold bind at 1. unfold set_root at 1. cbn [fst snd]. unfold bind at 1.
  rewrite writeMetaData_eq by (cbn; rewrite Hd2; unfold uint32; lia).
  unfold store_put. cbn [this db log with_root name depth root].
  destruct (put_total (db st2) (name (this st2)) (metaRecord x (depth (this st2))))
    as [d' Hput].
  rewrite Hput. unfold this_root. cbn [fst snd this db log with_root root].
  eexists _, _. split; [reflexivity|]. cbn [this db root].
  split; [reflexivity|]. split; [unfold wf; cbn; auto|].
  intros Hkey. rewrite Hn2 in Hput.
  rewrite (node_put_other nm _ _ _ _ _ _ Hput Hkey). exact Hnode.
Qed.

(** From 2^31 to 2^32 - 1 the leaf is written, then the sibling index is
    negative and the first read of the loop throws. *)
Lemma updateElement_high_exact (i : Z) (v : Buffer) (st : State DB) :
  wf nm D st -> 2 ^ 31 <= i < 2 ^ 32 ->
  exists st',
    updateElement i v st = (inl RangeError, st')
    /\ this st' = this st
    /\ db_put (db st) (storeKey nm 0 i) (hash v) = inr (db st')
    /\ log st' = log st ++ [Put (storeKey nm 0 i) (hash v)].
Proof.
  intros Hwf Hi. unfold updateElement. unfold bind at 1.
  pose proof (writeNode_log 0 i (hash v) st ltac:(unfold uint32; lia)
                ltac:(unfold uint32; lia) ltac:(rewrite hash_length; lia)) as Hlog.
  destruct (writeNode_ok nm D 0 i (hash v) st) as (st1 & E & Ht & Hput);
    [exact Hwf|unfold uint32; lia|unfold uint32; lia|rewrite hash_length; lia|].
  rewrite E in Hlog |- *. cbn [snd] in Hlog.
  destruct Hwf as (Hn & Hd & _). rewrite Hn in Hlog.
  unfold bind at 1. unfold this_depth at 1. cbn [fst snd]. unfold bind at 1.
  rewrite Ht, Hd.
  destruct (Z.to_nat D) as [|fuel] eqn:Ef; [lia|].
  cbn [updateElement_loop]. unfold bind at 1. unfold this_depth at 1. cbn [fst snd].
  rewrite Ht, Hd. destruct (Z.leb_spec 1 D); [|lia].
  unfold bind at 1. rewrite readNode_range.
  - exists st1. auto.
  - pose proof (xor_high i Hi). unfold uint32. lia.
Qed.

End UpdateDomain.

(** Outside the range of [writeUInt32LE] the write of the leaf throws, and
    nothing has happened. *)
Lemma updateElement_outside {DB : Type} `{LevelUp DB} (st : State DB) (i : Z) (v : Buffer) :
  ~ uint32 i -> updateElement i v st = (inl RangeError, st).
Proof.
  intros Hi. unfold updateElement. unfold bind at 1.
  unfold writeNode, LEAF_BYTES. rewrite hash_length.
  change (64 <? Z.of_nat 32) with false. cbv iota.
  unfold bind, this_name, lift. cbn [fst snd].
  rewrite generateKey_range by tauto. reflexivity.
Qed.

(** X11.  [updateElement] never compares the index with the size of the
    tree either.  On a store that reads back what was written and rejects
    no write: for every index [0 <= i < 2^31], those at or beyond [2^depth]
    included, the call returns the new value of [getRoot()], which is the
    node of level [depth] at index [i >> depth] (not the node (depth, 0)
    when [i] is beyond the tree); for [2^31 <= i < 2^32] it throws a
    RangeError after having stored the leaf, and that put is its only
    store access; for every other integer it throws a RangeError and
    nothing has happened. *)
Theorem updateElement_domain {DB : Type} `{LevelUp DB} `{!LevelUpLaws DB} `{!Reliable DB}
    (st : State DB) (i : Z) (v : Buffer) :
  1 <= depth (this st) <= 32 -> cache_ok (hasher (this st)) ->
  (0 <= i < 2 ^ 31 ->
   exists r st',
     updateElement i v st = (inr r, st')
     /\ fst (getRoot st') = inr r
     /\ (storeKey (name (this st)) (depth (this st)) (i / 2 ^ depth (this st))
         <> name (this st) ->
         fst (readNode (depth (this st)) (i / 2 ^ depth (this st)) st') = inr r))
  /\ (2 ^ 31 <= i < 2 ^ 32 ->
      exists st',
        updateElement i v st = (inl RangeError, st')
        /\ this st' = this st
        /\ db_put (db st) (storeKey (name (this st)) 0 i) (hash v) = inr (db st')
        /\ log st' = log st ++ [Put (storeKey (name (this st)) 0 i) (hash v)])
  /\ (~ (0 <= i < 2 ^ 32) -> updateElement i v st = (inl RangeError, st)).
Proof.
  intros HD Hc.
  assert (Hwf : wf (name (this st)) (depth (this st)) st) by (unfold wf; auto).
  split; [|split].
  - intros Hi.
    destruct (updateElement_any (name (this st)) (depth (this st)) HD i v st Hwf Hi)
      as (r & st' & E & Hr & Hwf' & Hnode).
    exists r, st'. split; [exact E|]. split.
    + unfold getRoot, this_root. cbn [fst]. rewrite Hr. reflexivity.
    + intros Hkey.
      pose proof (shifted_small i (depth (this st)) Hi ltac:(lia)) as Hj.
      destruct (readNode_spec (name (this st)) (depth (this st)) (depth (this st))
                  (i / 2 ^ depth (this st)) st' Hwf') as (st2 & -> & _);
        [unfold uint32; lia|unfold uint32; lia|].
      cbn [fst]. rewrite (Hnode Hkey). reflexivity.
  - intros Hi.
    apply (updateElement_high_exact (name (this st)) (depth (this st)) HD i v st Hwf Hi).
  - intros Hi. apply updateElement_outside. unfold uint32. lia.
Qed.

Lemma updateElement_domain_witness :
  (0 <= 2 < 2 ^ 31 ->
   exists r st',
     updateElement 2 [x01] (state_d1 "t") = (inr r, st')
     /\ fst (getRoot st') = inr r
     /\ (storeKey (name (this (state_d1 "t"))) (depth (this (state_d1 "t")))
                  (2 / 2 ^ depth (this (state_d1 "t")))
         <> name (this (state_d1 "t")) ->
         fst (readNode (depth (this (state_d1 "t")))
                       (2 / 2 ^ depth (this (state_d1 "t"))) st') = inr r))
  /\ (2 ^ 31 <= 2 < 2 ^ 32 ->
      exists st',
        updateElement 2 [x01] (state_d1 "t") = (inl RangeError, st')
        /\ this st' = this (state_d1 "t")
        /\ db_put (db (state_d1 "t")) (storeKey (name (this (state_d1 "t"))) 0 2)
                  (hash [x01]) = inr (db st')
        /\ log st' = log (state_d1 "t")
                     ++ [Put (storeKey (name (this (state_d1 "t"))) 0 2) (hash [x01])])
  /\ (~ (0 <= 2 < 2 ^ 32) ->
      updateElement 2 [x01] (state_d1 "t") = (inl RangeError, state_d1 "t")).
Proof.
  apply (updateElement_domain (state_d1 "t") 2 [x01]).
  - cbn. lia.
  - apply new_Sha256Hasher_ok.
Defined.

(** ** What holds of every tree object *)

Section Sound.

Context {DB : Type} `{LevelUp DB}.

Lemma keeps_sound_refl (st : State DB) : keeps_sound st st.
Proof. intros Hs. split; [exact Hs|apply keeps_id_refl]. Qed.

Lemma keeps_sound_trans (s1 s2 s3 : State DB) :
  keeps_sound s1 s2 -> keeps_sound s2 s3 -> keeps_sound s1 s3.
Proof.
  intros H12 H23 Hs. destruct (H12 Hs) as [Hs2 K12]. destruct (H23 Hs2) as [Hs3 K23].
  split; [exact Hs3|eapply keeps_id_trans; eassumption].
Qed.

Lemma keeps_sound_this (st st' : State DB) : this st' = this st -> keeps_sound st st'.
Proof. intros Ht Hs. unfold keeps_id. rewrite Ht. auto. Qed.

Lemma writeNode_this (l j : Z) (v : Buffer) (st : State DB) :
  this (snd (writeNode l j v st)) = this st.
Proof.
  unfold writeNode. destruct (LEAF_BYTES <? _); [reflexivity|].
  unfold bind, this_name, lift. cbn [fst snd].
  destruct (generateKey _ l j); [reflexivity|].
  unfold store_put. destruct (db_put _ _ _); reflexivity.
Qed.

Lemma writeMetaData_this (st : State DB) : this (snd (writeMetaData st)) = this st.
Proof.
  unfold writeMetaData, bind, this_root, this_depth, this_name, lift. cbn [fst snd].
  destruct (Buf.writeUInt32LE _ _ 32); [reflexivity|].
  unfold store_put. destruct (db_put _ _ _); reflexivity.
Qed.

Lemma keeps_sound_readNode (l j : Z) (st : State DB) :
  keeps_sound st (snd (readNode l j st)).
Proof.
  intros (HD & Hr & Hc).
  pose proof (read_only_readNode l j st) as (Kn & Kd & Kr & _).
  split; [|split; assumption].
  split; [rewrite Kd; exact HD|]. split; [rewrite Kr; exact Hr|].
  destruct (uint32_dec l) as [Hl|Hl]; [destruct (uint32_dec j) as [Hj|Hj]|].
  - destruct (readNode_spec (name (this st)) (depth (this st)) l j st)
      as (st' & -> & (_ & _ & Hc') & _); [unfold wf; auto|exact Hl|exact Hj|].
    exact Hc'.
  - rewrite readNode_range by tauto. exact Hc.
  - rewrite readNode_range by tauto. exact Hc.
Qed.

Lemma keeps_sound_getHashPath_loop (fuel : nat) :
  forall (l j : Z) (acc : list (Buffer * Buffer)) (st : State DB),
    keeps_sound st (snd (getHashPath_loop fuel l j acc st)).
Proof.
  induction fuel as [|fuel IH]; intros l j acc; cbn [getHashPath_loop];
    (apply (step_bind keeps_sound);
     [apply keeps_sound_trans|intro; apply keeps_sound_refl|]);
    intros D st; destruct (l <? D); try apply keeps_sound_refl.
  revert st.
  apply (step_bind keeps_sound);
    [apply keeps_sound_trans|intro; apply keeps_sound_readNode|].
  intros s.
  apply (step_bind keeps_sound);
    [apply keeps_sound_trans|intro; apply keeps_sound_readNode|].
  intros s' st. apply IH.
Qed.

Lemma keeps_sound_getHashPath (i : Z) (st : State DB) :
  keeps_sound st (snd (getHashPath i st)).
Proof.
  revert st. unfold getHashPath.
  apply (step_bind keeps_sound);
    [apply keeps_sound_trans|intro; apply keeps_sound_refl|].
  intros D.
  apply (step_bind keeps_sound);
    [apply keeps_sound_trans|intro; apply keeps_sound_getHashPath_loop|].
  intros p st. apply keeps_sound_refl.
Qed.

Lemma keeps_sound_updateElement_loop (fuel : nat) :
  forall (l j : Z) (h : Buffer) (st : State DB),
    keeps_sound st (snd (updateElement_loop fuel l j h st)).
Proof.
  induction fuel as [|fuel IH]; intros l j h; cbn [updateElement_loop];
    (apply (step_bind keeps_sound);
     [apply keeps_sound_trans|intro; apply keeps_sound_refl|]);
    intros D st; destruct (l <=? D); try apply keeps_sound_refl.
  revert st.
  apply (step_bind keeps_sound);
    [apply keeps_sound_trans|intro; apply keeps_sound_readNode|].
  intros s.
  apply (step_bind keeps_sound);
    [apply keeps_sound_trans
    |intro; apply keeps_sound_this, writeNode_this|].
  intros _ st. apply IH.
Qed.

Lemma keeps_sound_updateElement (i : Z) (v : Buffer) (st : State DB) :
  keeps_sound st (snd (updateElement i v st)).
Proof.
  unfold updateElement. cbv zeta. rewrite bind_run.
  pose proof (writeNode_this 0 i (hash v) st) as Ht1.
  destruct (writeNode 0 i (hash v) st) as [[e|[]] st1]; cbn [snd] in *;
    [apply keeps_sound_this; exact Ht1|].
  rewrite bind_run. unfold this_depth at 1. rewrite bind_run.
  pose proof (keeps_sound_updateElement_loop
                (Z.to_nat (depth (this st1))) 1 i (hash v) st1) as K2.
  destruct (updateElement_loop _ 1 i (hash v) st1) as [[e|x] st2] eqn:EL;
    cbn [snd] in *;
    [eapply keeps_sound_trans; [apply keeps_sound_this; exact Ht1|exact K2]|].
  pose proof (updateElement_loop_length _ _ _ _ _ _ _ (hash_length v) EL) as Lx.
  rewrite bind_run. unfold set_root at 1. rewrite bind_run.
  set (st3 := {| this := with_root (this st2) x; db := db st2; log := log st2 |}).
  assert (K3 : keeps_sound st st3).
  { intros Hs. destruct (K2 ltac:(rewrite Ht1; exact Hs)) as [(HD & _ & Hc) [Kn Kd]].
    rewrite Ht1 in Kn, Kd. subst st3. unfold keeps_id. cbn. auto.
    split; [|auto]. split; [exact HD|]. split; [exact Lx|exact Hc]. }
  pose proof (writeMetaData_this st3) as Ht4.
  destruct (writeMetaData st3) as [[e|[]] st4]; cbn [snd] in *;
    (eapply keeps_sound_trans; [exact K3|apply keeps_sound_this; exact Ht4]).
Qed.

(** The tree [new] returns is sound and bears the name asked for, whatever
    the store holds. *)
Lemma new_sound (d d' : DB) (l l' : list Access) (nm : string) (D : Z) (t : MerkleTree) :
  new d l nm D = (inr t, (d', l')) -> sound t /\ name t = nm.
Proof.
  unfold new. rewrite meta_key. destruct (db_get d nm) as [e|meta].
  - destruct (Z_le_dec 1 D) as [H1|H1]; [destruct (Z_le_dec D 32) as [H2|H2]|];
      try (rewrite constructor_bad_depth by lia; discriminate).
    destruct (constructor_fresh nm D ltac:(lia)) as (h & Hh & ->).
    pose proof (writeMetaData_this
                  {| this := {| name := nm; depth := D;
                                root := emptyHash_rec (Z.to_nat D); hasher := h |};
                     db := d; log := l ++ [Get nm] |}) as Ht.
    destruct (writeMetaData _) as [[e'|[]] st]; [discriminate|].
    cbn [snd this] in Ht. intros E. injection E as <- _ _. rewrite Ht.
    split; [|reflexivity]. split; [cbn; lia|]. split; [|exact Hh].
    cbn [root]. apply emptyHash_rec_length.
  - destruct (le_lt_dec 36 (length meta)) as [Hlen|Hlen];
      [|rewrite readUInt32LE_short by exact Hlen; discriminate].
    destruct (Buf.readUInt32LE meta 32) as [e|D']; [discriminate|].
    destruct (Z_le_dec 1 D') as [H1|H1]; [destruct (Z_le_dec D' 32) as [H2|H2]|];
      try (rewrite constructor_bad_depth by lia; discriminate).
    rewrite constructor_loaded by lia. intros E.
    assert (Et : t = {| name := nm; depth := D'; root := Buf.slice0 meta 32;
                        hasher := new_Sha256Hasher |}) by congruence.
    rewrite Et. split; [|reflexivity].
    split; [cbn [depth]; lia|]. split; [|apply new_Sha256Hasher_ok].
    cbn [root]. unfold Buf.slice0. rewrite length_take. lia.
Qed.

End Sound.

(** X12.  Whatever the store holds and however it answers, a tree that
    [new] returns bears the name asked for, has a depth in [1,32] (the one
    asked for, or the one of the record found), a root of 32 bytes and a
    sound cache of empty-subtree hashes. *)
Theorem new_returns_sound {DB : Type} `{LevelUp DB}
    (d d' : DB) (l l' : list Access) (nm : string) (D : Z) (t : MerkleTree) :
  new d l nm D = (inr t, (d', l')) ->
  name t = nm /\ 1 <= depth t <= 32 /\ length (root t) = 32%nat
  /\ cache_ok (hasher t).
Proof.
  intros E. destruct (new_sound d d' l l' nm D t E) as [(HD & Hr & Hc) Hn]. auto.
Qed.

Lemma new_returns_sound_witness :
  name (this fresh_t2) = "t"%string /\ 1 <= depth (this fresh_t2) <= 32
  /\ length (root (this fresh_t2)) = 32%nat /\ cache_ok (hasher (this fresh_t2)).
Proof.
  apply (new_returns_sound (∅ : gmap string Buffer) (db fresh_t2) [] (log fresh_t2) "t" 2).
  exact new_t2.
Defined.

(** X13.  Every method keeps a tree object sound, whether it returns or
    throws and whatever the store answers: after [updateElement],
    [getHashPath] or [readNode] on any arguments the depth and the name
    are as before, the root has 32 bytes and the cache of empty-subtree
    hashes is sound. *)
Theorem methods_keep_sound {DB : Type} `{LevelUp DB}
    (st : State DB) (i level index : Z) (v : Buffer) :
  sound (this st) ->
  (sound (this (snd (updateElement i v st)))
   /\ keeps_id st (snd (updateElement i v st)))
  /\ (sound (this (snd (getHashPath i st)))
      /\ keeps_id st (snd (getHashPath i st)))
  /\ (sound (this (snd (readNode level index st)))
      /\ keeps_id st (snd (readNode level index st))).
Proof.
  intros Hs. split; [|split].
  - apply keeps_sound_updateElement. exact Hs.
  - apply keeps_sound_getHashPath. exact Hs.
  - apply keeps_sound_readNode. exact Hs.
Qed.

Lemma sound_d1 (nm : string) : sound (this (state_d1 nm)).
Proof.
  split; [cbn; lia|]. split; [apply emptyHash_rec_length|apply new_Sha256Hasher_ok].
Qed.

Lemma methods_keep_sound_witness :
  (sound (this (snd (updateElement 7 [x01] (state_d1 "t"))))
   /\ keeps_id (state_d1 "t") (snd (updateElement 7 [x01] (state_d1 "t"))))
  /\ (sound (this (snd (getHashPath 7 (state_d1 "t"))))
      /\ keeps_id (state_d1 "t") (snd (getHashPath 7 (state_d1 "t"))))
  /\ (sound (this (snd (readNode 3 (-1) (state_d1 "t"))))
      /\ keeps_id (state_d1 "t") (snd (readNode 3 (-1) (state_d1 "t")))).
Proof.
  apply (methods_keep_sound (state_d1 "t") 7 3 (-1) [x01]). apply sound_d1.
Defined.

(** ** The store accesses of a call *)

Section Accesses.

Context {DB : Type} `{LevelUp DB} `{!Reliable DB}.

Variables (nm : string) (D i : Z).

Hypothesis HD : 1 <= D <= 32.
Hypothesis Hi : 0 <= i < 2 ^ 31.

(** Each round of the loop of [updateElement] fetches one sibling and puts
    one parent. *)
Lemma updateElement_loop_log (fuel : nat) :
  forall (l : Z) (h : Buffer) (st : State DB),
    wf nm D st -> 1 <= l <= D + 1 -> D + 1 - l <= Z.of_nat fuel ->
    length h = 32%nat ->
    exists x st' tail,
      updateElement_loop fuel l (i / 2 ^ (l - 1)) h st = (inr x, st')
      /\ wf nm D st'
      /\ log st' = log st ++ tail
      /\ map access_key tail
         = flat_map (level_accesses nm i) (levels l (Z.to_nat (D + 1 - l))).
Proof.
  induction fuel as [|fuel IH]; intros l h st Hwf Hl Hf Hh;
    cbn [updateElement_loop]; unfold bind at 1; unfold this_depth at 1;
    cbn [fst snd]; pose proof Hwf as (Hn & Hd & Hc); rewrite Hd;
    destruct (Z.leb_spec l D) as [Hle|Hgt]; try lia;
    try (exists h, st, []; replace (D + 1 - l) with 0 by lia;
         cbn [Z.to_nat levels seq map flat_map]; rewrite app_nil_r;
         unfold ret; auto; fail).
  pose proof (shifted_small i (l - 1) Hi ltac:(lia)) as Hj.
  pose proof (xor_small_range _ Hj) as Hx.
  destruct (readNode_spec nm D (l - 1) (JS.xor (i / 2 ^ (l - 1)) 1) st)
    as (st1 & E1 & Hwf1 & _);
    [exact Hwf|unfold uint32; lia|unfold uint32; lia|].
  pose proof (readNode_log (l - 1) (JS.xor (i / 2 ^ (l - 1)) 1) st
                ltac:(unfold uint32; lia) ltac:(unfold uint32; lia)) as Hlog1.
  rewrite E1 in Hlog1. cbn [snd] in Hlog1.
  unfold bind at 1. rewrite E1.
  rewrite sar_small by exact Hj.
  replace (i / 2 ^ (l - 1) / 2) with (i / 2 ^ l)
    by (rewrite div_pow_succ by lia; apply (f_equal (Z.div i));
        apply (f_equal (Z.pow 2)); lia).
  set (h' := if JS.not _ then _ else _).
  assert (Hh' : length h' = 32%nat)
    by (subst h'; destruct (JS.not _); apply compress_length).
  pose proof (shifted_small i l Hi ltac:(lia)) as Hj'.
  destruct (writeNode_ok nm D l (i / 2 ^ l) h' st1) as (st2 & E2 & Ht2 & _);
    [exact Hwf1|unfold uint32; lia|unfold uint32; lia|lia|].
  pose proof (writeNode_log l (i / 2 ^ l) h' st1
                ltac:(unfold uint32; lia) ltac:(unfold uint32; lia) ltac:(lia)) as Hlog2.
  rewrite E2 in Hlog2. cbn [snd] in Hlog2.
  pose proof (wf_this nm D st1 st2 Ht2 Hwf1) as Hwf2.
  unfold bind at 1. rewrite E2.
  destruct (IH (l + 1) h' st2 Hwf2 ltac:(lia) ltac:(lia) Hh')
    as (x & st' & tail & E & Hwf' & Hlog' & Htail).
  replace (l + 1 - 1) with l in E by lia.
  exists x, st', ([Get (storeKey nm (l - 1) (JS.xor (i / 2 ^ (l - 1)) 1));
                   Put (storeKey nm l (i / 2 ^ l)) h'] ++ tail).
  split; [exact E|]. split; [exact Hwf'|]. split.
  - rewrite Hlog', Hlog2, Hlog1. destruct Hwf1 as (Hn1 & _). rewrite Hn, Hn1.
    rewrite <- !app_assoc. reflexivity.
  - replace (Z.to_nat (D + 1 - l)) with (S (Z.to_nat (D + 1 - (l + 1)))) by lia.
    rewrite levels_S. cbn [flat_map]. rewrite map_app, Htail.
    apply (f_equal (fun a => a ++ _)).
    unfold level_accesses. cbn [map access_key]. rewrite !Z.shiftr_div_pow2 by lia.
    assert (JS.xor (i / 2 ^ (l - 1)) 1 = Z.lxor (i / 2 ^ (l - 1)) 1) as ->
        by (unfold JS.xor; rewrite !ToInt32_small by lia; reflexivity).
    reflexivity.
Qed.

Lemma updateElement_log (v : Buffer) (st : State DB) :
  wf nm D st ->
  exists r st' tail,
    updateElement i v st = (inr r, st')
    /\ log st' = log st ++ tail
    /\ map access_key tail
       = (true, storeKey nm 0 i)
         :: flat_map (level_accesses nm i) (levels 1 (Z.to_nat D)) ++ [(true, nm)].
Proof.
  intros Hwf. unfold updateElement. unfold bind at 1.
  destruct (writeNode_ok nm D 0 i (hash v) st) as (st1 & E1 & Ht & _);
    [exact Hwf|unfold uint32; lia|unfold uint32; lia|rewrite hash_length; lia|].
  pose proof (writeNode_log 0 i (hash v) st ltac:(unfold uint32; lia)
                ltac:(unfold uint32; lia) ltac:(rewrite hash_length; lia)) as Hlog1.
  rewrite E1 in Hlog1 |- *. cbn [snd] in Hlog1.
  pose proof (wf_this nm D st st1 Ht Hwf) as Hwf1.
  unfold bind at 1. unfold this_depth at 1. cbn [fst snd].
  pose proof Hwf1 as (Hn1 & Hd1 & Hc1). rewrite Hd1. unfold bind at 1.
  destruct (updateElement_loop_log (Z.to_nat D) 1 (hash v) st1 Hwf1)
    as (x & st2 & tail & E2 & (Hn2 & Hd2 & Hc2) & Hlog2 & Htail);
    [lia|lia|apply hash_length|].
  change (2 ^ (1 - 1)) with 1 in E2. rewrite Z.div_1_r in E2. rewrite E2.
  replace (D + 1 - 1) with D in Htail by lia.
  unfold bind at 1. unfold set_root at 1. cbn [fst snd]. unfold bind at 1.
  rewrite writeMetaData_eq by (cbn; rewrite Hd2; unfold uint32; lia).
  unfold store_put. cbn [this db log with_root name depth root].
  destruct (put_total (db st2) (name (this st2)) (metaRecord x (depth (this st2))))
    as [d' ->].
  unfold this_root. cbn [fst snd this db log with_root root].
  eexists _, _, ([Put (storeKey nm 0 i) (hash v)] ++ tail
                 ++ [Put nm (metaRecord x (depth (this st2)))]).
  split; [reflexivity|]. cbn [log]. split.
  - rewrite Hlog2, Hlog1. destruct Hwf as (Hn & _). rewrite Hn, Hn2.
    rewrite <- !app_assoc. reflexivity.
  - cbn [app map access_key]. rewrite map_app, Htail. reflexivity.
Qed.

End Accesses.

(** X14.  The store accesses of a call, for an index below 2^31.
    [getHashPath(i)] makes two gets per level from the leaf level up, the
    sibling first ([2 * depth] gets) and nothing else.  On a store that
    rejects no write, [updateElement(i, v)] puts the leaf, then for each
    level from 1 to [depth] gets the sibling of the level below and puts
    the parent, and last puts the metadata record under the name of the
    tree: [depth] gets and [depth + 2] puts, each done on its own (no
    batch). *)
Theorem store_accesses {DB : Type} `{LevelUp DB} `{!Reliable DB}
    (st : State DB) (i : Z) (v : Buffer) :
  1 <= depth (this st) <= 32 -> cache_ok (hasher (this st)) ->
  0 <= i < 2 ^ 31 ->
  log (snd (getHashPath i st))
  = log st ++ flat_map (path_gets (name (this st)) i)
                       (levels 0 (Z.to_nat (depth (this st))))
  /\ exists tail,
       log (snd (updateElement i v st)) = log st ++ tail
       /\ map access_key tail
          = (true, storeKey (name (this st)) 0 i)
            :: flat_map (level_accesses (name (this st)) i)
                        (levels 1 (Z.to_nat (depth (this st))))
            ++ [(true, name (this st))]
       /\ length tail = (2 * Z.to_nat (depth (this st)) + 2)%nat.
Proof.
  intros HD Hc Hi.
  assert (Hwf : wf (name (this st)) (depth (this st)) st) by (unfold wf; auto).
  split.
  - destruct (getHashPath_any (name (this st)) (depth (this st)) i HD Hi st Hwf)
      as (st' & -> & _ & Hlog).
    exact Hlog.
  - destruct (updateElement_log (name (this st)) (depth (this st)) i HD Hi v st Hwf)
      as (r & st' & tail & -> & Hlog & Htail).
    exists tail. split; [exact Hlog|]. split; [exact Htail|].
    apply (f_equal (@length _)) in Htail. rewrite length_map in Htail.
    rewrite Htail. cbn [length]. rewrite length_app. cbn [length].
    assert (Hlen : forall l n, length (flat_map (level_accesses (name (this st)) i)
                                                (levels l n)) = (2 * n)%nat).
    { intros l n. revert l. induction n as [|n IHn]; intros l; [reflexivity|].
      rewrite levels_S. cbn [flat_map level_accesses app length]. rewrite IHn. lia. }
    rewrite Hlen. lia.
Qed.

Lemma store_accesses_witness :
  log (snd (getHashPath 1 (state_d1 "t")))
  = log (state_d1 "t")
    ++ flat_map (path_gets (name (this (state_d1 "t"))) 1)
                (levels 0 (Z.to_nat (depth (this (state_d1 "t")))))
  /\ exists tail,
       log (snd (updateElement 1 [x01] (state_d1 "t"))) = log (state_d1 "t") ++ tail
       /\ map access_key tail
          = (true, storeKey (name (this (state_d1 "t"))) 0 1)
            :: flat_map (level_accesses (name (this (state_d1 "t"))) 1)
                        (levels 1 (Z.to_nat (depth (this (state_d1 "t")))))
            ++ [(true, name (this (state_d1 "t")))]
       /\ length tail = (2 * Z.to_nat (depth (this (state_d1 "t"))) + 2)%nat.
Proof.
  apply (store_accesses (state_d1 "t") 1 [x01]).
  - cbn. lia.
  - apply new_Sha256Hasher_ok.
  - lia.
Defined.

(** ** The keys an update writes *)

Section WriteSet.

Context {DB : Type} `{LevelUp DB} `{!LevelUpLaws DB}.

(** [writeNode] changes the store at the key of its node at most. *)
Lemma writeNode_other (l j : Z) (v : Buffer) (st : State DB) (k : string) :
  storeKey (name (this st)) l j <> k ->
  db_get (db (snd (writeNode l j v st))) k = db_get (db st) k.
Proof.
  intros Hk. unfold writeNode. destruct (LEAF_BYTES <? _); [reflexivity|].
  unfold bind, this_name, lift. cbn [fst snd].
  destruct (uint32_dec l) as [Hl|Hl];
    [|rewrite generateKey_range by tauto; reflexivity].
  destruct (uint32_dec j) as [Hj|Hj];
    [|rewrite generateKey_range by tauto; reflexivity].
  rewrite generateKey_ok by assumption.
  fold (storeKey (name (this st)) l j). unfold store_put.
  destruct (db_put (db st) (storeKey (name (this st)) l j) v) as [e|d'] eqn:Hp;
    cbn [snd db]; [reflexivity|].
  apply (get_put_ne _ _ _ _ _ Hp). intros Heq. apply Hk. symmetry. exact Heq.
Qed.

Variables (nm : string) (D i : Z) (k : string).

Hypothesis Hi : 0 <= i < 2 ^ 31.

(** The loop of [updateElement] writes on the path of the leaf only. *)
Lemma updateElement_loop_write_set (fuel : nat) :
  forall (l : Z) (h : Buffer) (st : State DB),
    1 <= l -> name (this st) = nm -> depth (this st) = D ->
    (forall l', l <= l' <= D -> storeKey nm l' (i / 2 ^ l') <> k) ->
    db_get (db (snd (updateElement_loop fuel l (i / 2 ^ (l - 1)) h st))) k
    = db_get (db st) k.
Proof.
  induction fuel as [|fuel IH]; intros l h st Hl Hn Hd Hk;
    cbn [updateElement_loop]; rewrite bind_run; unfold this_depth at 1;
    rewrite Hd; destruct (Z.leb_spec l D) as [Hle|Hgt]; try reflexivity.
  rewrite bind_run.
  pose proof (read_only_readNode (l - 1) (JS.xor (i / 2 ^ (l - 1)) 1) st)
    as (Kn & Kd & _ & Kdb & _).
  destruct (readNode (l - 1) (JS.xor (i / 2 ^ (l - 1)) 1) st) as [[e|s] st1];
    cbn [snd] in *; [rewrite Kdb; reflexivity|].
  pose proof (shifted_small i (l - 1) Hi ltac:(lia)) as Hj.
  rewrite sar_small by exact Hj.
  replace (i / 2 ^ (l - 1) / 2) with (i / 2 ^ l)
    by (rewrite div_pow_succ by lia; apply (f_equal (Z.div i));
        apply (f_equal (Z.pow 2)); lia).
  set (h' := if JS.not _ then _ else _).
  rewrite bind_run.
  pose proof (writeNode_other l (i / 2 ^ l) h' st1 k) as Hw.
  pose proof (keeps_id_writeNode l (i / 2 ^ l) h' st1) as [Wn Wd].
  destruct (writeNode l (i / 2 ^ l) h' st1) as [[e|[]] st2]; cbn [snd] in *.
  - rewrite Hw, Kdb; [reflexivity|]. rewrite Kn, Hn. apply Hk. lia.
  - replace (i / 2 ^ l) with (i / 2 ^ (l + 1 - 1))
      by (apply (f_equal (Z.div i)); apply (f_equal (Z.pow 2)); lia).
    rewrite IH; [|lia|congruence|congruence|intros l' Hl'; apply Hk; lia].
    rewrite Hw, Kdb; [reflexivity|]. rewrite Kn, Hn. apply Hk. lia.
Qed.

Lemma updateElement_write_set_run (v : Buffer) (st : State DB) :
  0 <= D -> name (this st) = nm -> depth (this st) = D ->
  k <> nm ->
  (forall l, 0 <= l <= D -> storeKey nm l (i / 2 ^ l) <> k) ->
  db_get (db (snd (updateElement i v st))) k = db_get (db st) k.
Proof.
  intros HD Hn Hd Hname Hk. unfold updateElement. cbv zeta. rewrite bind_run.
  pose proof (writeNode_other 0 i (hash v) st k) as Hw.
  pose proof (keeps_id_writeNode 0 i (hash v) st) as [Wn Wd].
  assert (Hk0 : storeKey (name (this st)) 0 i <> k).
  { rewrite Hn. specialize (Hk 0 ltac:(lia)).
    change (2 ^ 0) with 1 in Hk. rewrite Z.div_1_r in Hk. exact Hk. }
  destruct (writeNode 0 i (hash v) st) as [[e|[]] st1]; cbn [snd] in *;
    [apply Hw; exact Hk0|].
  rewrite bind_run. unfold this_depth at 1. rewrite bind_run.
  pose proof (updateElement_loop_write_set (Z.to_nat (depth (this st1))) 1 (hash v) st1
                ltac:(lia) ltac:(congruence) ltac:(congruence)
                ltac:(intros l' Hl'; apply Hk; lia)) as HL.
  change (2 ^ (1 - 1)) with 1 in HL. rewrite Z.div_1_r in HL.
  pose proof (keeps_id_updateElement_loop (Z.to_nat (depth (this st1))) 1 i (hash v) st1)
    as [Ln Ld].
  destruct (updateElement_loop _ 1 i (hash v) st1) as [[e|x] st2]; cbn [snd] in *;
    [rewrite HL; apply Hw; exact Hk0|].
  rewrite bind_run. unfold set_root at 1. rewrite bind_run.
  destruct (writeMetaData _) as [[e|[]] st3] eqn:Ew.
  - destruct (writeMetaData_frame _ _ _ k Ew) as [Hg _]; [right; eauto|].
    cbn [snd]. rewrite Hg. cbn [db]. rewrite HL. apply Hw. exact Hk0.
  - destruct (writeMetaData_frame _ _ _ k Ew) as [Hg _];
      [left; cbn [this with_root name]; congruence|].
    unfold this_root. cbn [snd]. rewrite Hg. cbn [db]. rewrite HL. apply Hw. exact Hk0.
Qed.

End WriteSet.

(** X15.  The keys [updateElement(i, _)] writes, for an index below 2^31,
    whether the call returns or throws: only the node keys on the path of
    the leaf, that is (l, i >> l) for the levels 0 to [depth], and the name
    of the tree.  Every other key of the store holds what it held, and a
    tree kept in the same store under such keys reads its nodes as before.
    (Store that reads back what was written.) *)
Theorem updateElement_write_set {DB : Type} `{LevelUp DB} `{!LevelUpLaws DB}
    (st : State DB) (i : Z) (v : Buffer) (k : string)
    (t : MerkleTree) (lg : list Access) (level index : Z) :
  1 <= depth (this st) <= 32 ->
  0 <= i < 2 ^ 31 ->
  k <> name (this st) ->
  (forall l, 0 <= l <= depth (this st) ->
             storeKey (name (this st)) l (Z.shiftr i l) <> k) ->
  db_get (db (snd (updateElement i v st))) k = db_get (db st) k
  /\ (storeKey (name t) level index = k ->
      fst (readNode level index
             {| this := t; db := db (snd (updateElement i v st)); log := lg |})
      = fst (readNode level index {| this := t; db := db st; log := lg |})).
Proof.
  intros HD Hi Hname Hk.
  assert (Hg : db_get (db (snd (updateElement i v st))) k = db_get (db st) k).
  { apply (updateElement_write_set_run (name (this st)) (depth (this st)) i k Hi v st);
      try reflexivity; try exact Hname; [lia|].
    intros l Hl. rewrite <- Z.shiftr_div_pow2 by lia. apply Hk. exact Hl. }
  split; [exact Hg|].
  intros Hkey. apply readNode_fst_ext; [reflexivity|].
  cbn [this db]. rewrite Hkey. exact Hg.
Qed.

Lemma updateElement_write_set_witness :
  db_get (db (snd (updateElement 1 [x01] (state_d1 "a")))) (storeKey "b" 0 0)
  = db_get (db (state_d1 "a")) (storeKey "b" 0 0)
  /\ (storeKey (name (this (state_d1 "b"))) 0 0 = storeKey "b" 0 0 ->
      fst (readNode 0 0
             {| this := this (state_d1 "b");
                db := db (snd (updateElement 1 [x01] (state_d1 "a"))); log := [] |})
      = fst (readNode 0 0 {| this := this (state_d1 "b");
                             db := db (state_d1 "a"); log := [] |})).
Proof.
  apply (updateElement_write_set (state_d1 "a") 1 [x01] (storeKey "b" 0 0)
           (this (state_d1 "b")) [] 0 0).
  - cbn. lia.
  - lia.
  - intros E. vm_compute in E. discriminate E.
  - intros l Hl E. cbn [state_d1 this depth name] in Hl, E.
    assert (l = 0 \/ l = 1) as [-> | ->] by lia; vm_compute in E; discriminate E.
Defined.

(** ** The exceptions of an update *)

Section Throws.

Context {DB : Type} `{LevelUp DB}.

Variables (nm : string) (D : Z).

Hypothesis HD : 1 <= D <= 32.

(** On an index below 2^31 the loop of [updateElement] runs to its end
    unless the store rejects a put; the root field is not touched. *)
Lemma updateElement_loop_outcome (fuel : nat) :
  forall (l j : Z) (h : Buffer) (st : State DB),
    wf nm D st -> 1 <= l <= D + 1 -> D + 1 - l <= Z.of_nat fuel ->
    0 <= j < 2 ^ 31 -> length h = 32%nat ->
    exists r st',
      updateElement_loop fuel l j h st = (r, st')
      /\ wf nm D st' /\ root (this st') = root (this st)
      /\ ((exists x, r = inr x /\ length x = 32%nat)
          \/ (exists se, r = inl (Rejected se))).
Proof.
  induction fuel as [|fuel IH]; intros l j h st Hwf Hl Hf Hj Hh;
    cbn [updateElement_loop]; unfold bind at 1; unfold this_depth at 1;
    cbn [fst snd]; pose proof Hwf as (Hn & Hd & Hc); rewrite Hd;
    destruct (Z.leb_spec l D); try lia;
    try (exists (inr h), st; split; [reflexivity|]; split; [exact Hwf|];
         split; [reflexivity|]; left; exists h; split; [reflexivity|exact Hh]).
  pose proof (xor_small_range j Hj) as Hx.
  destruct (readNode_spec nm D (l - 1) (JS.xor j 1) st) as (st1 & E1 & Hwf1 & _ & Hr1);
    [exact Hwf|unfold uint32; lia|unfold uint32; lia|].
  unfold bind at 1. rewrite E1. rewrite sar_small by exact Hj.
  set (h' := if JS.not (JS.and j 1) then _ else _).
  assert (Hh' : length h' = 32%nat)
    by (subst h'; destruct (JS.not _); apply compress_length).
  assert (Hj2 : 0 <= j / 2 < 2 ^ 31).
  { pose proof (shifted_small j 1 Hj ltac:(lia)) as Hs.
    change (2 ^ 1) with 2 in Hs. exact Hs. }
  destruct (writeNode_spec nm D l (j / 2) h' st1) as (st2 & Ht2 & Hcase);
    [exact Hwf1|unfold uint32; lia|unfold uint32; lia|lia|].
  pose proof (wf_this nm D st1 st2 Ht2 Hwf1) as Hwf2.
  unfold bind at 1.
  destruct Hcase as [(se & E2 & _)|[E2 _]]; rewrite E2.
  - exists (inl (Rejected se)), st2. split; [reflexivity|]. split; [exact Hwf2|].
    split; [rewrite Ht2; exact Hr1|]. right. exists se. reflexivity.
  - destruct (IH (l + 1) (j / 2) h' st2 Hwf2 ltac:(lia) ltac:(lia) Hj2 Hh')
      as (r & st' & E & Hwf' & Hr' & Hout).
    exists r, st'. split; [exact E|]. split; [exact Hwf'|]. split; [|exact Hout].
    rewrite Hr', Ht2. exact Hr1.
Qed.

(** The exceptions of [updateElement]. *)
Lemma updateElement_inl (i : Z) (v : Buffer) (e : Error) (st st' : State DB) :
  wf nm D st ->
  updateElement i v st = (inl e, st') ->
  (e = RangeError /\ ~ (0 <= i < 2 ^ 31) /\ root (this st') = root (this st))
  \/ (exists se,
        e = Rejected se /\ 0 <= i < 2 ^ 32
        /\ (root (this st') = root (this st)
            \/ db_put (db st') nm (metaRecord (root (this st')) D) = inl se)).
Proof.
  intros Hwf.
  destruct (uint32_dec i) as [Hu|Hu];
    [|rewrite updateElement_outside by exact Hu; intros E; injection E as <- <-;
      left; unfold uint32 in Hu; split; [reflexivity|split; [lia|reflexivity]]].
  unfold uint32 in Hu. unfold updateElement. unfold bind at 1.
  destruct (writeNode_spec nm D 0 i (hash v) st) as (st1 & Ht1 & Hcase);
    [exact Hwf|unfold uint32; lia|unfold uint32; lia|rewrite hash_length; lia|].
  pose proof (wf_this nm D st st1 Ht1 Hwf) as Hwf1.
  destruct Hcase as [(se & E1 & _)|[E1 _]]; rewrite E1.
  { intros E. injection E as <- <-. right. exists se.
    split; [reflexivity|]. split; [lia|]. left. rewrite Ht1. reflexivity. }
  unfold bind at 1. unfold this_depth at 1. cbn [fst snd].
  pose proof Hwf1 as (Hn1 & Hd1 & Hc1). rewrite Hd1. unfold bind at 1.
  destruct (Z_lt_dec i (2 ^ 31)) as [Hlt|Hge].
  - destruct (updateElement_loop_outcome (Z.to_nat D) 1 i (hash v) st1 Hwf1)
      as (r & st2 & -> & (Hn2 & Hd2 & Hc2) & Hr2 & [(x & -> & Hx)|(se & ->)]);
      [lia|lia|lia|apply hash_length| |].
    + unfold bind at 1. unfold set_root at 1. cbn [fst snd]. unfold bind at 1.
      rewrite writeMetaData_eq by (cbn; rewrite Hd2; unfold uint32; lia).
      unfold store_put. cbn [this db log with_root name depth root].
      rewrite Hn2, Hd2.
      destruct (db_put (db st2) nm (metaRecord x D)) as [se|d'] eqn:Hput;
        [|discriminate].
      intros E. injection E as <- <-. right. exists se.
      split; [reflexivity|]. split; [lia|]. right. cbn [this db with_root root].
      exact Hput.
    + intros E. injection E as <- <-. right. exists se.
      split; [reflexivity|]. split; [lia|]. left. rewrite Hr2, Ht1. reflexivity.
  - destruct (Z.to_nat D) as [|fuel] eqn:Ef; [lia|].
    cbn [updateElement_loop]. unfold bind at 1. unfold this_depth at 1. cbn [fst snd].
    rewrite Hd1. destruct (Z.leb_spec 1 D); [|lia].
    unfold bind at 1. rewrite readNode_range.
    + intros E. injection E as <- <-. left.
      split; [reflexivity|]. split; [lia|]. rewrite Ht1. reflexivity.
    + pose proof (xor_high i ltac:(lia)). unfold uint32. lia.
Qed.

End Throws.

(** X16.  The exceptions of [updateElement], whatever the store answers.
    A RangeError is thrown only for an index outside [0, 2^31), and every
    other exception is the error of a put that the store rejected: never
    'Bad leaf value', whatever the payload.  When it throws, the root field is
    as before, with one exception: when it is the put of the metadata
    record that was rejected, the object already has the new root while
    the store keeps the old record. *)
Theorem updateElement_errors {DB : Type} `{LevelUp DB}
    (st st' : State DB) (i : Z) (v : Buffer) (e : Error) :
  1 <= depth (this st) <= 32 -> cache_ok (hasher (this st)) ->
  updateElement i v st = (inl e, st') ->
  (e = RangeError /\ ~ (0 <= i < 2 ^ 31) /\ root (this st') = root (this st))
  \/ (exists se,
        e = Rejected se /\ 0 <= i < 2 ^ 32
        /\ (root (this st') = root (this st)
            \/ db_put (db st') (name (this st))
                      (metaRecord (root (this st')) (depth (this st))) = inl se)).
Proof.
  intros HD Hc E.
  apply (updateElement_inl (name (this st)) (depth (this st)) HD i v e st st');
    [unfold wf; auto|exact E].
Qed.

Lemma updateElement_errors_witness :
  (RangeError = RangeError /\ ~ (0 <= -1 < 2 ^ 31)
   /\ root (this (state_d1 "t")) = root (this (state_d1 "t")))
  \/ (exists se,
        RangeError = Rejected se /\ 0 <= -1 < 2 ^ 32
        /\ (root (this (state_d1 "t")) = root (this (state_d1 "t"))
            \/ db_put (db (state_d1 "t")) (name (this (state_d1 "t")))
                      (metaRecord (root (this (state_d1 "t")))
                                  (depth (this (state_d1 "t")))) = inl se)).
Proof.
  apply (updateElement_errors (state_d1 "t") (state_d1 "t") (-1) [x01] RangeError).
  - cbn. lia.
  - apply new_Sha256Hasher_ok.
  - apply updateElement_outside. unfold uint32. lia.
Defined.

(** X17.  The root depends on the leaves only, not on how they came
    about.  Two runs of [updateElement] calls from the same freshly created
    tree (indices of the tree below 2^31) that leave the same payload last
    written at every leaf end with the same [getRoot()]: updates of
    different leaves commute, writing the same payload again changes
    nothing, and an overwritten payload leaves no trace.  The store reads
    back what was written and rejects no write, and the keys of the tree
    are pairwise distinct. *)
Theorem root_depends_on_leaves {DB : Type} `{LevelUp DB} `{!LevelUpLaws DB} `{!Reliable DB}
    (d0 d : DB) (nm : string) (D : Z) (t : MerkleTree) (l : list Access)
    (us1 us2 : list (Z * Buffer)) :
  1 <= D <= 32 ->
  keys_distinct nm D ->
  (exists e, db_get d0 nm = inl e) ->
  (forall l j, in_tree D l j -> exists e, db_get d0 (storeKey nm l j) = inl e) ->
  new d0 [] nm D = (inr t, (d, l)) ->
  Forall (fun u => 0 <= fst u < 2 ^ D /\ fst u < 2 ^ 31) us1 ->
  Forall (fun u => 0 <= fst u < 2 ^ D /\ fst u < 2 ^ 31) us2 ->
  (forall j, 0 <= j < 2 ^ D -> leaves_after us1 j = leaves_after us2 j) ->
  exists st1 st2,
    updateAll us1 {| this := t; db := d; log := l |} = (inr tt, st1)
    /\ updateAll us2 {| this := t; db := d; log := l |} = (inr tt, st2)
    /\ fst (getRoot st1) = fst (getRoot st2).
Proof.
  intros HD Hdistinct Hmeta0 Hempty Hnew Hus1 Hus2 Hsame.
  destruct (updateAll_merkle_hash d0 d nm D t l us1 HD Hdistinct Hmeta0 Hempty Hnew Hus1)
    as (st1 & E1 & _ & R1 & _).
  destruct (updateAll_merkle_hash d0 d nm D t l us2 HD Hdistinct Hmeta0 Hempty Hnew Hus2)
    as (st2 & E2 & _ & R2 & _).
  exists st1, st2. split; [exact E1|]. split; [exact E2|].
  unfold getRoot, this_root. cbn [fst]. rewrite R1, R2. f_equal.
  apply merkle_hash_ext; [lia|]. intros k Hk. apply Hsame.
  rewrite Z2Nat.id in Hk by lia. lia.
Qed.

Lemma root_depends_on_leaves_witness :
  exists st1 st2,
    updateAll [(0, [x01]); (1, [x02]); (0, [x03])]
              {| this := this (created ∅ "t" 1); db := db (created ∅ "t" 1);
                 log := log (created ∅ "t" 1) |} = (inr tt, st1)
    /\ updateAll [(1, [x02]); (0, [x03]); (1, [x02])]
                 {| this := this (created ∅ "t" 1); db := db (created ∅ "t" 1);
                    log := log (created ∅ "t" 1) |} = (inr tt, st2)
    /\ fst (getRoot st1) = fst (getRoot st2).
Proof.
  apply (root_depends_on_leaves (∅ : gmap string Buffer) _ "t" 1 _ _
           [(0, [x01]); (1, [x02]); (0, [x03])] [(1, [x02]); (0, [x03]); (1, [x02])]).
  - lia.
  - apply keys_distinct_t1.
  - exists NotFoundError. apply MemDown_get_empty.
  - intros l j _. exists NotFoundError. apply MemDown_get_empty.
  - apply created_new. lia.
  - repeat (apply Forall_cons; split; [cbn; lia|]). apply Forall_nil. exact I.
  - repeat (apply Forall_cons; split; [cbn; lia|]). apply Forall_nil. exact I.
  - intros j Hj. change (2 ^ 1) with 2 in Hj. unfold leaves_after.
    cbn [fold_left fst snd].
    assert (j = 0 \/ j = 1) as [-> | ->] by lia; reflexivity.
Defined.

(** ** What a method depends on *)

Section Agree.

Context {DB : Type} `{LevelUp DB}.

Lemma agree_bind {A B : Type} (c : M DB A) (k : A -> M DB B) :
  agree c -> (forall a, agree (k a)) -> agree (bind c k).
Proof.
  intros Hc Hk st st2 Hs. rewrite !bind_run.
  destruct (Hc st st2 Hs) as [Hf Hs'].
  destruct (c st) as [[e|a] st'], (c st2) as [[e2|a2] st2']; cbn [fst snd] in *;
    try discriminate.
  - injection Hf as <-. split; [reflexivity|exact Hs'].
  - injection Hf as <-. apply Hk. exact Hs'.
Qed.

Lemma agree_pure {A : Type} (r : Result A) : agree (lift r : M DB A).
Proof. intros st st2 Hs. split; [reflexivity|exact Hs]. Qed.

Lemma agree_this_name : agree (this_name : M DB string).
Proof.
  intros st st2 Hs. split; [|exact Hs]. destruct Hs as (Hn & _).
  unfold this_name. cbn [fst]. rewrite Hn. reflexivity.
Qed.

Lemma agree_this_depth : agree (this_depth : M DB Z).
Proof.
  intros st st2 Hs. split; [|exact Hs]. destruct Hs as (_ & Hd & _).
  unfold this_depth. cbn [fst]. rewrite Hd. reflexivity.
Qed.

Lemma agree_readNode (l j : Z) : agree (readNode l j : M DB Buffer).
Proof.
  intros st st2 Hs. pose proof Hs as (Hn & Hd & Hdb & Hc & Hc2).
  destruct (uint32_dec l) as [Hl|Hl]; [destruct (uint32_dec j) as [Hj|Hj]|];
    try (rewrite !readNode_range by tauto; split; [reflexivity|exact Hs]).
  destruct (readNode_spec (name (this st)) (depth (this st)) l j st)
    as (st' & -> & (Hn' & Hd' & Hc') & Hdb' & _); [unfold wf; auto|exact Hl|exact Hj|].
  destruct (readNode_spec (name (this st)) (depth (this st)) l j st2)
    as (st2' & -> & (Hn2' & Hd2' & Hc2') & Hdb2' & _);
    [unfold wf; auto|exact Hl|exact Hj|].
  cbn [fst snd]. rewrite Hdb. split; [reflexivity|].
  unfold same_tree. rewrite Hn', Hn2', Hd', Hd2', Hdb', Hdb2'. auto.
Qed.

Lemma agree_writeNode (l j : Z) (v : Buffer) : agree (writeNode l j v : M DB unit).
Proof.
  intros st st2 Hs. pose proof Hs as (Hn & Hd & Hdb & Hc & Hc2).
  unfold writeNode. destruct (LEAF_BYTES <? _); [split; [reflexivity|exact Hs]|].
  unfold bind, this_name, lift. cbn [fst snd]. rewrite <- Hn.
  destruct (generateKey (name (this st)) l j) as [e|key];
    [split; [reflexivity|exact Hs]|].
  unfold store_put. rewrite <- Hdb.
  destruct (db_put (db st) (UTF8.toString key) v) as [e|d'];
    (split; [reflexivity|unfold same_tree; cbn [this db]; auto]).
Qed.

Lemma agree_getHashPath_loop (fuel : nat) :
  forall (l j : Z) (acc : list (Buffer * Buffer)),
    agree (getHashPath_loop fuel l j acc : M DB _).
Proof.
  induction fuel as [|fuel IH]; intros l j acc; cbn [getHashPath_loop];
    (apply agree_bind; [apply agree_this_depth|]); intros D;
    destruct (l <? D); try apply agree_pure.
  apply agree_bind; [apply agree_readNode|]. intros s.
  apply agree_bind; [apply agree_readNode|]. intros s'. apply IH.
Qed.

Lemma agree_getHashPath (i : Z) : agree (getHashPath i : M DB HashPath).
Proof.
  unfold getHashPath. apply agree_bind; [apply agree_this_depth|]. intros D.
  apply agree_bind; [apply agree_getHashPath_loop|]. intros p. apply agree_pure.
Qed.

Lemma agree_updateElement_loop (fuel : nat) :
  forall (l j : Z) (h : Buffer), agree (updateElement_loop fuel l j h : M DB Buffer).
Proof.
  induction fuel as [|fuel IH]; intros l j h; cbn [updateElement_loop];
    (apply agree_bind; [apply agree_this_depth|]); intros D;
    destruct (l <=? D); try apply agree_pure.
  apply agree_bind; [apply agree_readNode|]. intros s.
  apply agree_bind; [apply agree_writeNode|]. intros _. apply IH.
Qed.

(** The end of [updateElement]: the root is set and the record written. *)
Lemma agree_set_root (x : Buffer) (sa sb : State DB) :
  same_tree sa sb ->
  let tail := bind (set_root x) (fun _ => bind writeMetaData (fun _ => this_root)) in
  fst (tail sa) = fst (tail sb)
  /\ same_tree (snd (tail sa)) (snd (tail sb))
  /\ (forall r, fst (tail sa) = inr r ->
                root (this (snd (tail sa))) = root (this (snd (tail sb)))).
Proof.
  intros (Hn & Hd & Hdb & Hc & Hc2). cbv zeta.
  unfold bind, set_root, writeMetaData, bind, this_root, this_depth, this_name, lift.
  cbn [fst snd this db log with_root name depth root].
  rewrite <- Hd, <- Hn, <- Hdb.
  destruct (Buf.writeUInt32LE _ (depth (this sa)) 32) as [e|data]; cbn [fst snd];
    [split; [reflexivity|]; split; [unfold same_tree; cbn; auto|];
     intros r Hr; discriminate Hr|].
  unfold store_put. cbn [this db log].
  destruct (db_put (db sa) (name (this sa)) data) as [e|d']; cbn [fst snd];
    (split; [reflexivity|]; split; [unfold same_tree; cbn; auto|]);
    intros r Hr; [discriminate Hr|reflexivity].
Qed.

(** [updateElement] on two objects for the same tree: the same outcome, the
    same store afterwards, and then the same root. *)
Lemma updateElement_agree (i : Z) (v : Buffer) (st st2 : State DB) :
  same_tree st st2 ->
  fst (updateElement i v st) = fst (updateElement i v st2)
  /\ same_tree (snd (updateElement i v st)) (snd (updateElement i v st2))
  /\ (forall r, fst (updateElement i v st) = inr r ->
                root (this (snd (updateElement i v st)))
                = root (this (snd (updateElement i v st2)))).
Proof.
  intros Hs.
  set (P := bind (writeNode 0 i (hash v))
                 (fun _ => bind this_depth
                    (fun D => updateElement_loop (Z.to_nat D) 1 i (hash v)))
            : M DB Buffer).
  assert (Hpre : agree P).
  { apply agree_bind; [apply agree_writeNode|]. intros _.
    apply agree_bind; [apply agree_this_depth|]. intros D.
    apply agree_updateElement_loop. }
  assert (EQ : forall s,
             updateElement i v s
             = bind P (fun x => bind (set_root x)
                                  (fun _ => bind writeMetaData (fun _ => this_root))) s).
  { intros s. unfold updateElement, P. cbv zeta. rewrite !bind_run.
    destruct (writeNode 0 i (hash v) s) as [[e|[]] s1]; [reflexivity|].
    rewrite !bind_run. unfold this_depth at 1 2. rewrite !bind_run.
    destruct (updateElement_loop _ 1 i (hash v) s1) as [[e|x] s2]; reflexivity. }
  rewrite !EQ, !bind_run.
  destruct (Hpre st st2 Hs) as [Hf Hs'].
  destruct (P st) as [[e|x] sa], (P st2) as [[e2|x2] sb]; cbn [fst snd] in *;
    try discriminate.
  - split; [exact Hf|]. split; [exact Hs'|]. intros r Hr. discriminate Hr.
  - injection Hf as <-. exact (agree_set_root x sa sb Hs').
Qed.

End Agree.

(** X18.  What the methods depend on.  Two objects for the same tree (same
    name and depth, stores with the same contents, a sound cache each)
    cannot be told apart, whatever their root fields, the contents of
    their empty-hash caches and the accesses made so far: [readNode],
    [getHashPath] and [updateElement] give the same outcome on both, be it
    a value or an exception, for all arguments; [updateElement] leaves the
    same store contents, and the same root when it returns.  So the cache
    of empty-subtree hashes never changes a result, and a tree opened
    again on its store behaves as the object it replaces. *)
Theorem methods_depend_on {DB : Type} `{LevelUp DB}
    (st st2 : State DB) (i level index : Z) (v : Buffer) :
  same_tree st st2 ->
  fst (readNode level index st) = fst (readNode level index st2)
  /\ fst (getHashPath i st) = fst (getHashPath i st2)
  /\ fst (updateElement i v st) = fst (updateElement i v st2)
  /\ db (snd (updateElement i v st)) = db (snd (updateElement i v st2))
  /\ (forall r, fst (updateElement i v st) = inr r ->
                root (this (snd (updateElement i v st)))
                = root (this (snd (updateElement i v st2)))).
Proof.
  intros Hs.
  split; [apply agree_readNode; exact Hs|].
  split; [apply agree_getHashPath; exact Hs|].
  destruct (updateElement_agree i v st st2 Hs) as (Hf & (_ & _ & Hdb & _) & Hr).
  auto.
Qed.

Lemma same_tree_d1 :
  same_tree (state_d1 "t")
            {| this := {| name := "t"; depth := 1; root := [];
                          hasher := {| emptyHashCache := table 5 |} |};
               db := ∅; log := [Get "t"] |}.
Proof.
  unfold same_tree. cbn [state_d1 this db name depth hasher].
  split; [reflexivity|]. split; [reflexivity|]. split; [reflexivity|].
  split; [apply new_Sha256Hasher_ok|exists 4%nat; reflexivity].
Qed.

Lemma methods_depend_on_witness :
  fst (readNode 1 0 (state_d1 "t"))
  = fst (readNode 1 0 {| this := {| name := "t"; depth := 1; root := [];
                                    hasher := {| emptyHashCache := table 5 |} |};
                         db := ∅; log := [Get "t"] |})
  /\ fst (getHashPath 1 (state_d1 "t"))
     = fst (getHashPath 1 {| this := {| name := "t"; depth := 1; root := [];
                                        hasher := {| emptyHashCache := table 5 |} |};
                             db := ∅; log := [Get "t"] |})
  /\ fst (updateElement 1 [x01] (state_d1 "t"))
     = fst (updateElement 1 [x01]
              {| this := {| name := "t"; depth := 1; root := [];
                            hasher := {| emptyHashCache := table 5 |} |};
                 db := ∅; log := [Get "t"] |})
  /\ db (snd (updateElement 1 [x01] (state_d1 "t")))
     = db (snd (updateElement 1 [x01]
                  {| this := {| name := "t"; depth := 1; root := [];
                                hasher := {| emptyHashCache := table 5 |} |};
                     db := ∅; log := [Get "t"] |}))
  /\ (forall r, fst (updateElement 1 [x01] (state_d1 "t")) = inr r ->
                root (this (snd (updateElement 1 [x01] (state_d1 "t"))))
                = root (this (snd (updateElement 1 [x01]
                                     {| this := {| name := "t"; depth := 1; root := [];
                                                   hasher := {| emptyHashCache := table 5 |} |};
                                        db := ∅; log := [Get "t"] |})))).
Proof.
  apply (methods_depend_on (state_d1 "t") _ 1 1 0 [x01]). apply same_tree_d1.
Defined.
